(** * The style-sheet tree of [packages/tailwindcss/src/ast.ts]

    A shallow embedding of the node model, the two tree walkers, the
    optimizer ([optimizeAst]) and the serializer ([toCss]) of [ast.ts],
    followed by the properties established about them.

    Conventions of the embedding.
    - A JavaScript string is a [string]; its [length] and the positions of
      a [Span] count the code units of that string.
    - [undefined]/[null] become [None]; an exception becomes [None] of the
      enclosing [option] result.
    - A JavaScript object that is compared by identity ([===], [indexOf],
      [Set], [Map] keys) carries a [handle]: the address of the object.  A
      container node owns its [nodes] array and carries the handle of that
      array. *)

From Stdlib Require Import ZArith Ascii String.
From stdpp Require Import base option list gmap strings.

#[global] Set Warnings "-register-all,-clear-no-such-hyp".

Open Scope string_scope.
Open Scope list_scope.

(** ** JavaScript string and array primitives used by [ast.ts] *)

Module Js.

(** The line feed character as a string. *)
Definition LF : string := String (Ascii.ascii_of_nat 10) "".

(** [s.repeat(n)] *)
Fixpoint repeat (s : string) (n : nat) : string :=
  match n with
  | O => ""
  | S n' => s +:+ repeat s n'
  end.

(** [s.startsWith(p)] *)
Fixpoint startsWith (p s : string) : bool :=
  match p, s with
  | EmptyString, _ => true
  | String a p', String b s' => if Ascii.eqb a b then startsWith p' s' else false
  | String _ _, EmptyString => false
  end.

(** [s.includes(p)] *)
Fixpoint includes (p s : string) : bool :=
  if startsWith p s then true
  else match s with
       | EmptyString => false
       | String _ s' => includes p s'
       end.

(** [s.slice(a, b)] for [0 <= a <= b] *)
Definition slice (a b : nat) (s : string) : string :=
  String.substring a (b - a) s.

(** [s === t] on strings *)
Definition seq (s t : string) : bool := String.eqb s t.

(** White space as [\s] and [trim] see it, among the code units below 128. *)
Definition isSpace (c : ascii) : bool :=
  let n := Ascii.nat_of_ascii c in
  Nat.eqb n 32 || Nat.eqb n 9 || Nat.eqb n 10 || Nat.eqb n 11 || Nat.eqb n 12 || Nat.eqb n 13.

Fixpoint trimStart (s : string) : string :=
  match s with
  | String c s' => if isSpace c then trimStart s' else s
  | EmptyString => s
  end.

(** [s.trim()] *)
Definition trim (s : string) : string :=
  String.rev (trimStart (String.rev (trimStart s))).

(** [s.toLowerCase()] on the letters [A] to [Z]. *)
Fixpoint toLowerCase (s : string) : string :=
  match s with
  | EmptyString => EmptyString
  | String c s' =>
      let n := Ascii.nat_of_ascii c in
      String (if Nat.leb 65 n && Nat.leb n 90 then Ascii.ascii_of_nat (n + 32) else c)
             (toLowerCase s')
  end.

(** [value.split(/[\s,]+/)]: [cur] is the piece being read, [inSep] tells
    that the previous code unit belonged to a separator. *)
Fixpoint splitAux (s : string) (cur : string) (inSep : bool) : list string :=
  match s with
  | EmptyString => [cur]
  | String c s' =>
      if isSpace c || Ascii.eqb c ","
      then (if inSep then splitAux s' "" true else cur :: splitAux s' "" true)
      else splitAux s' (cur +:+ String c "") false
  end.

Definition splitSpaceComma (s : string) : list string := splitAux s "" false.

(** [set.add(x)] on a [Set] kept in insertion order. *)
Definition setAdd (x : string) (l : list string) : list string :=
  if bool_decide (x ∈ l) then l else l ++ [x].

(** [arr.splice(i, n, ...items)] for an index [0 <= i] *)
Definition splice {A} (i n : nat) (items arr : list A) : list A :=
  take i arr ++ items ++ drop (i + n) arr.

(** [arr.splice(-1, 1)]: a negative start counts from the end *)
Definition spliceLast {A} (arr : list A) : list A :=
  take (length arr - 1) arr.

(** [arr.findIndex(p)]; [None] stands for [-1] *)
Fixpoint findIndex {A} (p : A -> bool) (arr : list A) : option nat :=
  match arr with
  | [] => None
  | x :: arr' => if p x then Some 0 else S <$> findIndex p arr'
  end.

End Js.

(** ** Source positions ([source-maps/offsets.ts]) *)

(** [type Span = [start: number, end: number]] *)
Record Span := mkSpan { span_start : nat; span_end : nat }.

Record Source := mkSource { file : option string; code : string }.

(** [interface Offsets].  A node holds its [Offsets] by value here: two
    fields that hold one and the same [Offsets] object (a node and a
    shallow copy of it, [{ ...node }]) are two equal records, and a write
    to the [dst] of one does not show in the other. *)
Record Offsets := mkOffsets {
    original : option Source;
    generated : option Source;
    src : Span;
    dst : option Span
  }.

Definition set_dst (d : option Span) (o : Offsets) : Offsets :=
  {| original := original o; generated := generated o; src := src o; dst := d |}.

(** ** The node model *)

Definition handle := nat.

(** The value of a context entry: [string | boolean]. *)
Inductive CtxValue :=
  | CBool (b : bool)
  | CStr (s : string).

(** JavaScript truthiness of a context entry that may be missing. *)
Definition truthy (v : option CtxValue) : bool :=
  match v with
  | Some (CBool b) => b
  | Some (CStr s) => negb (Js.seq s "")
  | None => false
  end.

Record RuleOffsets := mkRuleOffsets {
    ro_selector : option Offsets;
    ro_body : option Offsets
  }.

Record AtRuleOffsets := mkAtRuleOffsets {
    ao_name : option Offsets;
    ao_params : option Offsets;
    ao_body : option Offsets
  }.

Record DeclOffsets := mkDeclOffsets {
    do_property : option Offsets;
    do_value : option Offsets
  }.

Record CommentOffsets := mkCommentOffsets { co_value : option Offsets }.

Record BodyOffsets := mkBodyOffsets { bo_body : option Offsets }.

(** [AstNode = StyleRule | AtRule | Declaration | Comment | Context | AtRoot].
    [ref] is the handle of the node's [nodes] array (of the declaration
    object itself for a declaration). *)
Inductive AstNode :=
  | Rule (selector : string) (ref : handle) (nodes : list AstNode)
         (offsets : RuleOffsets)
  | AtRule (name params : string) (ref : handle) (nodes : list AstNode)
           (offsets : AtRuleOffsets)
  | Declaration (ref : handle) (property : string) (value : option string)
                (important : bool) (offsets : DeclOffsets)
  | Comment (value : string) (offsets : CommentOffsets)
  | Context (context : gmap string CtxValue) (ref : handle)
            (nodes : list AstNode) (offsets : BodyOffsets)
  | AtRoot (ref : handle) (nodes : list AstNode) (offsets : BodyOffsets).

(** The empty [offsets: {}] of each kind. *)
Definition noRuleOffsets := mkRuleOffsets None None.
Definition noAtRuleOffsets := mkAtRuleOffsets None None None.
Definition noDeclOffsets := mkDeclOffsets None None.
Definition noCommentOffsets := mkCommentOffsets None.
Definition noBodyOffsets := mkBodyOffsets None.

(** The constructor functions; [h] is the address of the object created. *)
Definition styleRule (h : handle) (selector : string) (nodes : list AstNode) : AstNode :=
  Rule selector h nodes noRuleOffsets.

Definition atRule (h : handle) (name params : string) (nodes : list AstNode) : AstNode :=
  AtRule name params h nodes noAtRuleOffsets.

Definition decl (h : handle) (property : string) (value : option string) : AstNode :=
  Declaration h property value false noDeclOffsets.

Definition comment (value : string) : AstNode :=
  Comment value noCommentOffsets.

Definition context (h : handle) (ctx : gmap string CtxValue) (nodes : list AstNode) : AstNode :=
  Context ctx h nodes noBodyOffsets.

Definition atRoot (h : handle) (nodes : list AstNode) : AstNode :=
  AtRoot h nodes noBodyOffsets.

(** ['nodes' in node]: the child array of a container. *)
Definition nodesOf (n : AstNode) : option (list AstNode) :=
  match n with
  | Rule _ _ ns _ | AtRule _ _ _ ns _ | Context _ _ ns _ | AtRoot _ ns _ => Some ns
  | Declaration _ _ _ _ _ | Comment _ _ => None
  end.

(** In-place update of a container's child array. *)
Definition setNodes (ns : list AstNode) (n : AstNode) : AstNode :=
  match n with
  | Rule s h _ o => Rule s h ns o
  | AtRule nm p h _ o => AtRule nm p h ns o
  | Context c h _ o => Context c h ns o
  | AtRoot h _ o => AtRoot h ns o
  | Declaration _ _ _ _ _ | Comment _ _ => n
  end.

(** The address a node is recognised by. *)
Definition refOf (n : AstNode) : option handle :=
  match n with
  | Rule _ h _ _ | AtRule _ _ h _ _ | Context _ h _ _ | AtRoot h _ _ => Some h
  | Declaration h _ _ _ _ => Some h
  | Comment _ _ => None
  end.

(** ** Outcomes of a call *)

(** A call ends with a value, throws a [TypeError], or needs more [fuel]
    than the embedding was given. *)
Inductive Failure := TypeError | OutOfFuel.

Inductive Result (A : Type) :=
  | Ok (a : A)
  | Fail (f : Failure).
Arguments Ok {A} a.
Arguments Fail {A} f.

#[global] Instance result_ret : MRet Result := fun A a => Ok a.
#[global] Instance result_bind : MBind Result := fun A B k m =>
  match m with
  | Ok a => k a
  | Fail f => Fail f
  end.

Definition ofFuel {A} (o : option A) : Result A :=
  match o with Some a => Ok a | None => Fail OutOfFuel end.

(** ** The serializer [toCss] *)

Module Serializer.

Import Js.

(** [span(value)]: the span of [value] at the cursor, and the cursor
    after it. *)
Definition span (pos : nat) (value : string) : Span * nat :=
  (mkSpan pos (pos + String.length value), pos + String.length value).

(** [if (o) o.dst = span(value)]: stamps an optional [Offsets]; the cursor
    moves only when the [Offsets] is there. *)
Definition stamp (pos : nat) (value : string) (o : option Offsets)
  : option Offsets * nat :=
  match o with
  | Some off => let '(sp, pos') := span pos value in (Some (set_dst (Some sp) off), pos')
  | None => (None, pos)
  end.

(** [if (o?.dst) o.dst[1] = span("}")[1]] *)
Definition widen (pos : nat) (o : option Offsets) : option Offsets * nat :=
  match o with
  | Some off =>
      match dst off with
      | Some d =>
          let '(sp, pos') := span pos "}" in
          (Some (set_dst (Some (mkSpan (span_start d) (span_end sp))) off), pos')
      | None => (o, pos)
      end
  | None => (None, pos)
  end.

(** The text of [`${node.value}`]: an absent value prints as [undefined]. *)
Definition valueText (v : option string) : string :=
  match v with Some s => s | None => "undefined" end.

Section Stringify.
Variable track : bool.

(** [stringify(node, depth)] with the cursor [pos] threaded through.
    Returns the text, the node with its [dst] spans written, and the
    cursor; [Fail TypeError] is [span(undefined)]. *)
Fixpoint stringify (node : AstNode) (depth : nat) (pos : nat)
  : Result (string * AstNode * nat) :=
  let indent := Js.repeat "  " depth in
  let children :=
  fix children (ns : list AstNode) (pos : nat)
    : Result (string * list AstNode * nat) :=
    match ns with
    | [] => Ok ("", [], pos)
    | child :: rest =>
        '(c1, child', pos1) ← stringify child (S depth) pos;
        '(c2, rest', pos2) ← children rest pos1;
        Ok (c1 +:+ c2, child' :: rest', pos2)
    end in
  match node with
  (* Declaration *)
  | Declaration h property value important offs =>
    let css := indent +:+ property +:+ ": " +:+ valueText value
               +:+ (if important then " !important" else "") +:+ ";" +:+ LF in
    if track then
      let pos := pos + String.length indent in
      let '(oprop, pos) := stamp pos property (do_property offs) in
      let pos := pos + 2 in
      match do_value offs, value with
      | Some _, None => Fail TypeError
      | _, _ =>
          let '(oval, pos) := stamp pos (valueText value) (do_value offs) in
          let pos := if important then pos + 11 else pos in
          let pos := pos + 2 in
          Ok (css, Declaration h property value important
                       (mkDeclOffsets oprop oval), pos)
      end
    else Ok (css, node, pos)
  (* Rule *)
  | Rule selector h nodes offs =>
    let css := indent +:+ selector +:+ " {" +:+ LF in
    let '(offs, pos) :=
      if track then
        let pos := pos + String.length indent in
        let '(osel, pos) := stamp pos selector (ro_selector offs) in
        let pos := pos + 1 in
        let '(obody, pos) := stamp pos "{" (ro_body offs) in
        let pos := pos + 1 in
        (mkRuleOffsets osel obody, pos)
      else (offs, pos) in
    '(body, nodes', pos) ← children nodes pos;
    let css := css +:+ body +:+ indent +:+ "}" +:+ LF in
    let '(offs, pos) :=
      if track then
        let pos := pos + String.length indent in
        let '(obody, pos) := widen pos (ro_body offs) in
        let pos := pos + 1 in
        (mkRuleOffsets (ro_selector offs) obody, pos)
      else (offs, pos) in
    Ok (css, Rule selector h nodes' offs, pos)
  (* AtRule *)
  | AtRule name params h nodes offs =>
    match nodes with
    | [] =>
        (* printed with a `;` instead of an empty block *)
        let css := indent +:+ name +:+ " " +:+ params +:+ ";" +:+ LF in
        if track then
          let pos := pos + String.length indent in
          let '(oname, pos) := stamp pos name (ao_name offs) in
          let pos := pos + 1 in
          let '(oparams, pos) := stamp pos params (ao_params offs) in
          let pos := pos + 2 in
          Ok (css, AtRule name params h [] (mkAtRuleOffsets oname oparams (ao_body offs)), pos)
        else Ok (css, node, pos)
    | _ :: _ =>
        let css := indent +:+ name
                   +:+ (if Js.seq params "" then " " else " " +:+ params +:+ " ")
                   +:+ "{" +:+ LF in
        let '(offs, pos) :=
          if track then
            let pos := pos + String.length indent in
            let '(oname, pos) := stamp pos name (ao_name offs) in
            let '(oparams, pos) :=
              if Js.seq params "" then (ao_params offs, pos)
              else stamp (pos + 1) params (ao_params offs) in
            let pos := pos + 1 in
            let '(obody, pos) := stamp pos "{" (ao_body offs) in
            let pos := pos + 1 in
            (mkAtRuleOffsets oname oparams obody, pos)
          else (offs, pos) in
        '(body, nodes', pos) ← children nodes pos;
        let css := css +:+ body +:+ indent +:+ "}" +:+ LF in
        let '(offs, pos) :=
          if track then
            let pos := pos + String.length indent in
            let '(obody, pos) := widen pos (ao_body offs) in
            let pos := pos + 1 in
            (mkAtRuleOffsets (ao_name offs) (ao_params offs) obody, pos)
          else (offs, pos) in
        Ok (css, AtRule name params h nodes' offs, pos)
    end
  (* Comment *)
  | Comment value offs =>
    let css := indent +:+ "/*" +:+ value +:+ "*/" +:+ LF in
    if track then
      let pos := pos + String.length indent in
      let '(oval, pos) := stamp pos ("/*" +:+ value +:+ "*/") (co_value offs) in
      let pos := pos + 1 in
      Ok (css, Comment value (mkCommentOffsets oval), pos)
    else Ok (css, node, pos)
  (* Context and AtRoot print nothing *)
  | Context _ _ _ _ | AtRoot _ _ _ => Ok ("", node, pos)
  end.

(** The loop [for (let child of nodes) css += stringify(child, depth)]. *)
Fixpoint stringifyEach (depth : nat) (ast : list AstNode) (pos : nat)
  : Result (string * list AstNode * nat) :=
  match ast with
  | [] => Ok ("", [], pos)
  | node :: rest =>
      '(c1, node', pos1) ← stringify node depth pos;
      '(c2, rest', pos2) ← stringifyEach depth rest pos1;
      Ok (c1 +:+ c2, node' :: rest', pos2)
  end.

(** The loop [for (let node of ast) css += stringify(node, 0)]. *)
Definition stringifyAll (ast : list AstNode) (pos : nat)
  : Result (string * list AstNode * nat) :=
  stringifyEach 0 ast pos.
End Stringify.

(** [toCss(ast, track)]: the text and the tree as the call leaves it. *)
Definition toCss (ast : list AstNode) (track : bool)
  : Result (string * list AstNode) :=
  '(css, ast', _) ← stringifyAll track ast 0;
  Ok (css, ast').

End Serializer.

(** ** The tree walkers [walk] and [walkDepth] *)

Module Walker.

(** [const enum WalkAction] *)
Inductive WalkAction :=
  | Continue   (* Continue walking, which is the default *)
  | Skip       (* Skip visiting the children of this node *)
  | Stop.      (* Stop the walk entirely *)

(** The [utils] argument of a visitor, without [replaceWith]. *)
Record Utils := mkUtils {
  u_parent : option AstNode;
  u_context : gmap string CtxValue;
  u_path : list AstNode
  }.

(** [{ ...context, ...node.context }]: the entries of the node win. *)
Definition mergeContext (ctx nodeCtx : gmap string CtxValue) : gmap string CtxValue :=
  nodeCtx ∪ ctx.

(** The three branches of [replaceWith] in [walk]: the array after the
    call and [replacedNodeOffset].  A single node passed instead of an
    array behaves as the one-element array. *)
Definition replaceWith (i : nat) (newNode : list AstNode) (ast : list AstNode)
  : list AstNode * nat :=
  match newNode with
  | [] => (Js.splice i 1 [] ast, 0)
  | [n] => (<[i := n]> ast, 1)
  | _ => (Js.splice i 1 newNode ast, length newNode)
  end.

Section Walk.
(** A visitor is a closure: [V] is the state it closes over.  One call
    yields the new state, the argument of its first [replaceWith] call
    (later calls are ignored by the [replacedNode] flag) and the status
    it returns ([void] is [Continue]). *)
Context {V : Type}.
Variable visit : AstNode -> Utils -> V -> V * option (list AstNode) * WalkAction.

(** [walk(ast, visit, path, context)], entered with the loop index [i].
    The result is the array as the walk leaves it, the visitor's state,
    and whether [WalkAction.Stop] is returned.  A visitor may replace
    for ever, so the embedding counts the nesting of calls and loop
    iterations with [fuel]; [None] is a walk that needs more. *)
Fixpoint walk (fuel : nat) (ast : list AstNode) (i : nat)
  (path : list AstNode) (ctx : gmap string CtxValue) (v : V)
  : option (list AstNode * V * bool) :=
  match fuel with
  | O => None
  | S fuel =>
    match ast !! i with
    | None => Some (ast, v, false)
    | Some node =>
        let parent := last path in
        match node with
        | Context c h nodes o =>
            (* context nodes are transparent *)
            '(nodes', v, stopped) ← walk fuel nodes 0 path (mergeContext ctx c) v;
            let ast := <[i := Context c h nodes' o]> ast in
            if stopped : bool then Some (ast, v, true)
            else walk fuel ast (S i) path ctx v
        | _ =>
            let '(v, replaced, status) :=
              visit node (mkUtils parent ctx (path ++ [node])) v in
            match replaced with
            | Some newNode =>
                let '(ast, replacedNodeOffset) := replaceWith i newNode ast in
                match status with
                | Continue => walk fuel ast i path ctx v
                | _ => walk fuel ast (i + replacedNodeOffset) path ctx v
                end
            | None =>
                match status with
                | Stop => Some (ast, v, true)
                | Skip => walk fuel ast (S i) path ctx v
                | Continue =>
                    match nodesOf node with
                    | Some nodes =>
                        '(nodes', v, stopped) ←
                          walk fuel nodes 0 (path ++ [node]) ctx v;
                        let ast := <[i := setNodes nodes' node]> ast in
                        if stopped : bool then Some (ast, v, true)
                        else walk fuel ast (S i) path ctx v
                    | None => walk fuel ast (S i) path ctx v
                    end
                end
            end
        end
    end
  end.
End Walk.

Section WalkDepth.
(** The visitor of [walkDepth] returns nothing; it may call
    [replaceWith], and the embedding covers visitors that call it at
    most once per visit. *)
Context {V : Type}.
Variable visit : AstNode -> Utils -> V -> V * option (list AstNode).

(** One iteration of the loop of [walkDepth] at the node [ast[i]]: the
    nodes that stand at its place afterwards (the loop index moves past
    all of them) and the visitor's state. *)
Fixpoint walkDepthNode (node : AstNode) (path : list AstNode)
  (ctx : gmap string CtxValue) (v : V) : list AstNode * V :=
  let loop :=
  fix loop (ast : list AstNode) (path : list AstNode)
      (ctx : gmap string CtxValue) (v : V) : list AstNode * V :=
    match ast with
    | [] => ([], v)
    | n :: rest =>
        let '(ns, v) := walkDepthNode n path ctx v in
        let '(rest', v) := loop rest path ctx v in
        (ns ++ rest', v)
    end in
  let parent := last path in
  let visitNode (node : AstNode) (v : V) :=
  let '(v, replaced) := visit node (mkUtils parent ctx (path ++ [node])) v in
  match replaced with
  | Some newNode => (newNode, v)
  | None => ([node], v)
  end in
  match node with
  | Rule _ _ nodes _ | AtRule _ _ _ nodes _ =>
    let '(nodes', v) := loop nodes (path ++ [node]) ctx v in
    visitNode (setNodes nodes' node) v
  | Context c h nodes o =>
    let '(nodes', v) := loop nodes path (mergeContext ctx c) v in
    ([Context c h nodes' o], v)
  | _ => visitNode node v
  end.

(** [walkDepth(ast, visit, path, context)] *)
Fixpoint walkDepth (ast : list AstNode) (path : list AstNode)
  (ctx : gmap string CtxValue) (v : V) : list AstNode * V :=
  match ast with
  | [] => ([], v)
  | n :: rest =>
    let '(ns, v) := walkDepthNode n path ctx v in
    let '(rest', v) := walkDepth rest path ctx v in
    (ns ++ rest', v)
  end.
End WalkDepth.

End Walker.

(** ** The value parser ([value-parser.ts], outside the given sources) *)

Module ValueParser.

(** The value nodes as [ast.ts] reads them: a [kind] among [word],
    [function] and [separator], a [value], and the [nodes] of a
    function. *)
Inductive ValueAstNode :=
  | Word (value : string)
  | Function (value : string) (nodes : list ValueAstNode)
  | Separator (value : string).

Section Walk.
(** Modelled from the spec: [ValueParser.walk] is not among the given
    sources; the spec gives it the contract of the tree walker (the
    visitor receives the node and a replace capability, a replacement
    is applied in place and, the outcome being Continue, visited in
    turn).  The visitors of [ast.ts] return nothing, so the outcome is
    always Continue.  A visitor yields its new state, the visited node
    as it left it (visitors assign to fields of the node) and the
    argument of [replaceWith] when it called it. *)
Context {St : Type}.
Variable visit : nat -> ValueAstNode -> St -> Result (St * ValueAstNode * option ValueAstNode).

Fixpoint walk (fuel : nat) (ast : list ValueAstNode) (i : nat) (s : St)
  : Result (list ValueAstNode * St) :=
  match fuel with
  | O => Fail OutOfFuel
  | S fuel =>
    match ast !! i with
    | None => Ok (ast, s)
    | Some node =>
        '(s, node, replaced) ← visit fuel node s;
        match replaced with
        | Some newNode => walk fuel (<[i := newNode]> ast) i s
        | None =>
            match node with
            | Function val nodes =>
                '(nodes', s) ← walk fuel nodes 0 s;
                walk fuel (<[i := Function val nodes']> ast) (S i) s
            | _ => walk fuel (<[i := node]> ast) (S i) s
            end
        end
    end
  end.
End Walk.

End ValueParser.

(** ** The collaborators of the optimizer *)

(** What [ast.ts] imports and the given sources do not define. *)
Record Externals := mkExternals {
    (** [Polyfills.AtProperty] and [Polyfills.ColorMix] of [index.ts] *)
    Polyfills_AtProperty : Z;
    Polyfills_ColorMix : Z;
    (** [ThemeOptions.STATIC] and [ThemeOptions.USED] of [theme.ts] *)
    ThemeOptions_STATIC : Z;
    ThemeOptions_USED : Z;
    (** [extractUsedVariables] of [utils/variables.ts] *)
    extractUsedVariables : string -> list string;
    (** [parseAtRule] of [css-parser.ts]: the name and the params *)
    parseAtRule : string -> string * string;
    (** [ValueParser.parse] and [ValueParser.toCss] *)
    ValueParser_parse : string -> list ValueParser.ValueAstNode;
    ValueParser_toCss : list ValueParser.ValueAstNode -> string
  }.

(** The design system as [optimizeAst] uses it; [T] is the state of the
    theme, which [trackUsedVariables] updates. *)
Class DesignSystem (T : Type) := {
    (** [designSystem.theme.resolveValue(null, [name])] *)
    resolveValue : T -> string -> option string;
    (** [designSystem.theme.prefixKey(key)] *)
    prefixKey : T -> string -> string;
    (** [theme.getOptions(variable)] *)
    getOptions : T -> string -> Z;
    (** [designSystem.trackUsedVariables(value)] *)
    trackUsedVariables : T -> string -> T
  }.

(** ** The optimizer [optimizeAst] *)

Module Optimizer.

Import ValueParser.

(** [findNode(ast, fn)]: the path of the first node [fn] accepts, in the
    order of [walk]; the empty path when there is none. *)
Definition findNode (fuel : nat) (ast : list AstNode) (fn : AstNode -> bool)
  : Result (list AstNode) :=
  '(_, foundPath, _) ←
    ofFuel (Walker.walk
              (fun node utils foundPath =>
                 if fn node then (Walker.u_path utils, None, Walker.Stop)
                 else (foundPath, None, Walker.Continue))
              fuel ast 0 [] ∅ []);
  Ok foundPath.

(** [extractKeyframeNames(value)] *)
Definition extractKeyframeNames (value : string) : list string :=
  Js.splitSpaceComma value.

Section IsVariableUsed.
Context {T : Type} `{DesignSystem T}.
Variable E : Externals.
Variable theme : T.
Variable variableDependencies : gmap string (list string).

(** [options & (ThemeOptions.STATIC | ThemeOptions.USED)] *)
Definition staticOrUsed (variable : string) : bool :=
  negb (Z.eqb (Z.land (getOptions theme variable)
                    (Z.lor (ThemeOptions_STATIC E) (ThemeOptions_USED E))) 0).

(** [isVariableUsed(variable, theme, variableDependencies,
    alreadySeenVariables)]: the answer and the set as the call leaves
    it.  [fuel] bounds the nesting of the calls. *)
Fixpoint isVariableUsed (fuel : nat) (variable : string)
  (alreadySeenVariables : list string) : option (bool * list string) :=
  match fuel with
  | O => None
  | S fuel =>
    (* Break recursions when visiting a variable twice *)
    if bool_decide (variable ∈ alreadySeenVariables)
    then Some (true, alreadySeenVariables)
    else
      let alreadySeenVariables := alreadySeenVariables ++ [variable] in
      if staticOrUsed variable then Some (true, alreadySeenVariables)
      else
        let dependencies := default [] (variableDependencies !! variable) in
        (fix each (deps : list string) (seen : list string)
           : option (bool * list string) :=
           match deps with
           | [] => Some (false, seen)
           | dependency :: deps' =>
               '(used, seen) ← isVariableUsed fuel dependency seen;
               if used : bool then Some (true, seen) else each deps' seen
           end) dependencies alreadySeenVariables
  end.

(** The loop [for (let dependency of dependencies)] of [isVariableUsed],
    entered with the set [seen]. *)
Fixpoint anyDependencyUsed (fuel : nat) (deps : list string) (seen : list string)
  : option (bool * list string) :=
  match deps with
  | [] => Some (false, seen)
  | dependency :: deps' =>
      '(used, seen) ← isVariableUsed fuel dependency seen;
      if used : bool then Some (true, seen) else anyDependencyUsed fuel deps' seen
  end.
End IsVariableUsed.

(** The state [optimizeAst] closes over, with the store of the arrays
    that are only reachable through [cssThemeVariables]. *)
Record State (T : Type) := mkState {
  theme : T;
  (** the next address never handed out *)
  nextHandle : handle;
  atRoots : list AstNode;
  seenAtProperties : gset string;
  (** [DefaultMap<AstNode[], Set<Declaration>>], in insertion order, keyed
      by the handle of the array *)
  cssThemeVariables : list (handle * list AstNode);
  (** [Set<AtRule>] in insertion order *)
  keyframes : list AstNode;
  usedKeyframeNames : gset string;
  propertyFallbacksRoot : list AstNode;
  propertyFallbacksUniversal : list AstNode;
  (** [DefaultMap<string, Set<string>>] *)
  variableDependencies : gmap string (list string);
  (** the temporary arrays [nodes] and [newParent] of [transform], by
      handle, as the identities of their elements *)
  temporaries : gmap handle (list (option handle));
  (** the declarations of the input whose [value] was set to
      [undefined], by handle *)
  cleared : list handle
  }.
Arguments mkState {T}.
Arguments theme {T}. Arguments nextHandle {T}. Arguments atRoots {T}.
Arguments seenAtProperties {T}. Arguments cssThemeVariables {T}.
Arguments keyframes {T}. Arguments usedKeyframeNames {T}.
Arguments propertyFallbacksRoot {T}. Arguments propertyFallbacksUniversal {T}.
Arguments variableDependencies {T}. Arguments temporaries {T}.
Arguments cleared {T}.

Section Updates.
Context {T : Type}.
Implicit Type st : State T.

Definition setTheme (t : T) st :=
  mkState t (nextHandle st) (atRoots st) (seenAtProperties st)
  (cssThemeVariables st) (keyframes st) (usedKeyframeNames st)
  (propertyFallbacksRoot st) (propertyFallbacksUniversal st)
  (variableDependencies st) (temporaries st) (cleared st).
Definition setNextHandle (n : handle) st :=
  mkState (theme st) n (atRoots st) (seenAtProperties st)
  (cssThemeVariables st) (keyframes st) (usedKeyframeNames st)
  (propertyFallbacksRoot st) (propertyFallbacksUniversal st)
  (variableDependencies st) (temporaries st) (cleared st).
Definition setAtRoots (l : list AstNode) st :=
  mkState (theme st) (nextHandle st) l (seenAtProperties st)
  (cssThemeVariables st) (keyframes st) (usedKeyframeNames st)
  (propertyFallbacksRoot st) (propertyFallbacksUniversal st)
  (variableDependencies st) (temporaries st) (cleared st).
Definition setSeenAtProperties (s : gset string) st :=
  mkState (theme st) (nextHandle st) (atRoots st) s
  (cssThemeVariables st) (keyframes st) (usedKeyframeNames st)
  (propertyFallbacksRoot st) (propertyFallbacksUniversal st)
  (variableDependencies st) (temporaries st) (cleared st).
Definition setCssThemeVariables (m : list (handle * list AstNode)) st :=
  mkState (theme st) (nextHandle st) (atRoots st) (seenAtProperties st)
  m (keyframes st) (usedKeyframeNames st)
  (propertyFallbacksRoot st) (propertyFallbacksUniversal st)
  (variableDependencies st) (temporaries st) (cleared st).
Definition setKeyframes (l : list AstNode) st :=
  mkState (theme st) (nextHandle st) (atRoots st) (seenAtProperties st)
  (cssThemeVariables st) l (usedKeyframeNames st)
  (propertyFallbacksRoot st) (propertyFallbacksUniversal st)
  (variableDependencies st) (temporaries st) (cleared st).
Definition setUsedKeyframeNames (s : gset string) st :=
  mkState (theme st) (nextHandle st) (atRoots st) (seenAtProperties st)
  (cssThemeVariables st) (keyframes st) s
  (propertyFallbacksRoot st) (propertyFallbacksUniversal st)
  (variableDependencies st) (temporaries st) (cleared st).
Definition setPropertyFallbacksRoot (l : list AstNode) st :=
  mkState (theme st) (nextHandle st) (atRoots st) (seenAtProperties st)
  (cssThemeVariables st) (keyframes st) (usedKeyframeNames st)
  l (propertyFallbacksUniversal st)
  (variableDependencies st) (temporaries st) (cleared st).
Definition setPropertyFallbacksUniversal (l : list AstNode) st :=
  mkState (theme st) (nextHandle st) (atRoots st) (seenAtProperties st)
  (cssThemeVariables st) (keyframes st) (usedKeyframeNames st)
  (propertyFallbacksRoot st) l
  (variableDependencies st) (temporaries st) (cleared st).
Definition setVariableDependencies (m : gmap string (list string)) st :=
  mkState (theme st) (nextHandle st) (atRoots st) (seenAtProperties st)
  (cssThemeVariables st) (keyframes st) (usedKeyframeNames st)
  (propertyFallbacksRoot st) (propertyFallbacksUniversal st)
  m (temporaries st) (cleared st).
Definition setTemporaries (m : gmap handle (list (option handle))) st :=
  mkState (theme st) (nextHandle st) (atRoots st) (seenAtProperties st)
  (cssThemeVariables st) (keyframes st) (usedKeyframeNames st)
  (propertyFallbacksRoot st) (propertyFallbacksUniversal st)
  (variableDependencies st) m (cleared st).
Definition setCleared (l : list handle) st :=
  mkState (theme st) (nextHandle st) (atRoots st) (seenAtProperties st)
  (cssThemeVariables st) (keyframes st) (usedKeyframeNames st)
  (propertyFallbacksRoot st) (propertyFallbacksUniversal st)
  (variableDependencies st) (temporaries st) l.

(** Allocation of a new object or array. *)
Definition fresh st : handle * State T :=
  (nextHandle st, setNextHandle (S (nextHandle st)) st).

(** [cssThemeVariables.get(parent).add(node)] *)
Fixpoint register (parent : handle) (node : AstNode)
  (m : list (handle * list AstNode)) : list (handle * list AstNode) :=
  match m with
  | [] => [(parent, [node])]
  | (p, declarations) :: m' =>
    if Nat.eqb p parent
    then (p, if bool_decide (refOf node ∈ refOf <$> declarations)
             then declarations else declarations ++ [node]) :: m'
    else (p, declarations) :: register parent node m'
  end.

(** [for (variable of used) variableDependencies.get(variable).add(property)] *)
Fixpoint addDependencies (used : list string) (property : string)
  (m : gmap string (list string)) : gmap string (list string) :=
  match used with
  | [] => m
  | variable :: used' =>
    addDependencies used' property
      (<[variable := Js.setAdd property (default [] (m !! variable))]> m)
  end.
End Updates.

(** *** The color-mix polyfill of a declaration value *)

(** The variables the two visitors share. *)
Record Flags := mkFlags {
  containsUnresolvableVars : bool;
  containsCurrentcolor : bool;
  requiresPolyfill : bool
  }.

(** A [color-mix(…)] call that holds an unresolvable variable or a bare
    [currentColor] requires the polyfill. *)
Definition flagsAgree (f : Flags) : Prop :=
  containsUnresolvableVars f || containsCurrentcolor f = true -> requiresPolyfill f = true.

Section ColorMix.
Context {T : Type} `{DesignSystem T}.
Variable theme : T.

(** The visitor of the inner walk, over the arguments of one
    [color-mix(…)] call. *)
Definition resolveVars (fuel : nat) (node : ValueAstNode) (f : Flags)
  : Result (Flags * ValueAstNode * option ValueAstNode) :=
  match node with
  | Word value =>
    if Js.seq (Js.toLowerCase value) "currentcolor"
    then Ok (mkFlags (containsUnresolvableVars f) true true, node, None)
    else Ok (f, node, None)
  | Function value nodes =>
    if negb (Js.seq value "var") then Ok (f, node, None)
    else
      match nodes !! 0 with
      | Some (Word firstChild) =>
          let f := mkFlags (containsUnresolvableVars f) (containsCurrentcolor f) true in
          match resolveValue theme firstChild with
          | Some inlinedColor =>
              if Js.seq inlinedColor ""
              then Ok (mkFlags true (containsCurrentcolor f) true, node, None)
              else Ok (f, node, Some (Word inlinedColor))
          | None => Ok (mkFlags true (containsCurrentcolor f) true, node, None)
          end
      | _ => Ok (f, node, None)
      end
  | Separator _ => Ok (f, node, None)
  end.

(** [node.kind === 'separator' && node.value.trim().includes(',')] *)
Definition isCommaSeparator (node : ValueAstNode) : bool :=
  match node with
  | Separator value => Js.includes "," (Js.trim value)
  | _ => false
  end.

Definition isPolarOrLab (value : string) : bool :=
  Js.seq value "oklab" || Js.seq value "oklch" || Js.seq value "lab"
  || Js.seq value "lch".

(** The visitor of the outer walk; its state is [requiresPolyfill]. *)
Definition polyfillColorMix (fuel : nat) (node : ValueAstNode) (requires : bool)
  : Result (bool * ValueAstNode * option ValueAstNode) :=
  match node with
  | Function value nodes =>
    if negb (Js.seq value "color-mix") then Ok (requires, node, None)
    else
      '(nodes, f) ← walk resolveVars fuel nodes 0 (mkFlags false false requires);
      let node := Function value nodes in
      if containsUnresolvableVars f || containsCurrentcolor f then
        match Js.findIndex isCommaSeparator nodes with
        | None => Ok (requiresPolyfill f, node, None)
        | Some separatorIndex =>
            match nodes !! (separatorIndex + 1) with
            | None => Ok (requiresPolyfill f, node, None)
            | Some firstColorValue =>
                Ok (requiresPolyfill f, node, Some firstColorValue)
            end
        end
      else if requiresPolyfill f then
        (* Change the colorspace to `srgb` *)
        match nodes !! 2 with
        | None => Fail TypeError
        | Some (Word colorspace) =>
            if isPolarOrLab colorspace
            then Ok (true, Function value (<[2 := Word "srgb"]> nodes), None)
            else Ok (true, node, None)
        | Some _ => Ok (true, node, None)
        end
      else Ok (false, node, None)
  | _ => Ok (requires, node, None)
  end.
End ColorMix.

(** *** The pass [transform] *)

Section Transform.
Context {T : Type} `{DesignSystem T}.
Variable E : Externals.
Variable polyfills : Z.
Variable fuel : nat.

(** [polyfills & flag] *)
Definition enabled (flag : Z) : bool := negb (Z.eqb (Z.land polyfills flag) 0).

(** [rule(selector, nodes)]; [h] is the address of the node it makes. *)
Definition rule (h : handle) (selector : string) (nodes : list AstNode) : AstNode :=
  match selector with
  | String c _ =>
    if Ascii.eqb c "@"
    then let '(name, params) := parseAtRule E selector in atRule h name params nodes
    else styleRule h selector nodes
  | EmptyString => styleRule h selector nodes
  end.

(** [node.property[0] === '-' && node.property[1] === '-'] *)
Definition isCustomProperty (property : string) : bool := Js.startsWith "--" property.

(** The loop over the declarations of an [@property] rule. *)
Fixpoint readAtProperty (nodes : list AstNode) (initialValue : option string)
  (inherits : bool) : option string * bool :=
  match nodes with
  | [] => (initialValue, inherits)
  | Declaration _ property value _ _ :: rest =>
    if Js.seq property "initial-value" then readAtProperty rest value inherits
    else if Js.seq property "inherits"
         then readAtProperty rest initialValue
                (match value with Some v => Js.seq v "true" | None => false end)
         else readAtProperty rest initialValue inherits
  | _ :: rest => readAtProperty rest initialValue inherits
  end.

Definition keepsEmpty (name : string) : bool :=
  Js.seq name "@layer" || Js.seq name "@charset" || Js.seq name "@custom-media"
  || Js.seq name "@namespace" || Js.seq name "@import".

Definition colorMixQuerySelector : string :=
  "@supports (color: color-mix(in lab, red, red))".

(** The state after the bookkeeping of a first [@property] rule: the
    fallback declaration when the polyfill is enabled, and the name
    marked as seen. *)
Definition noteAtProperty (params : string) (nodes : list AstNode) (st : State T)
  : State T :=
  let st :=
  if enabled (Polyfills_AtProperty E) then
    let '(initialValue, inherits) := readAtProperty nodes None false in
    let '(hd, st) := fresh st in
    let fallback := decl hd params (Some (default "initial" initialValue)) in
    if inherits
    then setPropertyFallbacksRoot (propertyFallbacksRoot st ++ [fallback]) st
    else setPropertyFallbacksUniversal
           (propertyFallbacksUniversal st ++ [fallback]) st
  else st in
  setSeenAtProperties ({[params]} ∪ seenAtProperties st) st.

(** The context below an at-rule. *)
Definition atRuleContext (name : string) (ctx : gmap string CtxValue)
  : gmap string CtxValue :=
  if Js.seq name "@keyframes" then <["keyframes" := CBool true]> ctx else ctx.

(** [transform(node, parent, context, depth)].  [parent] is the handle
    of the destination array; the result lists the nodes the call
    pushes onto it, in order. *)
Fixpoint transform (node : AstNode) (parent : handle)
  (ctx : gmap string CtxValue) (depth : nat) (st : State T)
  : Result (list AstNode * State T) :=
  (* for (let child of nodes) transform(child, parent, ctx, depth) *)
  let each :=
  fix each (nodes : list AstNode) (parent : handle)
      (ctx : gmap string CtxValue) (depth : nat) (st : State T)
    : Result (list AstNode * State T) :=
    match nodes with
    | [] => Ok ([], st)
    | child :: rest =>
        '(pushed, st) ← transform child parent ctx depth st;
        '(pushed', st) ← each rest parent ctx depth st;
        Ok (pushed ++ pushed', st)
    end in
  match node with
  (* Declaration *)
  | Declaration h property value important offs =>
    match value with
    | None => Ok ([], st)
    | Some v =>
        if Js.seq property "--tw-sort" then Ok ([], st)
        else
          let themeVariable := truthy (ctx !! "theme") && isCustomProperty property in
          if themeVariable && Js.seq v "initial"
          then Ok ([], setCleared (cleared st ++ [h]) st)
          else
            (* Track variables defined in `@theme` *)
            let st :=
              if themeVariable && negb (truthy (ctx !! "keyframes"))
              then setCssThemeVariables (register parent node (cssThemeVariables st)) st
              else st in
            (* Track used CSS variables *)
            let st :=
              if Js.includes "var(" v then
                if themeVariable
                then setVariableDependencies
                       (addDependencies (extractUsedVariables E v) property
                          (variableDependencies st)) st
                else setTheme (trackUsedVariables (theme st) v) st
              else st in
            (* Track used animation names *)
            let st :=
              if Js.seq property "animation"
              then setUsedKeyframeNames
                     (usedKeyframeNames st ∪ list_to_set (extractKeyframeNames v)) st
              else st in
            if enabled (Polyfills_ColorMix E) && Js.includes "color-mix(" v then
              '(ast, requires) ←
                walk (polyfillColorMix (theme st)) fuel (ValueParser_parse E v) 0 false;
              if requires : bool then
                let '(hf, st) := fresh st in
                let fallback :=
                  Declaration hf property (Some (ValueParser_toCss E ast)) important offs in
                let '(hq, st) := fresh st in
                let colorMixQuery := rule hq colorMixQuerySelector [node] in
                Ok ([fallback; colorMixQuery], st)
              else Ok ([node], st)
            else Ok ([node], st)
    end
  (* Rule *)
  | Rule selector _ nodes offs =>
    if Js.seq selector "&" then
      (* Rules with `&` as the selector should be flattened *)
      (fix flatten (children : list AstNode) (st : State T)
         : Result (list AstNode * State T) :=
         match children with
         | [] => Ok ([], st)
         | child :: rest =>
             let '(nodes, st) := fresh st in
             '(pushed, st) ← transform child nodes ctx (S depth) st;
             let st := setTemporaries (<[nodes := refOf <$> pushed]> (temporaries st)) st in
             '(pushed', st) ← flatten rest st;
             Ok (pushed ++ pushed', st)
         end) nodes st
    else
      let '(copy, st) := fresh st in
      '(children, st) ← each nodes copy ctx (S depth) st;
      match children with
      | [] => Ok ([], st)
      | _ :: _ => Ok ([Rule selector copy children offs], st)
      end
  (* AtRule *)
  | AtRule name params _ nodes offs =>
    if Js.seq name "@property" && Nat.eqb depth 0 then
      (* Don't output duplicate `@property` rules *)
      if bool_decide (params ∈ seenAtProperties st) then Ok ([], st)
      else
        let st := noteAtProperty params nodes st in
        let '(copy, st) := fresh st in
        '(children, st) ← each nodes copy ctx (S depth) st;
        Ok ([AtRule name params copy children offs], st)
    else
      let ctx := atRuleContext name ctx in
      let '(copy, st) := fresh st in
      '(children, st) ← each nodes copy ctx (S depth) st;
      let copyNode := AtRule name params copy children offs in
      (* Only track `@keyframes` defined inside of a `@theme` *)
      let st :=
        if Js.seq name "@keyframes" && truthy (ctx !! "theme")
        then setKeyframes (keyframes st ++ [copyNode]) st
        else st in
      match children with
      | [] => if keepsEmpty name then Ok ([copyNode], st) else Ok ([], st)
      | _ :: _ => Ok ([copyNode], st)
      end
  (* AtRoot *)
  | AtRoot _ nodes _ =>
    (fix hoist (children : list AstNode) (st : State T)
       : Result (list AstNode * State T) :=
       match children with
       | [] => Ok ([], st)
       | child :: rest =>
           let '(newParent, st) := fresh st in
           '(pushed, st) ← transform child newParent ctx 0 st;
           let st := setTemporaries (<[newParent := refOf <$> pushed]> (temporaries st)) st in
           let st := setAtRoots (atRoots st ++ pushed) st in
           hoist rest st
       end) nodes st
  (* Context *)
  | Context c _ nodes _ =>
    (* Remove reference imports from printing *)
    if truthy (c !! "reference") then Ok ([], st)
    else each nodes parent (Walker.mergeContext ctx c) depth st
  (* Comment *)
  | Comment _ _ => Ok ([node], st)
  end.

(** The loop [for (let node of ast) transform(node, newAst, {}, 0)]. *)
Fixpoint transformAll (nodes : list AstNode) (parent : handle)
  (ctx : gmap string CtxValue) (depth : nat) (st : State T)
  : Result (list AstNode * State T) :=
  match nodes with
  | [] => Ok ([], st)
  | child :: rest =>
    '(pushed, st) ← transform child parent ctx depth st;
    '(pushed', st) ← transformAll rest parent ctx depth st;
    Ok (pushed ++ pushed', st)
  end.
End Transform.

(** *** Arrays by handle *)

(** The array with handle [h] inside a forest: the [nodes] of the
    container that carries [h]. *)
Fixpoint arrayOfNode (h : handle) (node : AstNode) : option (list AstNode) :=
  let arrayIn :=
    fix arrayIn (l : list AstNode) : option (list AstNode) :=
      match l with
      | [] => None
      | n :: l' =>
          match arrayOfNode h n with
          | Some a => Some a
          | None => arrayIn l'
          end
      end in
  match node with
  | Rule _ r nodes _ | AtRule _ _ r nodes _ | Context _ r nodes _ | AtRoot r nodes _ =>
      if Nat.eqb r h then Some nodes else arrayIn nodes
  | Declaration _ _ _ _ _ | Comment _ _ => None
  end.

Fixpoint arrayIn (h : handle) (l : list AstNode) : option (list AstNode) :=
  match l with
  | [] => None
  | n :: l' =>
      match arrayOfNode h n with
      | Some a => Some a
      | None => arrayIn h l'
      end
  end.

(** The forest after [f] was applied, in place, to the array with handle
    [h]. *)
Fixpoint updateNode (h : handle) (f : list AstNode -> list AstNode)
    (node : AstNode) : AstNode :=
  match node with
  | Rule _ r nodes _ | AtRule _ _ r nodes _ | Context _ r nodes _ | AtRoot r nodes _ =>
      if Nat.eqb r h then setNodes (f nodes) node
      else setNodes (map (updateNode h f) nodes) node
  | Declaration _ _ _ _ _ | Comment _ _ => node
  end.

Definition updateIn (h : handle) (f : list AstNode -> list AstNode)
    (l : list AstNode) : list AstNode :=
  map (updateNode h f) l.

(** The arrays the cleanup passes work on: [newAst] (with its handle),
    [atRoots], and the temporary arrays of [transform]. *)
Record Arrays := mkArrays {
  newAstRef : handle;
  newAst : list AstNode;
  hoisted : list AstNode;
  temps : gmap handle (list (option handle))
  }.

(** The identities of the elements of the array with handle [h]. *)
Definition getArray (h : handle) (m : Arrays) : option (list (option handle)) :=
  if Nat.eqb h (newAstRef m) then Some (refOf <$> newAst m)
  else match arrayIn h (newAst m) with
       | Some a => Some (refOf <$> a)
       | None =>
           match arrayIn h (hoisted m) with
           | Some a => Some (refOf <$> a)
           | None => temps m !! h
           end
       end.

(** [arr.indexOf(node)]; [None] stands for [-1]. *)
Definition indexOf (r : handle) (ids : list (option handle)) : option nat :=
  Js.findIndex (fun x => bool_decide (x = Some r)) ids.

(** [arr.splice(idx, 1)] with the [idx] that [indexOf] gave. *)
Definition removeAt {A} (idx : option nat) (arr : list A) : list A :=
  match idx with
  | Some i => Js.splice i 1 [] arr
  | None => Js.spliceLast arr
  end.

(** [arr.splice(idx, 1)] on the array with handle [h]. *)
Definition spliceArray (h : handle) (idx : option nat) (m : Arrays) : Arrays :=
  if Nat.eqb h (newAstRef m)
  then mkArrays (newAstRef m) (removeAt idx (newAst m)) (hoisted m) (temps m)
  else mkArrays (newAstRef m)
         (updateIn h (removeAt idx) (newAst m))
         (updateIn h (removeAt idx) (hoisted m))
         (match arrayIn h (newAst m), arrayIn h (hoisted m) with
          | None, None => alter (removeAt idx) h (temps m)
          | _, _ => temps m
          end).

(** *** The cleanup passes *)

Section Cleanup.
Context {T : Type} `{DesignSystem T}.
Variable E : Externals.
Variable polyfills : Z.
Variable fuel : nat.
Variable theme : T.
Variable dependencies : gmap string (list string).

(** The [do … while (true)] loop: [rpath] is [path] from its last
    element to its first. *)
Fixpoint removeAncestors (rpath : list AstNode) (m : Arrays) : Arrays :=
  match rpath with
  | nodeToRemove :: ((removeFrom :: _) as rest) =>
    match removeFrom with
    | AtRoot h _ _ | AtRule _ _ h _ _ =>
        match refOf nodeToRemove, getArray h m with
        | Some r, Some ids =>
            match indexOf r ids with
            | Some idx => removeAncestors rest (spliceArray h (Some idx) m)
            | None => m
            end
        | _, _ => m
        end
    | _ => m
    end
  | _ => m
  end.

(** [node.kind === 'rule' && node.nodes === parent] *)
Definition isRuleOf (parent : handle) (node : AstNode) : bool :=
  match node with
  | Rule _ r _ _ => Nat.eqb r parent
  | _ => false
  end.

(** The inner loop of the removal of unused theme variables, over the
    declarations recorded for [parent]; it ends early at
    [continue next]. *)
Fixpoint removeUnused (parent : handle) (declarations : list AstNode)
  (used : gset string) (m : Arrays) : Result (gset string * Arrays) :=
  match declarations with
  | [] => Ok (used, m)
  | Declaration d property value _ _ :: rest =>
    '(variableUsed, _) ←
      ofFuel (isVariableUsed E theme dependencies fuel property []);
    if variableUsed : bool then
      let used :=
        if Js.startsWith (prefixKey theme "--animate-") property
        then used ∪ list_to_set (extractKeyframeNames (default "" value))
        else used in
      removeUnused parent rest used m
    else
      (* Remove the declaration (from its parent) *)
      match getArray parent m with
      | None => removeUnused parent rest used m
      | Some ids =>
          let m := spliceArray parent (indexOf d ids) m in
          match removeAt (indexOf d ids) ids with
          | [] =>
              (* the parent is now empty *)
              path ← findNode fuel (newAst m) (isRuleOf parent);
              match path with
              | [] => Ok (used, m)
              | _ :: _ =>
                  let root := AtRoot (newAstRef m) (newAst m) noBodyOffsets in
                  Ok (used, removeAncestors (rev (root :: path)) m)
              end
          | _ :: _ => removeUnused parent rest used m
          end
      end
  | _ :: rest => removeUnused parent rest used m
  end.

(** The outer loop [next:] over [cssThemeVariables]. *)
Fixpoint removeUnusedThemeVariables (vars : list (handle * list AstNode))
  (used : gset string) (m : Arrays) : Result (gset string * Arrays) :=
  match vars with
  | [] => Ok (used, m)
  | (parent, declarations) :: vars' =>
    '(used, m) ← removeUnused parent declarations used m;
    removeUnusedThemeVariables vars' used m
  end.

(** Remove unused keyframes *)
Fixpoint removeUnusedKeyframes (keyframes : list AstNode) (used : gset string)
  (atRoots : list AstNode) : list AstNode :=
  match keyframes with
  | [] => atRoots
  | AtRule _ params r _ _ :: rest =>
    if bool_decide (params ∈ used)
    then removeUnusedKeyframes rest used atRoots
    else removeUnusedKeyframes rest used
           (removeAt (indexOf r (refOf <$> atRoots)) atRoots)
  | _ :: rest => removeUnusedKeyframes rest used atRoots
  end.

(** The nodes that may stay in front of [@layer properties;]. *)
Definition isFirstValidNode (node : AstNode) : bool :=
  match node with
  | Comment _ _ => false
  | AtRule name _ _ _ _ => negb (Js.seq name "@charset" || Js.seq name "@import")
  | _ => true
  end.

Definition fallbackQuery : string :=
  "((-webkit-hyphens: none) and (not (margin-trim: inline))) or ((-moz-orient: inline) and (not (color:rgb(from red r g b))))".
End Cleanup.

(** *** [optimizeAst] *)

(** The largest handle of a tree: objects made by [optimizeAst] get
    addresses above those of the input. *)
Fixpoint maxHandleNode (node : AstNode) : handle :=
  match node with
  | Rule _ r nodes _ | AtRule _ _ r nodes _ | Context _ r nodes _ | AtRoot r nodes _ =>
      Nat.max r (foldr (fun n acc => Nat.max (maxHandleNode n) acc) 0 nodes)
  | Declaration r _ _ _ _ => r
  | Comment _ _ => 0
  end.

Definition maxHandle (ast : list AstNode) : handle :=
  foldr (fun n acc => Nat.max (maxHandleNode n) acc) 0 ast.

Section OptimizeAst.
Context {T : Type} `{DesignSystem T}.
Variable E : Externals.

Definition initialState (ast : list AstNode) (theme : T) : State T :=
  mkState theme (S (maxHandle ast)) [] ∅ [] [] ∅ [] [] ∅ ∅ [].

(** The fallback rules of the [@property] polyfill, put around the
    tree [newAst]. *)
Definition addFallbacks (polyfills : Z) (st : State T) (newAst : list AstNode)
  : list AstNode :=
  if enabled polyfills (Polyfills_AtProperty E) then
  let '(h1, st) := fresh st in
  let '(h2, st) := fresh st in
  let fallbackAst :=
    (match propertyFallbacksRoot st with
     | [] => []
     | _ :: _ => [rule E h1 ":root, :host" (propertyFallbacksRoot st)]
     end)
    ++ (match propertyFallbacksUniversal st with
        | [] => []
        | _ :: _ => [rule E h2 "*, ::before, ::after, ::backdrop"
                       (propertyFallbacksUniversal st)]
        end) in
  match fallbackAst with
  | [] => newAst
  | _ :: _ =>
      let '(h3, st) := fresh st in
      let '(h4, st) := fresh st in
      let '(h5, st) := fresh st in
      let firstValidNodeIndex :=
        default (length newAst) (Js.findIndex isFirstValidNode newAst) in
      Js.splice firstValidNodeIndex 0 [atRule h3 "@layer" "properties" []] newAst
      ++ [rule E h5 "@layer properties" [atRule h4 "@supports" fallbackQuery fallbackAst]]
  end
  else newAst.

(** [optimizeAst(ast, designSystem, polyfills)]: the tree it returns,
    and the state as the call leaves it. *)
Definition optimize (fuel : nat) (ast : list AstNode) (theme : T) (polyfills : Z)
  : Result (list AstNode * State T) :=
  let '(newAstRef, st) := fresh (initialState ast theme) in
  '(newAst, st) ← transformAll E polyfills fuel ast newAstRef ∅ 0 st;
  (* Remove unused theme variables *)
  '(used, m) ←
  removeUnusedThemeVariables E fuel (Optimizer.theme st) (variableDependencies st)
    (cssThemeVariables st) (usedKeyframeNames st)
    (mkArrays newAstRef newAst (atRoots st) (temporaries st));
  (* Remove unused keyframes *)
  let atRoots := removeUnusedKeyframes (keyframes st) used (hoisted m) in
  let st := setUsedKeyframeNames used (setAtRoots atRoots st) in
  let newAst := Optimizer.newAst m ++ atRoots in
  (* Fallbacks *)
  Ok (addFallbacks polyfills st newAst, st).

Definition optimizeAst (fuel : nat) (ast : list AstNode) (theme : T) (polyfills : Z)
  : Result (list AstNode) :=
  '(newAst, _) ← optimize fuel ast theme polyfills;
  Ok newAst.
End OptimizeAst.

End Optimizer.

(** ** Instances used by the examples *)

Module Examples.

Import ValueParser Optimizer.

(** Modelled from the spec: the enumerations [Polyfills] and
    [ThemeOptions], [extractUsedVariables], [parseAtRule] and the value
    parser are not among the given sources.  The flags are distinct
    single bits; [parseAtRule] cuts the rule at its first space;
    [extractUsedVariables] and the value parser are tabulated on the
    values the examples use. *)
Fixpoint cutAtSpace (s : string) : string * string :=
  match s with
  | EmptyString => ("", "")
  | String c s' =>
      if Ascii.eqb c " " then ("", s')
      else let '(a, b) := cutAtSpace s' in (String c a, b)
  end.

Definition colorMixUnknown : string := "color-mix(in oklab, var(--unknown), red)".

Definition parseExample (v : string) : list ValueAstNode :=
  if Js.seq v colorMixUnknown
  then [Function "color-mix"
          [Word "in"; Separator " "; Word "oklab"; Separator ", ";
           Function "var" [Word "--unknown"]; Separator ", "; Word "red"]]
  else [Word v].

Fixpoint printExample (ast : list ValueAstNode) : string :=
  match ast with
  | [] => ""
  | Word v :: rest | Separator v :: rest => v +:+ printExample rest
  | Function v nodes :: rest =>
      v +:+ "(" +:+
      (fix args (l : list ValueAstNode) : string :=
         match l with
         | [] => ""
         | Word w :: l' | Separator w :: l' => w +:+ args l'
         | Function w _ :: l' => w +:+ "()" +:+ args l'
         end) nodes +:+ ")" +:+ printExample rest
  end.

Definition usedVariablesExample (v : string) : list string :=
  if Js.seq v "var(--b) var(--c)" then ["--b"; "--c"]
  else if Js.seq v "var(--a)" then ["--a"]
  else if Js.seq v "var(--b)" then ["--b"]
  else if Js.seq v "var(--c)" then ["--c"]
  else if Js.seq v "var(--d)" then ["--d"]
  else [].

Definition externals : Externals :=
  mkExternals 1 2 8 16 usedVariablesExample cutAtSpace parseExample printExample.

(** A theme that resolves nothing and marks no variable; tracking usage
    records the values it was shown. *)
#[export] Instance blankTheme : DesignSystem (list string) := {
  resolveValue _ _ := None;
  prefixKey _ key := key;
  getOptions _ _ := 0%Z;
  trackUsedVariables t v := t ++ [v]
  }.

(** A theme that is the set of the variables marked as used; it resolves
    nothing. *)
Definition usageTheme : DesignSystem (gset string) := {|
    resolveValue _ _ := None;
    prefixKey _ key := key;
    getOptions t v := if bool_decide (v ∈ t) then 16%Z else 0%Z;
    trackUsedVariables t v := t ∪ list_to_set (usedVariablesExample v)
  |}.

(** [--b] and [--c] refer to [--a], [--d] refers to both. *)
Definition diamond : gmap string (list string) :=
  <["--a" := ["--b"; "--c"]]> (<["--b" := ["--d"]]> (<["--c" := ["--d"]]> ∅)).

Definition diamondRank (v : string) : nat :=
  if Js.seq v "--a" then 0
  else if Js.seq v "--b" then 1
  else if Js.seq v "--c" then 1
  else 2.

(** A theme rule with four variables in a diamond, none of them used. *)
Definition diamondTheme : list AstNode :=
  [Rule ":root" 0
     [Context {["theme" := CBool true]} 1
        [decl 2 "--a" (Some "red");
         decl 3 "--b" (Some "var(--a)");
         decl 4 "--c" (Some "var(--a)");
         decl 5 "--d" (Some "var(--b) var(--c)")] noBodyOffsets;
      decl 6 "color" (Some "blue")] noRuleOffsets].

(** A theme rule with [--a], [--b] that refers to it and an unrelated
    [--dead], and a rule that uses [--b]. *)
Definition usedThroughDependent : list AstNode :=
  [Rule ":root" 0
     [Context {["theme" := CBool true]} 1
        [decl 2 "--a" (Some "red");
         decl 3 "--b" (Some "var(--a)");
         decl 4 "--dead" (Some "blue")] noBodyOffsets] noRuleOffsets;
   Rule ".x" 5 [decl 6 "color" (Some "var(--b)")] noRuleOffsets].

(** An [Offsets] as the parser leaves it: [dst] not yet written. *)
Definition parsed : Offsets := mkOffsets None None (mkSpan 0 0) None.

(** A rule with one declaration, every printed field with an [Offsets]. *)
Definition trackedRule : list AstNode :=
  [Rule ".a" 0
     [Declaration 1 "color" (Some "red") false (mkDeclOffsets (Some parsed) (Some parsed))]
     (mkRuleOffsets (Some parsed) (Some parsed))].

(** A node made by [atRule], which carries no [Offsets], in front of a
    declaration that carries both of its [Offsets]. *)
Definition untrackedThenTracked : list AstNode :=
  [atRule 0 "@layer" "properties" [];
   Declaration 1 "color" (Some "red") false (mkDeclOffsets (Some parsed) (Some parsed))].

(** The state [optimizeAst] starts from on the empty tree. *)
Definition emptyState : State (list string) := initialState [] [].

End Examples.


(** ** Shapes of trees *)

Module Shape.

(** [p] holds of a node and of every node below it. *)
Fixpoint allNodes (p : AstNode -> bool) (n : AstNode) : bool :=
  p n &&
  match n with
  | Rule _ _ ns _ | AtRule _ _ _ ns _ | Context _ _ ns _ | AtRoot _ ns _ =>
      forallb (allNodes p) ns
  | Declaration _ _ _ _ _ | Comment _ _ => true
  end.

(** [p] holds everywhere in a list of trees. *)
Definition goodList (p : AstNode -> bool) (l : list AstNode) : Prop :=
  Forall (fun n => allNodes p n = true) l.

(** A style rule printed with the selector [&]. *)
Definition isAmpRule (n : AstNode) : bool :=
  match n with
  | Rule selector _ _ _ => Js.seq selector "&"
  | _ => false
  end.

Definition notAmpRule (n : AstNode) : bool := negb (isAmpRule n).

(** A declaration has a value. *)
Definition hasValue (n : AstNode) : bool :=
  match n with
  | Declaration _ _ None _ _ => false
  | _ => true
  end.

(** A declaration is not the sort marker. *)
Definition notSortMarker (n : AstNode) : bool :=
  match n with
  | Declaration _ property _ _ _ => negb (Js.seq property "--tw-sort")
  | _ => true
  end.

(** A declaration that may be emitted. *)
Definition emittable (n : AstNode) : bool := hasValue n && notSortMarker n.

(** A declaration with a value. *)
Definition isValuedDecl (n : AstNode) : bool :=
  match n with
  | Declaration _ _ (Some _) _ _ => true
  | _ => false
  end.

(** [p] holds everywhere in the tree and in the hoisted list. *)
Definition goodArrays (p : AstNode -> bool) (m : Optimizer.Arrays) : Prop :=
  goodList p (Optimizer.newAst m) /\ goodList p (Optimizer.hoisted m).

End Shape.

(** ** The text and the spans of a tracked serialization *)

Module Spans.
Import Js Serializer.

(** The text [toCss] prints for a node at a depth. *)
Fixpoint render (depth : nat) (node : AstNode) : string :=
  let indent := repeat "  " depth in
  let renderEach :=
    fix renderEach (ns : list AstNode) : string :=
      match ns with
      | [] => ""
      | n :: rest => render (S depth) n +:+ renderEach rest
      end in
  match node with
  | Declaration _ property value important _ =>
      indent +:+ property +:+ ": " +:+ valueText value
      +:+ (if important then " !important" else "") +:+ ";" +:+ LF
  | Rule selector _ nodes _ =>
      (indent +:+ selector +:+ " {" +:+ LF)
      +:+ renderEach nodes +:+ indent +:+ "}" +:+ LF
  | AtRule name params _ [] _ => indent +:+ name +:+ " " +:+ params +:+ ";" +:+ LF
  | AtRule name params _ nodes _ =>
      (indent +:+ name +:+ (if seq params "" then " " else " " +:+ params +:+ " ")
       +:+ "{" +:+ LF)
      +:+ renderEach nodes +:+ indent +:+ "}" +:+ LF
  | Comment value _ => indent +:+ "/*" +:+ value +:+ "*/" +:+ LF
  | Context _ _ _ _ | AtRoot _ _ _ => ""
  end.

Fixpoint renderEach (depth : nat) (ns : list AstNode) : string :=
  match ns with
  | [] => ""
  | n :: rest => render depth n +:+ renderEach depth rest
  end.

(** The region from the opening brace through the closing brace of a
    block printed at [depth]. *)
Definition block (depth : nat) (nodes : list AstNode) : string :=
  "{" +:+ LF +:+ renderEach (S depth) nodes +:+ repeat "  " depth +:+ "}".

(** The [dst] of an [Offsets], when there is one, cuts [expected] out of
    [text]. *)
Definition reads (text : string) (o : option Offsets) (expected : string) : Prop :=
  match o with
  | Some off =>
      match dst off with
      | Some sp => slice (span_start sp) (span_end sp) text = expected
      | None => True
      end
  | None => True
  end.

(** Every span written in a node printed at [depth], and in the nodes
    below it, cuts the text of its field out of [text].  An at-rule with
    a block and empty [params] prints no params and leaves that span as
    it was; one without a block leaves its body span as it was. *)
Fixpoint spansRight (text : string) (depth : nat) (node : AstNode) : Prop :=
  let all :=
    fix all (ns : list AstNode) : Prop :=
      match ns with
      | [] => True
      | n :: rest => spansRight text (S depth) n /\ all rest
      end in
  match node with
  | Declaration _ property value _ offs =>
      reads text (do_property offs) property
      /\ reads text (do_value offs) (valueText value)
  | Rule selector _ nodes offs =>
      reads text (ro_selector offs) selector
      /\ reads text (ro_body offs) (block depth nodes)
      /\ all nodes
  | AtRule name params _ nodes offs =>
      reads text (ao_name offs) name
      /\ (nodes = [] \/ seq params "" = false -> reads text (ao_params offs) params)
      /\ (nodes <> [] -> reads text (ao_body offs) (block depth nodes))
      /\ all nodes
  | Comment value offs => reads text (co_value offs) ("/*" +:+ value +:+ "*/")
  | Context _ _ _ _ | AtRoot _ _ _ => True
  end.

Fixpoint spansRightEach (text : string) (depth : nat) (ns : list AstNode) : Prop :=
  match ns with
  | [] => True
  | n :: rest => spansRight text depth n /\ spansRightEach text depth rest
  end.

(** Every field that is printed carries an [Offsets], and every
    declaration a value. *)
Fixpoint fullyTracked (node : AstNode) : bool :=
  match node with
  | Declaration _ _ value _ offs =>
      bool_decide (is_Some value) && bool_decide (is_Some (do_property offs))
      && bool_decide (is_Some (do_value offs))
  | Rule _ _ nodes offs =>
      bool_decide (is_Some (ro_selector offs)) && bool_decide (is_Some (ro_body offs))
      && forallb fullyTracked nodes
  | AtRule _ _ _ nodes offs =>
      bool_decide (is_Some (ao_name offs)) && bool_decide (is_Some (ao_params offs))
      && bool_decide (is_Some (ao_body offs)) && forallb fullyTracked nodes
  | Comment _ offs => bool_decide (is_Some (co_value offs))
  | Context _ _ _ _ | AtRoot _ _ _ => true
  end.

(** A tracked [stringify] of [node] at [depth], entered with the cursor
    [pos]: it prints [render depth node], moves the cursor by the length
    of that text, and every span it writes is right in any text that has
    [pos] code units in front of what was printed. *)
Definition trackedResult (depth pos : nat) (node : AstNode) : Prop :=
  exists node',
    stringify true node depth pos
    = Ok (render depth node, node', pos + String.length (render depth node))
    /\ (forall d, render d node' = render d node)
    /\ forall pre post,
         String.length pre = pos ->
         spansRight (pre +:+ render depth node +:+ post) depth node'.

(** The same of the loop over the children of a block. *)
Definition trackedEach (depth pos : nat) (ns : list AstNode) : Prop :=
  exists ns',
    stringifyEach true depth ns pos
    = Ok (renderEach depth ns, ns', pos + String.length (renderEach depth ns))
    /\ (forall d, renderEach d ns' = renderEach d ns)
    /\ length ns' = length ns
    /\ forall pre post,
         String.length pre = pos ->
         spansRightEach (pre +:+ renderEach depth ns +:+ post) depth ns'.

End Spans.

(** ** Orders of traversal *)

Module Traversal.
Import Walker.

(** The calls of the visitor that [walkDepth] makes on a tree when no
    node is replaced: the node and the [utils] of each call, in order. *)
Fixpoint callsOfNode (node : AstNode) (path : list AstNode)
    (ctx : gmap string CtxValue) : list (AstNode * Utils) :=
  let callsOf :=
    fix callsOf (ast : list AstNode) (path : list AstNode)
        (ctx : gmap string CtxValue) : list (AstNode * Utils) :=
      match ast with
      | [] => []
      | n :: rest => callsOfNode n path ctx ++ callsOf rest path ctx
      end in
  let call := (node, mkUtils (last path) ctx (path ++ [node])) in
  match node with
  | Rule _ _ nodes _ | AtRule _ _ _ nodes _ =>
      callsOf nodes (path ++ [node]) ctx ++ [call]
  | Context c _ nodes _ => callsOf nodes path (mergeContext ctx c)
  | AtRoot _ _ _ | Declaration _ _ _ _ _ | Comment _ _ => [call]
  end.

Fixpoint callsOf (ast : list AstNode) (path : list AstNode)
    (ctx : gmap string CtxValue) : list (AstNode * Utils) :=
  match ast with
  | [] => []
  | n :: rest => callsOfNode n path ctx ++ callsOf rest path ctx
  end.

(** Post-order over rules and at-rules, through context nodes, without
    entering at-root nodes. *)
Fixpoint postorderNode (node : AstNode) : list AstNode :=
  match node with
  | Rule _ _ nodes _ | AtRule _ _ _ nodes _ => flat_map postorderNode nodes ++ [node]
  | Context _ _ nodes _ => flat_map postorderNode nodes
  | AtRoot _ _ _ | Declaration _ _ _ _ _ | Comment _ _ => [node]
  end.

Definition postorder (ast : list AstNode) : list AstNode := flat_map postorderNode ast.

(** Post-order over every node that is not a context node. *)
Fixpoint postorderAllNode (node : AstNode) : list AstNode :=
  match node with
  | Rule _ _ nodes _ | AtRule _ _ _ nodes _ | AtRoot _ nodes _ =>
      flat_map postorderAllNode nodes ++ [node]
  | Context _ _ nodes _ => flat_map postorderAllNode nodes
  | Declaration _ _ _ _ _ | Comment _ _ => [node]
  end.

Definition postorderAll (ast : list AstNode) : list AstNode :=
  flat_map postorderAllNode ast.

(** The state of a visitor after a list of calls. *)
Definition after {V : Type} (visit : AstNode -> Utils -> V -> V * option (list AstNode))
    (calls : list (AstNode * Utils)) (v : V) : V :=
  foldl (fun v call => (visit call.1 call.2 v).1) v calls.

(** A visitor that replaces nothing and keeps the nodes it is shown. *)
Definition record (node : AstNode) (_ : Utils) (seen : list AstNode)
  : list AstNode * option (list AstNode) :=
  (seen ++ [node], None).

(** The nodes [walkDepth] shows to a visitor that replaces nothing. *)
Definition visited (ast : list AstNode) : list AstNode :=
  snd (walkDepth record ast [] ∅ []).

End Traversal.

(** ** The graph of the theme variables *)

Module Liveness.

Section Graph.
(** [flagged v]: the theme reports STATIC or USED for [v]. *)
Variable flagged : string -> bool.
(** [variableDependencies]: the variables whose value refers to a variable. *)
Variable dependencies : gmap string (list string).

Definition dependents (v : string) : list string := default [] (dependencies !! v).

(** [d] depends on [v]: an edge recorded by [transform]. *)
Definition edge (v d : string) : Prop := d ∈ dependents v.

(** [v] lies on a cyclic chain of dependencies. *)
Definition onCycle (v : string) : Prop := tc edge v v.

(** [v] is live as the specification has it: [v] or a variable that
    depends on it, directly or not, is flagged or lies on a cycle. *)
Definition live (v : string) : Prop :=
  exists u, rtc edge v u /\ (flagged u = true \/ onCycle u).

(** [w] stands before [d] in the list [l]. *)
Definition before (l : list string) (w d : string) : Prop :=
  exists i j, l !! i = Some w /\ l !! j = Some d /\ i < j.

(** What a search that answers [false] has added to the set: the
    variable, then what the searches from its dependents added; none of
    them flagged, and every dependent of each of them added after it. *)
Definition explored (seen new : list string) : Prop :=
  NoDup (seen ++ new)
  /\ (forall w, w ∈ new -> flagged w = false)
  /\ (forall w d, w ∈ new -> d ∈ dependents w -> before (seen ++ new) w d).

(** The variables the graph mentions. *)
Definition universe : gset string :=
  dom dependencies ∪ ⋃ ((fun kv => list_to_set kv.2) <$> map_to_list dependencies).
End Graph.

End Liveness.

(** ** Statements of the specification that the code is compared with *)

Module Stated.
Import Optimizer.

(** The specification's at-root step: each child is transformed into a
    temporary array of its own with the context reset to empty and the
    depth reset to 0, and what it pushes is appended to the hoisted
    list. *)
Definition atRootResetsContext {T : Type} `{DesignSystem T} (E : Externals)
    (polyfills : Z) (fuel : nat) : Prop :=
  forall h child offs parent ctx depth (st : State T),
    transform E polyfills fuel (AtRoot h [child] offs) parent ctx depth st =
    (let '(newParent, st) := fresh st in
     '(pushed, st) ← transform E polyfills fuel child newParent ∅ 0 st;
     let st := setTemporaries (<[newParent := refOf <$> pushed]> (temporaries st)) st in
     Ok ([], setAtRoots (atRoots st ++ pushed) st)).

(** The specification's placement of the hoisted list: at the very end
    of the tree that is returned. *)
Definition hoistedAtVeryEnd {T : Type} `{DesignSystem T} (E : Externals) : Prop :=
  forall fuel ast (theme : T) polyfills out st,
    optimize E fuel ast theme polyfills = Ok (out, st) ->
    exists main, out = main ++ atRoots st.

(** The specification's [walkDepth]: every node of the tree that is not a
    context node is visited exactly once, children before parents. *)
Definition walkDepthVisitsEveryNode : Prop :=
  forall ast, Traversal.visited ast = Traversal.postorderAll ast.

Definition isContext (node : AstNode) : bool :=
  match node with
  | Context _ _ _ _ => true
  | _ => false
  end.

(** The specification's Stop: whenever the visitor returns Stop, the walk
    is over; it returns Stop with the visitor as that call left it. *)
Definition stopAlwaysAborts : Prop :=
  forall (V : Type) (visit : AstNode -> Walker.Utils -> V ->
                             V * option (list AstNode) * Walker.WalkAction)
         fuel ast i path ctx v node v' replaced result,
    ast !! i = Some node ->
    isContext node = false ->
    visit node (Walker.mkUtils (last path) ctx (path ++ [node])) v
    = (v', replaced, Walker.Stop) ->
    Walker.walk visit fuel ast i path ctx v = Some result ->
    result.2 = true /\ result.1.2 = v'.

(** The specification's color-mix step: the destination array receives
    the original declaration, unchanged, and the feature-gated at-rule
    that wraps a copy of the declaration carrying the rewritten value. *)
Definition colorMixQueryWrapsRewritten {T : Type} `{DesignSystem T} (E : Externals)
    (polyfills : Z) (fuel : nat) : Prop :=
  forall h property v important offs parent ctx depth (st : State T) pushed st' ast',
    enabled polyfills (Polyfills_ColorMix E) = true ->
    Js.includes "color-mix(" v = true ->
    ValueParser.walk
      (polyfillColorMix
         (if Js.includes "var(" v
             && negb (truthy (ctx !! "theme") && isCustomProperty property)
          then trackUsedVariables (theme st) v else theme st))
      fuel (ValueParser_parse E v) 0 false = Ok (ast', true) ->
    transform E polyfills fuel (Declaration h property (Some v) important offs)
      parent ctx depth st = Ok (pushed, st') ->
    exists hc hq,
      pushed = [Declaration h property (Some v) important offs;
                rule E hq colorMixQuerySelector
                  [Declaration hc property (Some (ValueParser_toCss E ast')) important offs]].

(** The specification's dead-code decision: a registered variable is kept
    exactly when it is live. *)
Definition keptExactlyWhenLive {T : Type} `{DesignSystem T} (E : Externals) : Prop :=
  forall (theme : T) dependencies fuel variable used seen,
    isVariableUsed E theme dependencies fuel variable [] = Some (used, seen) ->
    (used = true <-> Liveness.live (staticOrUsed E theme) dependencies variable).

End Stated.

(** ** What the serializer reads and writes *)

Module Printing.
Import Serializer.

(** An [Offsets] with its [dst] back to [null]. *)
Definition unwritten (o : option Offsets) : option Offsets := set_dst None <$> o.

(** A tree with every [dst] back to [null]. *)
Fixpoint eraseSpans (node : AstNode) : AstNode :=
  match node with
  | Rule selector h nodes o =>
      Rule selector h (map eraseSpans nodes)
        (mkRuleOffsets (unwritten (ro_selector o)) (unwritten (ro_body o)))
  | AtRule name params h nodes o =>
      AtRule name params h (map eraseSpans nodes)
        (mkAtRuleOffsets (unwritten (ao_name o)) (unwritten (ao_params o))
           (unwritten (ao_body o)))
  | Declaration h property value important o =>
      Declaration h property value important
        (mkDeclOffsets (unwritten (do_property o)) (unwritten (do_value o)))
  | Comment value o => Comment value (mkCommentOffsets (unwritten (co_value o)))
  | Context c h nodes o =>
      Context c h (map eraseSpans nodes) (mkBodyOffsets (unwritten (bo_body o)))
  | AtRoot h nodes o =>
      AtRoot h (map eraseSpans nodes) (mkBodyOffsets (unwritten (bo_body o)))
  end.

(** [span(node.value!)] is reached with [node.value] undefined: a
    declaration that is printed has no value and carries a value
    [Offsets].  The nodes below a context or an at-root node are not
    printed. *)
Fixpoint spansUndefined (node : AstNode) : bool :=
  match node with
  | Declaration _ _ None _ o => bool_decide (is_Some (do_value o))
  | Declaration _ _ (Some _) _ _ => false
  | Rule _ _ nodes _ | AtRule _ _ _ nodes _ => existsb spansUndefined nodes
  | Comment _ _ | Context _ _ _ _ | AtRoot _ _ _ => false
  end.

(** An [Offsets] as the parser leaves it: no [dst] yet. *)
Definition noDst (o : option Offsets) : bool :=
  match o with
  | Some off => match dst off with None => true | Some _ => false end
  | None => true
  end.

(** No [dst] is written anywhere in a tree. *)
Fixpoint notWritten (node : AstNode) : bool :=
  match node with
  | Rule _ _ nodes o => noDst (ro_selector o) && noDst (ro_body o) && forallb notWritten nodes
  | AtRule _ _ _ nodes o =>
      noDst (ao_name o) && noDst (ao_params o) && noDst (ao_body o)
      && forallb notWritten nodes
  | Declaration _ _ _ _ o => noDst (do_property o) && noDst (do_value o)
  | Comment _ o => noDst (co_value o)
  | Context _ _ nodes o | AtRoot _ nodes o => noDst (bo_body o) && forallb notWritten nodes
  end.

(** A [dst], when there is one, lies between [lo] and [hi]. *)
Definition within (lo hi : nat) (o : option Offsets) : Prop :=
  match o with
  | Some off =>
      match dst off with
      | Some sp => lo <= span_start sp /\ span_start sp <= span_end sp /\ span_end sp <= hi
      | None => True
      end
  | None => True
  end.

(** Every [dst] of a tree lies between [lo] and [hi]. *)
Fixpoint spansWithin (lo hi : nat) (node : AstNode) : Prop :=
  let all :=
    fix all (ns : list AstNode) : Prop :=
      match ns with
      | [] => True
      | n :: rest => spansWithin lo hi n /\ all rest
      end in
  match node with
  | Rule _ _ nodes o =>
      within lo hi (ro_selector o) /\ within lo hi (ro_body o) /\ all nodes
  | AtRule _ _ _ nodes o =>
      within lo hi (ao_name o) /\ within lo hi (ao_params o) /\ within lo hi (ao_body o)
      /\ all nodes
  | Declaration _ _ _ _ o => within lo hi (do_property o) /\ within lo hi (do_value o)
  | Comment _ o => within lo hi (co_value o)
  | Context _ _ nodes o | AtRoot _ nodes o => within lo hi (bo_body o) /\ all nodes
  end.

Fixpoint spansWithinEach (lo hi : nat) (ns : list AstNode) : Prop :=
  match ns with
  | [] => True
  | n :: rest => spansWithin lo hi n /\ spansWithinEach lo hi rest
  end.

(** The outcome of a tracked call: a [TypeError] when [span(undefined)]
    is reached, a result otherwise. *)
Definition outcome {A} (throws : bool) (r : Result A) : Prop :=
  if throws then r = Fail TypeError else exists a, r = Ok a.

(** What a tracked call leaves: the cursor moved forward by no more than
    the text printed, and every span between the two cursors. *)
Definition bounded (pos : nat) (css : string) (pos' : nat) : Prop :=
  pos <= pos' /\ pos' <= pos + String.length css.

End Printing.

(** ** The calls a walk makes *)

Module Visits.
Import Walker.

(** The number of nodes of a tree, context nodes included. *)
Fixpoint sizeNode (node : AstNode) : nat :=
  match node with
  | Rule _ _ nodes _ | AtRule _ _ _ nodes _ | Context _ _ nodes _ | AtRoot _ nodes _ =>
      S (foldr (fun n acc => sizeNode n + acc) 0 nodes)
  | Declaration _ _ _ _ _ | Comment _ _ => 1
  end.

Definition size (ast : list AstNode) : nat :=
  foldr (fun n acc => sizeNode n + acc) 0 ast.

(** The calls of the visitor that [walk] makes on a tree, and whether
    the walk is stopped, for a visitor that replaces nothing and whose
    outcome on a node is [verdict node]. *)
Fixpoint traceNode (verdict : AstNode -> WalkAction) (node : AstNode)
    (path : list AstNode) (ctx : gmap string CtxValue)
  : list (AstNode * Utils) * bool :=
  let traceEach :=
    fix traceEach (ast : list AstNode) (path : list AstNode)
        (ctx : gmap string CtxValue) : list (AstNode * Utils) * bool :=
      match ast with
      | [] => ([], false)
      | n :: rest =>
          let '(calls, stopped) := traceNode verdict n path ctx in
          if stopped : bool then (calls, true)
          else let '(calls', stopped') := traceEach rest path ctx in
               (calls ++ calls', stopped')
      end in
  let call := (node, mkUtils (last path) ctx (path ++ [node])) in
  let below (nodes : list AstNode) :=
    match verdict node with
    | Stop => ([call], true)
    | Skip => ([call], false)
    | Continue =>
        let '(calls, stopped) := traceEach nodes (path ++ [node]) ctx in
        (call :: calls, stopped)
    end in
  match node with
  | Context c _ nodes _ => traceEach nodes path (mergeContext ctx c)
  | Rule _ _ nodes _ | AtRule _ _ _ nodes _ | AtRoot _ nodes _ => below nodes
  | Declaration _ _ _ _ _ | Comment _ _ => below []
  end.

Fixpoint traceEach (verdict : AstNode -> WalkAction) (ast : list AstNode)
    (path : list AstNode) (ctx : gmap string CtxValue)
  : list (AstNode * Utils) * bool :=
  match ast with
  | [] => ([], false)
  | n :: rest =>
      let '(calls, stopped) := traceNode verdict n path ctx in
      if stopped : bool then (calls, true)
      else let '(calls', stopped') := traceEach verdict rest path ctx in
           (calls ++ calls', stopped')
  end.

(** Every node that is not a context node, a parent before its
    children. *)
Fixpoint preorderNode (node : AstNode) : list AstNode :=
  match node with
  | Rule _ _ nodes _ | AtRule _ _ _ nodes _ | AtRoot _ nodes _ =>
      node :: flat_map preorderNode nodes
  | Context _ _ nodes _ => flat_map preorderNode nodes
  | Declaration _ _ _ _ _ | Comment _ _ => [node]
  end.

Definition preorder (ast : list AstNode) : list AstNode := flat_map preorderNode ast.

(** The nodes of a list, with the children of every context node in
    the place of the context node. *)
Fixpoint surfaceNode (node : AstNode) : list AstNode :=
  match node with
  | Context _ _ nodes _ => flat_map surfaceNode nodes
  | _ => [node]
  end.

Definition surface (ast : list AstNode) : list AstNode := flat_map surfaceNode ast.

(** A visitor that replaces nothing, with the outcome [verdict node]. *)
Definition observer {V : Type} (step : AstNode -> Utils -> V -> V)
    (verdict : AstNode -> WalkAction)
  : AstNode -> Utils -> V -> V * option (list AstNode) * WalkAction :=
  fun node utils v => (step node utils v, None, verdict node).

(** The state of an observer after a list of calls. *)
Definition fed {V : Type} (step : AstNode -> Utils -> V -> V)
    (calls : list (AstNode * Utils)) (v : V) : V :=
  foldl (fun v call => step call.1 call.2 v) v calls.

(** The calls up to the first one that [p] accepts, that call included. *)
Fixpoint upto {A} (p : A -> bool) (l : list A) : list A :=
  match l with
  | [] => []
  | x :: rest => if p x then [x] else x :: upto p rest
  end.

(** A chain of nodes that leads down into a list of trees: the first
    node stands in the list, or in the place of a context node of the
    list, and each further node stands like that among the children of
    the node before it. *)
Fixpoint lineage (ast : list AstNode) (chain : list AstNode) : Prop :=
  match chain with
  | [] => True
  | node :: rest =>
      node ∈ surface ast /\ lineage (default [] (nodesOf node)) rest
  end.

(** The visitor of [findNode], as an observer: it stops at the first
    node [fn] accepts and keeps the path it was shown there. *)
Definition stopAt (fn : AstNode -> bool) (node : AstNode) : WalkAction :=
  if fn node then Stop else Continue.

Definition keepPath (fn : AstNode -> bool) (node : AstNode) (utils : Utils)
    (foundPath : list AstNode) : list AstNode :=
  if fn node then u_path utils else foundPath.

(** Every call of the trace shows a path that extends the path the walk
    was entered with by a chain that leads down to the node. *)
Definition pathsLead (ast : list AstNode) (path : list AstNode)
    (calls : list (AstNode * Utils)) : Prop :=
  Forall (fun call => exists chain,
            u_path call.2 = path ++ chain ++ [call.1]
            /\ lineage ast (chain ++ [call.1])) calls.

(** A visitor together with the record of the calls made to it. *)
Definition logged {V : Type}
    (visit : AstNode -> Utils -> V -> V * option (list AstNode) * WalkAction)
  : AstNode -> Utils -> V * list (AstNode * Utils) ->
    (V * list (AstNode * Utils)) * option (list AstNode) * WalkAction :=
  fun node utils s =>
    let '(v, replaced, status) := visit node utils s.1 in
    ((v, s.2 ++ [(node, utils)]), replaced, status).

Definition notContext (node : AstNode) : Prop := Stated.isContext node = false.

(** A call in which context nodes do not show: the node is none, the
    path holds none and ends in the node, and the parent is the node
    before it on the path. *)
Definition transparentCall (call : AstNode * Utils) : Prop :=
  notContext call.1
  /\ Forall notContext (u_path call.2)
  /\ exists ancestors,
       u_path call.2 = ancestors ++ [call.1] /\ u_parent call.2 = last ancestors.

(** A visitor of [walkDepth] together with the record of the calls made
    to it. *)
Definition loggedDepth {V : Type}
    (visit : AstNode -> Utils -> V -> V * option (list AstNode))
  : AstNode -> Utils -> V * list (AstNode * Utils) ->
    (V * list (AstNode * Utils)) * option (list AstNode) :=
  fun node utils s =>
    let '(v, replaced) := visit node utils s.1 in
    ((v, s.2 ++ [(node, utils)]), replaced).

Definition isRuleOrAtRule (node : AstNode) : bool :=
  match node with
  | Rule _ _ _ _ | AtRule _ _ _ _ _ => true
  | _ => false
  end.

(** A call of [walkDepth]: the node is no context node, the path ends in
    it, the nodes before it on the path are rules and at-rules, and the
    parent is the last of them. *)
Definition depthCall (call : AstNode * Utils) : Prop :=
  notContext call.1
  /\ exists ancestors,
       u_path call.2 = ancestors ++ [call.1]
       /\ u_parent call.2 = last ancestors
       /\ Forall (fun node => isRuleOrAtRule node = true) ancestors.

(** The result of a recorded [walkDepth] and of the plain one: the calls
    recorded are as [depthCall] has them, and the results agree. *)
Definition depthLogged {V : Type} (r : list AstNode * (V * list (AstNode * Utils)))
    (r' : list AstNode * V) : Prop :=
  Forall depthCall r.2.2 /\ r' = (r.1, r.2.1).

(** A visitor that keeps the nodes it is shown, in order. *)
Definition remember (node : AstNode) (_ : Utils) (seen : list AstNode) : list AstNode :=
  seen ++ [node].

End Visits.

(** ** Trees that [optimizeAst] returns and trees it leaves alone *)

Module Output.
Import Optimizer.

(** A node that [toCss] prints: neither a context nor an at-root node. *)
Definition printed (node : AstNode) : bool :=
  match node with
  | Context _ _ _ _ | AtRoot _ _ _ => false
  | _ => true
  end.

Definition isEmpty (nodes : list AstNode) : bool :=
  match nodes with [] => true | _ :: _ => false end.

(** A tree [optimizeAst] has nothing to do on: declarations with a
    value that are not the sort marker and hold no [color-mix(] call,
    rules with a selector other than [&] and at least one child,
    at-rules other than [@property] that have a child or a name that is
    kept when empty, and comments; no context and no at-root node. *)
Fixpoint plain (node : AstNode) : bool :=
  match node with
  | Declaration _ property (Some v) _ _ =>
      negb (Js.seq property "--tw-sort") && negb (Js.includes "color-mix(" v)
  | Declaration _ _ None _ _ => false
  | Rule selector _ nodes _ =>
      negb (Js.seq selector "&") && negb (isEmpty nodes) && forallb plain nodes
  | AtRule name _ _ nodes _ =>
      negb (Js.seq name "@property") && (negb (isEmpty nodes) || keepsEmpty name)
      && forallb plain nodes
  | Comment _ _ => true
  | Context _ _ _ _ | AtRoot _ _ _ => false
  end.

(** A tree without the identities of its rules and at-rules: the copy
    [{ ...node, nodes: [] }] that [transform] makes of a rule is a new
    object with the fields of the rule. *)
Fixpoint anonymous (node : AstNode) : AstNode :=
  match node with
  | Rule selector _ nodes o => Rule selector 0 (map anonymous nodes) o
  | AtRule name params _ nodes o => AtRule name params 0 (map anonymous nodes) o
  | Context c _ nodes o => Context c 0 (map anonymous nodes) o
  | AtRoot _ nodes o => AtRoot 0 (map anonymous nodes) o
  | Declaration _ _ _ _ _ | Comment _ _ => node
  end.

(** Nothing was hoisted, registered as a theme variable or a keyframes
    rule, or collected as a fallback between two states. *)
Definition quiet {T : Type} (st st' : State T) : Prop :=
  atRoots st' = atRoots st
  /\ cssThemeVariables st' = cssThemeVariables st
  /\ keyframes st' = keyframes st
  /\ propertyFallbacksRoot st' = propertyFallbacksRoot st
  /\ propertyFallbacksUniversal st' = propertyFallbacksUniversal st.

(** What [transform] does on a plain node below no theme context: it
    pushes one node, the node up to the identity of the rules and
    at-rules in it, and the state stays quiet. *)
Definition passes {T : Type} `{DesignSystem T} (E : Externals) (polyfills : Z)
    (fuel : nat) (node : AstNode) : Prop :=
  forall parent ctx depth (st : State T),
    truthy (ctx !! "theme") = false ->
    exists node' st',
      transform E polyfills fuel node parent ctx depth st = Ok ([node'], st')
      /\ anonymous node' = anonymous node /\ quiet st st'.

(** A code unit of a separator of [/[\s,]+/]. *)
Definition isSeparator (c : ascii) : bool := Js.isSpace c || Ascii.eqb c ",".

(** No code unit of a string is one of a separator. *)
Fixpoint separatorFree (s : string) : bool :=
  match s with
  | EmptyString => true
  | String c s' => negb (isSeparator c) && separatorFree s'
  end.

(** Every code unit of a string is one of a separator. *)
Fixpoint separatorsOnly (s : string) : bool :=
  match s with
  | EmptyString => true
  | String c s' => isSeparator c && separatorsOnly s'
  end.

(** A string does not begin with a separator. *)
Definition startsName (s : string) : bool :=
  match s with
  | EmptyString => true
  | String c _ => negb (isSeparator c)
  end.

End Output.

(** ** The keyframes rules the cleanup removes *)

Module Keyframes.
Import Optimizer.

(** The tracked [@keyframes] rules whose name no animation uses, by
    identity. *)
Fixpoint unusedRefs (keyframes : list AstNode) (used : gset string) : list handle :=
  match keyframes with
  | [] => []
  | AtRule _ params r _ _ :: rest =>
      if bool_decide (params ∈ used) then unusedRefs rest used
      else r :: unusedRefs rest used
  | _ :: rest => unusedRefs rest used
  end.

(** A node is none of the rules with these identities. *)
Definition survives (removed : list handle) (node : AstNode) : bool :=
  match refOf node with
  | Some r => negb (bool_decide (r ∈ removed))
  | None => true
  end.

(** The identities of the nodes of a list that have one. *)
Definition identities (l : list AstNode) : list handle := omap refOf l.

End Keyframes.

(** ** Trees without a theme *)

Module ThemeScope.
Import Optimizer.

(** No context node of the tree sets a truthy [theme] entry. *)
Fixpoint noTheme (node : AstNode) : bool :=
  match node with
  | Context c _ nodes _ => negb (truthy (c !! "theme")) && forallb noTheme nodes
  | Rule _ _ nodes _ | AtRule _ _ _ nodes _ | AtRoot _ nodes _ => forallb noTheme nodes
  | Declaration _ _ _ _ _ | Comment _ _ => true
  end.

(** Between two states nothing was registered for the cleanup passes:
    no theme variable and no keyframes rule. *)
Definition unregistered {T : Type} (st st' : State T) : Prop :=
  cssThemeVariables st' = cssThemeVariables st /\ keyframes st' = keyframes st.

(** [transform] on a node, below a context without a theme, registers
    nothing. *)
Definition registersNothing {T : Type} `{DesignSystem T} (E : Externals)
    (polyfills : Z) (fuel : nat) (node : AstNode) : Prop :=
  forall parent ctx depth (st : State T) pushed st',
    truthy (ctx !! "theme") = false ->
    transform E polyfills fuel node parent ctx depth st = Ok (pushed, st') ->
    unregistered st st'.

(** A node other than a style rule without children. *)
Definition solid (node : AstNode) : bool :=
  match node with
  | Rule _ _ [] _ => false
  | _ => true
  end.

(** What [transform] pushes holds no style rule without children, and
    neither does what it adds to the hoisted list. *)
Definition tidy {T : Type} (st : State T) (pushed : list AstNode) (st' : State T) : Prop :=
  Shape.goodList solid pushed
  /\ (Shape.goodList solid (atRoots st) -> Shape.goodList solid (atRoots st')).

Definition pushesSolid {T : Type} `{DesignSystem T} (E : Externals)
    (polyfills : Z) (fuel : nat) (node : AstNode) : Prop :=
  forall parent ctx depth (st : State T) pushed st',
    transform E polyfills fuel node parent ctx depth st = Ok (pushed, st') ->
    tidy st pushed st'.

End ThemeScope.

(** * Properties *)

(** ** Induction over trees *)

Section AstNodeInd.
Variable P : AstNode -> Prop.
Hypothesis HRule : forall s h ns o, Forall P ns -> P (Rule s h ns o).
Hypothesis HAtRule : forall n p h ns o, Forall P ns -> P (AtRule n p h ns o).
Hypothesis HDecl : forall h p v i o, P (Declaration h p v i o).
Hypothesis HComment : forall v o, P (Comment v o).
Hypothesis HContext : forall c h ns o, Forall P ns -> P (Context c h ns o).
Hypothesis HAtRoot : forall h ns o, Forall P ns -> P (AtRoot h ns o).

Fixpoint AstNode_rect_nested (n : AstNode) : P n :=
  let all :=
    fix all (ns : list AstNode) : Forall P ns :=
      match ns with
      | [] => Forall_nil_2 P
      | x :: xs => Forall_cons_2 P x xs (AstNode_rect_nested x) (all xs)
      end in
  match n with
  | Rule s h ns o => HRule s h ns o (all ns)
  | AtRule nm p h ns o => HAtRule nm p h ns o (all ns)
  | Declaration h p v i o => HDecl h p v i o
  | Comment v o => HComment v o
  | Context c h ns o => HContext c h ns o (all ns)
  | AtRoot h ns o => HAtRoot h ns o (all ns)
  end.
End AstNodeInd.

(** ** The equations of [transform] *)

Module TransformEq.
Import Optimizer.

Section Eq.
Context {T : Type} `{DesignSystem T}.
Variable E : Externals.
Variable polyfills : Z.
Variable fuel : nat.

Abbreviation transform := (transform E polyfills fuel).
Abbreviation transformAll := (transformAll E polyfills fuel).

Ltac fold_each :=
  match goal with
  | |- context [?f ?nodes ?p ?c ?d ?s] =>
    is_fix f;
    let Heq := fresh "Heq" in
    assert (Heq : forall n p' c' d' s', f n p' c' d' s' = transformAll n p' c' d' s')
      by (let l := fresh "l" in
          intro l; induction l; intros; cbn;
          [reflexivity
          | match goal with
            | |- context [Optimizer.transform ?e ?pf ?fu ?a ?b ?c ?d ?s] =>
                destruct (Optimizer.transform e pf fu a b c d s) as [[? ?]|?]; cbn;
                [match goal with IH : forall _, _ |- _ => rewrite IH end|];
                reflexivity
            end]);
    rewrite Heq; clear Heq
  end.

Lemma transform_rule selector h nodes offs parent ctx depth (st : State T) :
  Js.seq selector "&" = false ->
  transform (Rule selector h nodes offs) parent ctx depth st =
  (let '(copy, st) := fresh st in
  '(children, st) ← transformAll nodes copy ctx (S depth) st;
  match children with
  | [] => Ok ([], st)
  | _ :: _ => Ok ([Rule selector copy children offs], st)
  end).
Proof.
  intros Hsel. cbn [Optimizer.transform]. rewrite Hsel.
  destruct (fresh st) as [copy st0]. fold_each. reflexivity.
Qed.

Lemma transform_decl_absent h property important offs parent ctx depth (st : State T) :
  transform (Declaration h property None important offs) parent ctx depth st
  = Ok ([], st).
Proof. reflexivity. Qed.

Lemma transform_decl_sort h value important offs parent ctx depth (st : State T) :
  transform (Declaration h "--tw-sort" value important offs) parent ctx depth st
  = Ok ([], st).
Proof. destruct value; reflexivity. Qed.

Lemma transform_decl_initial h property important offs parent ctx depth (st : State T) :
  Js.seq property "--tw-sort" = false ->
  truthy (ctx !! "theme") = true ->
  isCustomProperty property = true ->
  transform (Declaration h property (Some "initial") important offs) parent ctx depth st
  = Ok ([], setCleared (cleared st ++ [h]) st).
Proof.
  intros Hs Ht Hc. cbn [Optimizer.transform]. rewrite Hs, Ht, Hc. reflexivity.
Qed.

Lemma transform_amp_nil h offs parent ctx depth (st : State T) :
  transform (Rule "&" h [] offs) parent ctx depth st = Ok ([], st).
Proof. reflexivity. Qed.

Lemma transform_amp_cons h child rest offs parent ctx depth (st : State T) :
  transform (Rule "&" h (child :: rest) offs) parent ctx depth st =
  (let '(nodes, st) := fresh st in
  '(pushed, st) ← transform child nodes ctx (S depth) st;
  let st := setTemporaries (<[nodes := refOf <$> pushed]> (temporaries st)) st in
  '(pushed', st) ← transform (Rule "&" h rest offs) parent ctx depth st;
  Ok (pushed ++ pushed', st)).
Proof. reflexivity. Qed.

Lemma transform_atproperty_seen name params h nodes offs parent ctx (st : State T) :
  Js.seq name "@property" = true ->
  params ∈ seenAtProperties st ->
  transform (AtRule name params h nodes offs) parent ctx 0 st = Ok ([], st).
Proof.
  intros Hn Hseen. cbn [Optimizer.transform]. rewrite Hn. cbn.
  rewrite bool_decide_eq_true_2 by assumption. reflexivity.
Qed.

Lemma transform_atproperty_first name params h nodes offs parent ctx (st : State T) :
  Js.seq name "@property" = true ->
  params ∉ seenAtProperties st ->
  transform (AtRule name params h nodes offs) parent ctx 0 st =
  (let '(copy, st) := fresh (noteAtProperty E polyfills params nodes st) in
  '(children, st) ← transformAll nodes copy ctx 1 st;
  Ok ([AtRule name params copy children offs], st)).
Proof.
  intros Hn Hseen. cbn [Optimizer.transform]. rewrite Hn. cbn [andb Nat.eqb].
  rewrite bool_decide_eq_false_2 by assumption. cbn zeta.
  destruct (fresh (noteAtProperty E polyfills params nodes st)) as [copy st0].
  fold_each. reflexivity.
Qed.

Lemma transform_atrule name params h nodes offs parent ctx depth (st : State T) :
  Js.seq name "@property" && Nat.eqb depth 0 = false ->
  transform (AtRule name params h nodes offs) parent ctx depth st =
  (let ctx := atRuleContext name ctx in
  let '(copy, st) := fresh st in
  '(children, st) ← transformAll nodes copy ctx (S depth) st;
  let copyNode := AtRule name params copy children offs in
  let st :=
   if Js.seq name "@keyframes" && truthy (ctx !! "theme")
   then setKeyframes (keyframes st ++ [copyNode]) st
   else st in
  match children with
  | [] => if keepsEmpty name then Ok ([copyNode], st) else Ok ([], st)
  | _ :: _ => Ok ([copyNode], st)
  end).
Proof.
  intros Hn. cbn [Optimizer.transform]. rewrite Hn. cbn zeta.
  destruct (fresh st) as [copy st0]. fold_each. reflexivity.
Qed.

Lemma transform_atroot_nil h offs parent ctx depth (st : State T) :
  transform (AtRoot h [] offs) parent ctx depth st = Ok ([], st).
Proof. reflexivity. Qed.

Lemma transform_atroot_cons h child rest offs parent ctx depth (st : State T) :
  transform (AtRoot h (child :: rest) offs) parent ctx depth st =
  (let '(newParent, st) := fresh st in
  '(pushed, st) ← transform child newParent ctx 0 st;
  let st := setTemporaries (<[newParent := refOf <$> pushed]> (temporaries st)) st in
  let st := setAtRoots (atRoots st ++ pushed) st in
  transform (AtRoot h rest offs) parent ctx depth st).
Proof. reflexivity. Qed.

Lemma transform_context c h nodes offs parent ctx depth (st : State T) :
  transform (Context c h nodes offs) parent ctx depth st =
  (if truthy (c !! "reference") then Ok ([], st)
  else transformAll nodes parent (Walker.mergeContext ctx c) depth st).
Proof.
  cbn [Optimizer.transform]. destruct (truthy (c !! "reference")); [reflexivity|].
  fold_each. reflexivity.
Qed.

Lemma transform_comment value offs parent ctx depth (st : State T) :
  transform (Comment value offs) parent ctx depth st = Ok ([Comment value offs], st).
Proof. reflexivity. Qed.

Lemma transformAll_cons child rest parent ctx depth (st : State T) :
  transformAll (child :: rest) parent ctx depth st =
  ('(pushed, st) ← transform child parent ctx depth st;
  '(pushed', st) ← transformAll rest parent ctx depth st;
  Ok (pushed ++ pushed', st)).
Proof. reflexivity. Qed.

(** *** How [transform] builds what it pushes

    Any relation between the state before, the nodes pushed and the
    state after that holds for the elementary effects of [transform]
    and is closed under sequencing holds for [transform]. *)
Section Steps.
Variable Step : State T -> list AstNode -> State T -> Prop.
Hypothesis Step_nil : forall st, Step st [] st.
Hypothesis Step_app : forall st o1 st1 o2 st2,
  Step st o1 st1 -> Step st1 o2 st2 -> Step st (o1 ++ o2) st2.
Hypothesis Step_cleared : forall st l, Step st [] (setCleared l st).
Hypothesis Step_register : forall st m, Step st [] (setCssThemeVariables m st).
Hypothesis Step_dependencies : forall st m, Step st [] (setVariableDependencies m st).
Hypothesis Step_theme : forall st t, Step st [] (setTheme t st).
Hypothesis Step_used : forall st u, Step st [] (setUsedKeyframeNames u st).
Hypothesis Step_fresh : forall st, Step st [] (snd (fresh st)).
Hypothesis Step_temporaries : forall st m, Step st [] (setTemporaries m st).
Hypothesis Step_keyframes : forall st l, Step st [] (setKeyframes l st).
Hypothesis Step_note : forall st params nodes,
  params ∉ seenAtProperties st ->
  Step st [] (noteAtProperty E polyfills params nodes st).
Hypothesis Step_decl : forall st h property v important offs,
  Js.seq property "--tw-sort" = false ->
  Step st [Declaration h property (Some v) important offs] st.
Hypothesis Step_polyfill : forall st h hf hq property v v' important offs,
  Js.seq property "--tw-sort" = false ->
  Step st [Declaration hf property (Some v') important offs;
       rule E hq colorMixQuerySelector
         [Declaration h property (Some v) important offs]] st.
Hypothesis Step_comment : forall st value offs, Step st [Comment value offs] st.
Hypothesis Step_rule : forall st children st' selector copy offs,
  Js.seq selector "&" = false ->
  Step st children st' ->
  Step st [Rule selector copy children offs] st'.
Hypothesis Step_atrule : forall st children st' name params copy offs,
  Step st children st' ->
  Step st [AtRule name params copy children offs] st'.
Hypothesis Step_hoist : forall st pushed st',
  Step st pushed st' ->
  Step st [] (setAtRoots (atRoots st' ++ pushed) st').

Lemma Step_then st o st1 st2 : Step st o st1 -> Step st1 [] st2 -> Step st o st2.
Proof. intros H1 H2. rewrite <- (app_nil_r o). eauto. Qed.

Lemma Step_after st o st1 st2 : Step st [] st1 -> Step st1 o st2 -> Step st o st2.
Proof. intros H1 H2. change o with ([] ++ o). eauto. Qed.

Lemma transformAll_steps nodes :
  Forall (fun node => forall parent ctx depth st pushed st',
        transform node parent ctx depth st = Ok (pushed, st') ->
        Step st pushed st') nodes ->
  forall parent ctx depth st pushed st',
  transformAll nodes parent ctx depth st = Ok (pushed, st') ->
  Step st pushed st'.
Proof.
  induction 1 as [|node rest Hnode _ IH]; intros parent ctx depth st pushed st' Heq.
  - injection Heq as <- <-. apply Step_nil.
  - rewrite transformAll_cons in Heq.
  destruct (transform node parent ctx depth st) as [[o1 st1]|] eqn:H1; [|discriminate].
  cbn [mbind result_bind] in Heq.
  destruct (transformAll rest parent ctx depth st1) as [[o2 st2]|] eqn:H2; [|discriminate].
  injection Heq as <- <-. eauto.
Qed.

Lemma transform_steps node : forall parent ctx depth st pushed st',
  transform node parent ctx depth st = Ok (pushed, st') ->
  Step st pushed st'.
Proof.
  induction node as [selector h ns offs IH | name params h ns offs IH
                | h property value important offs | value offs
                | c h ns offs IH | h ns offs IH] using AstNode_rect_nested;
  intros parent ctx depth st pushed st' Heq.
  - (* Rule *)
  destruct (Js.seq selector "&") eqn:Hsel.
  + apply String.eqb_eq in Hsel. subst selector.
  revert st pushed st' Heq.
  induction IH as [|child rest Hchild _ IHrest]; intros st pushed st' Heq.
  * rewrite transform_amp_nil in Heq. injection Heq as <- <-. apply Step_nil.
  * rewrite transform_amp_cons in Heq.
    pose proof (Step_fresh st) as Hf.
    destruct (fresh st) as [nodes st0]. cbn [snd] in Hf.
    destruct (transform child nodes ctx (S depth) st0) as [[o1 st1]|] eqn:H1;
      [|discriminate].
    cbn [mbind result_bind] in Heq.
    match type of Heq with
    | context [transform (Rule "&" h rest offs) parent ctx depth ?s] =>
        destruct (transform (Rule "&" h rest offs) parent ctx depth s)
          as [[o2 st2]|] eqn:H2; [|discriminate]
    end.
    injection Heq as <- <-.
    eapply Step_app; [|eapply IHrest; eassumption].
    eapply Step_then; [eapply Step_after; [exact Hf|eauto]|apply Step_temporaries].
  + rewrite transform_rule in Heq by assumption.
  pose proof (Step_fresh st) as Hf.
  destruct (fresh st) as [copy st0]. cbn [snd] in Hf.
  destruct (transformAll ns copy ctx (S depth) st0) as [[children st1]|] eqn:H1;
    [|discriminate].
  cbn [mbind result_bind] in Heq.
  pose proof (transformAll_steps _ IH _ _ _ _ _ _ H1) as Hc.
  destruct children; injection Heq as <- <-.
  * eapply Step_after; eauto.
  * eapply Step_rule; [assumption|]. eapply Step_after; eauto.
  - (* AtRule *)
  destruct (Js.seq name "@property" && Nat.eqb depth 0) eqn:Hp.
  + apply andb_true_iff in Hp as [Hn Hd]. apply Nat.eqb_eq in Hd. subst depth.
  destruct (decide (params ∈ seenAtProperties st)) as [Hseen|Hseen].
  * rewrite transform_atproperty_seen in Heq by assumption.
    injection Heq as <- <-. apply Step_nil.
  * rewrite transform_atproperty_first in Heq by assumption.
    pose proof (Step_note st params ns Hseen) as Hnote.
    pose proof (Step_fresh (noteAtProperty E polyfills params ns st)) as Hf.
    destruct (fresh (noteAtProperty E polyfills params ns st)) as [copy st0].
    cbn [snd] in Hf.
    destruct (transformAll ns copy ctx 1 st0) as [[children st1]|] eqn:H1;
      [|discriminate].
    cbn [mbind result_bind] in Heq. injection Heq as <- <-.
    apply Step_atrule.
    eapply Step_after; [exact Hnote|]. eapply Step_after; [exact Hf|].
    eapply transformAll_steps; eauto.
  + rewrite transform_atrule in Heq by assumption. cbn zeta in Heq.
  pose proof (Step_fresh st) as Hf.
  destruct (fresh st) as [copy st0]. cbn [snd] in Hf.
  destruct (transformAll ns copy (atRuleContext name ctx) (S depth) st0)
    as [[children st1]|] eqn:H1; [|discriminate].
  cbn [mbind result_bind] in Heq.
  pose proof (transformAll_steps _ IH _ _ _ _ _ _ H1) as Hc.
  assert (Hk : Step st children
                 (if Js.seq name "@keyframes"
                     && truthy (atRuleContext name ctx !! "theme")
                  then setKeyframes
                         (keyframes st1 ++ [AtRule name params copy children offs]) st1
                  else st1)).
  { destruct (Js.seq name "@keyframes" && _).
    - eapply Step_then; [eapply Step_after; eauto|apply Step_keyframes].
    - eapply Step_after; eauto. }
  destruct children.
  * destruct (keepsEmpty name); injection Heq as <- <-.
    -- apply Step_atrule. exact Hk.
    -- exact Hk.
  * injection Heq as <- <-. apply Step_atrule. exact Hk.
  - (* Declaration *)
  cbn [Optimizer.transform] in Heq.
  destruct value as [v|]; [|injection Heq as <- <-; apply Step_nil].
  destruct (Js.seq property "--tw-sort") eqn:Hsort;
  [injection Heq as <- <-; apply Step_nil|].
  destruct (truthy (ctx !! "theme") && isCustomProperty property && Js.seq v "initial");
  [injection Heq as <- <-; apply Step_cleared|].
  match type of Heq with
  | context [setCssThemeVariables ?m st] =>
    pose proof (Step_register st m) as Hreg
  end.
  match type of Heq with
  | (if ?b then _ else _) = _ =>
    idtac
  | _ => idtac
  end.
  set (st1 := if truthy (ctx !! "theme") && isCustomProperty property
               && negb (truthy (ctx !! "keyframes"))
            then _ else st) in Heq.
  assert (H1 : Step st [] st1).
  { unfold st1. destruct (_ && negb _); [apply Hreg|apply Step_nil]. }
  clearbody st1. clear Hreg.
  set (st2 := if Js.includes "var(" v then _ else st1) in Heq.
  assert (H2 : Step st [] st2).
  { unfold st2. destruct (Js.includes "var(" v); [|exact H1].
  destruct (truthy (ctx !! "theme") && isCustomProperty property).
  - eapply Step_then; [exact H1|apply Step_dependencies].
  - eapply Step_then; [exact H1|apply Step_theme]. }
  clearbody st2. clear H1 st1.
  set (st3 := if Js.seq property "animation" then _ else st2) in Heq.
  assert (H3 : Step st [] st3).
  { unfold st3. destruct (Js.seq property "animation"); [|exact H2].
  eapply Step_then; [exact H2|apply Step_used]. }
  clearbody st3. clear H2 st2.
  destruct (enabled polyfills (Polyfills_ColorMix E) && Js.includes "color-mix(" v).
  + destruct (ValueParser.walk _ _ _ _ _) as [[ast requires]|]; [|discriminate].
  cbn [mbind result_bind] in Heq. destruct requires.
  * pose proof (Step_fresh st3) as Hf1.
    destruct (fresh st3) as [hf st4]. cbn [snd] in Hf1.
    pose proof (Step_fresh st4) as Hf2.
    destruct (fresh st4) as [hq st5]. cbn [snd] in Hf2.
    injection Heq as <- <-.
    eapply Step_after; [exact H3|]. eapply Step_after; [exact Hf1|].
    eapply Step_after; [exact Hf2|]. apply Step_polyfill. assumption.
  * injection Heq as <- <-.
    eapply Step_after; [exact H3|]. apply Step_decl. assumption.
  + injection Heq as <- <-.
  eapply Step_after; [exact H3|]. apply Step_decl. assumption.
  - (* Comment *)
  rewrite transform_comment in Heq. injection Heq as <- <-. apply Step_comment.
  - (* Context *)
  rewrite transform_context in Heq.
  destruct (truthy (c !! "reference")).
  + injection Heq as <- <-. apply Step_nil.
  + eapply transformAll_steps; eauto.
  - (* AtRoot *)
  revert st pushed st' Heq.
  induction IH as [|child rest Hchild _ IHrest]; intros st pushed st' Heq.
  + rewrite transform_atroot_nil in Heq. injection Heq as <- <-. apply Step_nil.
  + rewrite transform_atroot_cons in Heq.
  pose proof (Step_fresh st) as Hf.
  destruct (fresh st) as [newParent st0]. cbn [snd] in Hf.
  destruct (transform child newParent ctx 0 st0) as [[o1 st1]|] eqn:H1;
    [|discriminate].
  cbn [mbind result_bind] in Heq.
  eapply Step_after; [|eapply IHrest; exact Heq].
  eapply Step_after; [exact Hf|].
  pose proof (Hchild _ _ _ _ _ _ H1) as Hc.
  pose proof (Step_then _ _ _ _ Hc
                (Step_temporaries st1 (<[newParent := refOf <$> o1]> (temporaries st1))))
    as Hc'.
  apply Step_hoist in Hc'. exact Hc'.
Qed.

Lemma transformAll_steps_all nodes parent ctx depth st pushed st' :
  transformAll nodes parent ctx depth st = Ok (pushed, st') ->
  Step st pushed st'.
Proof.
  apply transformAll_steps. apply Forall_forall. intros node _. apply transform_steps.
Qed.
End Steps.

(** *** What [transform] pushes, node by node *)
Section AllNodes.
Import Shape.
Variable p : AstNode -> bool.
Hypothesis p_decl : forall h property v important offs,
  Js.seq property "--tw-sort" = false ->
  p (Declaration h property (Some v) important offs) = true.
Hypothesis p_rule : forall selector h ns offs,
  Js.seq selector "&" = false -> p (Rule selector h ns offs) = true.
Hypothesis p_atrule : forall name params h ns offs,
  p (AtRule name params h ns offs) = true.
Hypothesis p_comment : forall value offs, p (Comment value offs) = true.

Lemma goodList_all ns : goodList p ns -> forallb (allNodes p) ns = true.
Proof.
  intros Hl. apply forallb_forall. intros x Hx.
  apply (proj1 (Forall_forall _ _) Hl). apply list_elem_of_In. exact Hx.
Qed.

Lemma transform_allNodes node parent ctx depth (st : State T) pushed st' :
  transform node parent ctx depth st = Ok (pushed, st') ->
  goodList p (atRoots st) -> goodList p pushed /\ goodList p (atRoots st').
Proof.
  intros Heq.
  refine (transform_steps
        (fun st pushed st' =>
           goodList p (atRoots st) -> goodList p pushed /\ goodList p (atRoots st'))
        _ _ _ _ _ _ _ _ _ _ _ _ _ _ _ _ _ node parent ctx depth st pushed st' Heq);
  clear Heq; unfold goodList in *.
  all: try (intros; split; [constructor|assumption]; fail).
  - intros st0 o1 st1 o2 st2 H1 H2 H0. destruct (H1 H0) as [Ho1 Hr1].
  destruct (H2 Hr1) as [Ho2 Hr2]. split; [apply Forall_app; auto|assumption].
  - intros st0 params nodes _ H0. split; [constructor|].
  unfold noteAtProperty. destruct (enabled _ _); [|exact H0].
  destruct (readAtProperty nodes None false) as [iv inh]. destruct inh; exact H0.
  - intros st0 h property v important offs Hs H0. split; [|assumption].
  repeat constructor. cbn. rewrite p_decl by assumption. reflexivity.
  - intros st0 h hf hq property v v' important offs Hs H0. split; [|assumption].
  unfold rule, colorMixQuerySelector. cbn [Ascii.eqb Bool.eqb].
  destruct (parseAtRule E _) as [name params].
  repeat constructor; cbn; rewrite ?p_decl, ?p_atrule by assumption; reflexivity.
  - intros st0 value offs H0. split; [|assumption].
  repeat constructor. cbn. rewrite p_comment. reflexivity.
  - intros st0 children st1 selector copy offs Hs H1 H0. destruct (H1 H0) as [Hc Hr].
  split; [|assumption]. repeat constructor. cbn.
  rewrite p_rule by assumption. apply goodList_all. exact Hc.
  - intros st0 children st1 name params copy offs H1 H0. destruct (H1 H0) as [Hc Hr].
  split; [|assumption]. repeat constructor. cbn.
  rewrite p_atrule. apply goodList_all. exact Hc.
  - intros st0 pushed0 st1 H1 H0. destruct (H1 H0) as [Hc Hr].
  split; [constructor|]. cbn. apply Forall_app; auto.
Qed.

Lemma transformAll_allNodes nodes parent ctx depth (st : State T) pushed st' :
  transformAll nodes parent ctx depth st = Ok (pushed, st') ->
  goodList p (atRoots st) -> goodList p pushed /\ goodList p (atRoots st').
Proof.
  revert st pushed st'.
  induction nodes as [|node rest IH]; intros st pushed st' Heq H0.
  - injection Heq as <- <-. split; [constructor|assumption].
  - rewrite transformAll_cons in Heq.
  destruct (transform node parent ctx depth st) as [[o1 st1]|] eqn:H1; [|discriminate].
  cbn [mbind result_bind] in Heq.
  destruct (transformAll rest parent ctx depth st1) as [[o2 st2]|] eqn:H2;
  [|discriminate].
  injection Heq as <- <-.
  destruct (transform_allNodes _ _ _ _ _ _ _ H1 H0) as [Ho1 Hr1].
  destruct (IH _ _ _ H2 Hr1) as [Ho2 Hr2].
  split; [apply Forall_app; auto|assumption].
Qed.
End AllNodes.

(** The fallback declarations of the [@property] polyfill all carry a
    value. *)
Lemma transformAll_fallbacks nodes parent ctx depth (st : State T) pushed st' :
  transformAll nodes parent ctx depth st = Ok (pushed, st') ->
  Forall (fun n => Shape.isValuedDecl n = true) (propertyFallbacksRoot st)
  /\ Forall (fun n => Shape.isValuedDecl n = true) (propertyFallbacksUniversal st) ->
  Forall (fun n => Shape.isValuedDecl n = true) (propertyFallbacksRoot st')
  /\ Forall (fun n => Shape.isValuedDecl n = true) (propertyFallbacksUniversal st').
Proof.
  intros Heq.
  refine (transformAll_steps_all
          (fun st pushed st' =>
             Forall (fun n => Shape.isValuedDecl n = true) (propertyFallbacksRoot st)
             /\ Forall (fun n => Shape.isValuedDecl n = true) (propertyFallbacksUniversal st) ->
             Forall (fun n => Shape.isValuedDecl n = true) (propertyFallbacksRoot st')
             /\ Forall (fun n => Shape.isValuedDecl n = true) (propertyFallbacksUniversal st'))
          _ _ _ _ _ _ _ _ _ _ _ _ _ _ _ _ _ nodes parent ctx depth st pushed st' Heq);
  clear Heq; try (intros; assumption); try (intros; cbn; auto; fail).
  intros st0 params ns _ [Hr Hu]. unfold noteAtProperty.
  destruct (enabled _ _); [|split; assumption].
  destruct (readAtProperty ns None false) as [iv inh].
  destruct inh; cbn; split; try assumption;
    apply Forall_app; split; try assumption; repeat constructor.
Qed.

(** The set of the [@property] names seen only grows. *)
Lemma transform_seen node parent ctx depth (st : State T) pushed st' :
  transform node parent ctx depth st = Ok (pushed, st') ->
  seenAtProperties st ⊆ seenAtProperties st'.
Proof.
  intros Heq.
  refine (transform_steps
          (fun st pushed st' => seenAtProperties st ⊆ seenAtProperties st')
          _ _ _ _ _ _ _ _ _ _ _ _ _ _ _ _ _ node parent ctx depth st pushed st' Heq);
  clear Heq; try (intros; cbn; set_solver).
  intros st0 params ns _. unfold noteAtProperty.
  destruct (enabled _ _); [|cbn; set_solver].
  destruct (readAtProperty ns None false) as [iv inh]. destruct inh; cbn; set_solver.
Qed.

Lemma transformAll_seen nodes parent ctx depth (st : State T) pushed st' :
  transformAll nodes parent ctx depth st = Ok (pushed, st') ->
  seenAtProperties st ⊆ seenAtProperties st'.
Proof.
  intros Heq.
  refine (transformAll_steps_all
          (fun st pushed st' => seenAtProperties st ⊆ seenAtProperties st')
          _ _ _ _ _ _ _ _ _ _ _ _ _ _ _ _ _ nodes parent ctx depth st pushed st' Heq);
  clear Heq; try (intros; cbn; set_solver).
  intros st0 params ns _. unfold noteAtProperty.
  destruct (enabled _ _); [|cbn; set_solver].
  destruct (readAtProperty ns None false) as [iv inh]. destruct inh; cbn; set_solver.
Qed.

End Eq.
End TransformEq.

(** ** The cleanup passes only remove nodes and add the fallback layer *)

Module CleanupProps.
Import Optimizer Shape.

(** The stages of [optimizeAst]. *)
Lemma optimize_stages {T : Type} `{DesignSystem T} (E : Externals)
    fuel ast (theme : T) polyfills out st :
  optimize E fuel ast theme polyfills = Ok (out, st) ->
  exists newAst1 st1 used m,
    transformAll E polyfills fuel ast (S (maxHandle ast)) ∅ 0
      (setNextHandle (S (S (maxHandle ast))) (initialState ast theme))
    = Ok (newAst1, st1)
    /\ removeUnusedThemeVariables E fuel (Optimizer.theme st1) (variableDependencies st1)
         (cssThemeVariables st1) (usedKeyframeNames st1)
         (mkArrays (S (maxHandle ast)) newAst1 (atRoots st1) (temporaries st1))
       = Ok (used, m)
    /\ st = setUsedKeyframeNames used
              (setAtRoots (removeUnusedKeyframes (keyframes st1) used (hoisted m)) st1)
    /\ out = addFallbacks E polyfills st
               (newAst m ++ removeUnusedKeyframes (keyframes st1) used (hoisted m)).
Proof.
  unfold optimize. cbn [fresh initialState nextHandle fst snd]. cbn beta iota zeta.
  intros Heq.
  destruct (transformAll _ _ _ _ _ _ _ _) as [[newAst1 st1]|] eqn:Htr; [|discriminate].
  cbn [mbind result_bind] in Heq.
  destruct (removeUnusedThemeVariables _ _ _ _ _ _ _) as [[used m]|] eqn:Hrm;
    [|discriminate].
  cbn [mbind result_bind] in Heq. injection Heq as <- <-.
  exists newAst1, st1, used, m. repeat split; assumption.
Qed.

Section Preserved.
Variable p : AstNode -> bool.
Hypothesis p_shell : forall n ns, p (setNodes ns n) = p n.

Lemma forallb_goodList ns : forallb (allNodes p) ns = true -> goodList p ns.
Proof.
  intros Hb. apply Forall_forall. intros x Hx.
  apply (proj1 (forallb_forall _ _) Hb). apply list_elem_of_In. exact Hx.
Qed.

Lemma goodList_forallb ns : goodList p ns -> forallb (allNodes p) ns = true.
Proof.
  intros Hl. apply forallb_forall. intros x Hx.
  apply (proj1 (Forall_forall _ _) Hl). apply list_elem_of_In. exact Hx.
Qed.

Lemma goodList_take n l : goodList p l -> goodList p (take n l).
Proof. apply Forall_take. Qed.

Lemma goodList_drop n l : goodList p l -> goodList p (drop n l).
Proof. apply Forall_drop. Qed.

Lemma goodList_removeAt idx l : goodList p l -> goodList p (removeAt idx l).
Proof.
  intros Hl. destruct idx as [i|]; cbn.
  - unfold Js.splice. cbn. apply Forall_app. split.
  + apply goodList_take, Hl.
  + apply goodList_drop, Hl.
  - unfold Js.spliceLast. apply goodList_take, Hl.
Qed.

Lemma goodList_splice i n items l :
  goodList p items -> goodList p l -> goodList p (Js.splice i n items l).
Proof.
  intros Hi Hl. unfold Js.splice. apply Forall_app. split; [apply goodList_take, Hl|].
  apply Forall_app. split; [exact Hi|apply goodList_drop, Hl].
Qed.

Section Update.
Variable h : handle.
Variable f : list AstNode -> list AstNode.
Hypothesis f_good : forall l, goodList p l -> goodList p (f l).

Lemma updateNode_allNodes n :
  allNodes p n = true -> allNodes p (updateNode h f n) = true.
Proof.
  induction n as [s r ns o IH | nm pa r ns o IH | r pr v i o | v o
             | c r ns o IH | r ns o IH] using AstNode_rect_nested;
  intros Hn; try exact Hn.
  all: cbn [updateNode]; cbn [allNodes] in Hn;
  apply andb_true_iff in Hn as [Hp Hc]; apply forallb_goodList in Hc;
  destruct (Nat.eqb r h); cbn [setNodes allNodes];
  apply andb_true_iff; split;
  try (match goal with
     | |- p ?n' = true =>
         match type of Hp with
         | p ?n0 = true =>
             change n' with (setNodes (match nodesOf n' with Some l => l | None => [] end) n0);
             rewrite p_shell; exact Hp
         end
     end);
  apply goodList_forallb.
  all: try (apply f_good; exact Hc).
  all: apply Forall_forall; intros x Hx; apply list_elem_of_fmap in Hx as [y [-> Hy]];
  apply (proj1 (Forall_forall _ _) IH y Hy);
  apply (proj1 (Forall_forall _ _) Hc y Hy).
Qed.

Lemma updateIn_goodList l : goodList p l -> goodList p (updateIn h f l).
Proof.
  intros Hl. apply Forall_forall. intros x Hx.
  apply list_elem_of_fmap in Hx as [y [-> Hy]].
  apply updateNode_allNodes. apply (proj1 (Forall_forall _ _) Hl y Hy).
Qed.
End Update.

Abbreviation goodArrays := (Shape.goodArrays p).

Lemma spliceArray_good h idx m : goodArrays m -> goodArrays (spliceArray h idx m).
Proof.
  intros [Hn Hh]. unfold spliceArray. destruct (Nat.eqb h (newAstRef m)); split; cbn.
  - apply goodList_removeAt, Hn.
  - exact Hh.
  - apply updateIn_goodList; [apply goodList_removeAt|exact Hn].
  - apply updateIn_goodList; [apply goodList_removeAt|exact Hh].
Qed.

Lemma removeAncestors_good rpath m : goodArrays m -> goodArrays (removeAncestors rpath m).
Proof.
  revert m. induction rpath as [|nodeToRemove rest IH]; intros m Hm; [exact Hm|].
  cbn [removeAncestors]. destruct rest as [|removeFrom rest']; [exact Hm|].
  destruct removeFrom; try exact Hm.
  all: destruct (refOf nodeToRemove); try exact Hm.
  all: destruct (getArray _ m); try exact Hm.
  all: destruct (indexOf _ _); try exact Hm.
  all: apply IH, spliceArray_good, Hm.
Qed.

Section Passes.
Context {T : Type} `{DesignSystem T}.
Variable E : Externals.
Variable fuel : nat.
Variable theme : T.
Variable dependencies : gmap string (list string).

Lemma removeUnused_good parent declarations used m used' m' :
  removeUnused E fuel theme dependencies parent declarations used m = Ok (used', m') ->
  goodArrays m -> goodArrays m'.
Proof.
  revert used m. induction declarations as [|d rest IH]; intros used m Heq Hm.
  - injection Heq as <- <-. exact Hm.
  - cbn [removeUnused] in Heq.
  destruct d; try (eapply IH; eassumption).
  destruct (ofFuel _) as [[variableUsed seen]|]; [|discriminate].
  cbn [mbind result_bind] in Heq.
  destruct variableUsed; [eapply IH; eassumption|].
  destruct (getArray parent m) as [ids|]; [|eapply IH; eassumption].
  destruct (removeAt _ ids).
  + destruct (findNode _ _ _) as [path|]; [|discriminate].
  cbn [mbind result_bind] in Heq.
  destruct path; injection Heq as <- <-.
  * apply spliceArray_good, Hm.
  * apply removeAncestors_good, spliceArray_good, Hm.
  + eapply IH; [eassumption|]. apply spliceArray_good, Hm.
Qed.

Lemma removeUnusedThemeVariables_good vars used m used' m' :
  removeUnusedThemeVariables E fuel theme dependencies vars used m = Ok (used', m') ->
  goodArrays m -> goodArrays m'.
Proof.
  revert used m. induction vars as [|[parent declarations] rest IH]; intros used m Heq Hm.
  - injection Heq as <- <-. exact Hm.
  - cbn [removeUnusedThemeVariables] in Heq.
  destruct (removeUnused _ _ _ _ _ _ _ _) as [[used1 m1]|] eqn:H1; [|discriminate].
  cbn [mbind result_bind] in Heq.
  eapply IH; [eassumption|]. eapply removeUnused_good; eassumption.
Qed.
End Passes.

Lemma removeUnusedKeyframes_good keyframes used atRoots :
  goodList p atRoots -> goodList p (removeUnusedKeyframes keyframes used atRoots).
Proof.
  revert atRoots. induction keyframes as [|k rest IH]; intros atRoots Ha; [exact Ha|].
  cbn [removeUnusedKeyframes]. destruct k; try (apply IH, Ha).
  destruct (bool_decide _); [apply IH, Ha|]. apply IH, goodList_removeAt, Ha.
Qed.

Hypothesis p_rule : forall selector h ns offs,
  Js.seq selector "&" = false -> p (Rule selector h ns offs) = true.
Hypothesis p_atrule : forall name params h ns offs,
  p (AtRule name params h ns offs) = true.
Hypothesis p_comment : forall value offs, p (Comment value offs) = true.

(** The tree before the fallback layer is added. *)
Lemma optimize_main_good {T : Type} `{DesignSystem T} (E : Externals)
  fuel ast (theme : T) polyfills out st :
  (forall h property v important offs,
    Js.seq property "--tw-sort" = false ->
    p (Declaration h property (Some v) important offs) = true) ->
  optimize E fuel ast theme polyfills = Ok (out, st) ->
  exists main, out = addFallbacks E polyfills st main /\ goodList p main.
Proof.
  intros p_decl Heq.
  apply optimize_stages in Heq as (newAst1 & st1 & used & m & Htr & Hrm & -> & ->).
  eexists. split; [reflexivity|].
  pose proof (TransformEq.transformAll_allNodes E polyfills fuel p
              p_decl p_rule p_atrule p_comment _ _ _ _ _ _ _ Htr) as Hgood.
  destruct Hgood as [Hnew Hroots]; [constructor|].
  pose proof (removeUnusedThemeVariables_good _ _ _ _ _ _ _ _ _ Hrm
              (conj Hnew Hroots)) as [Hnew' Hroots'].
  apply Forall_app. split; [exact Hnew'|].
  apply removeUnusedKeyframes_good. exact Hroots'.
Qed.

Hypothesis p_decl : forall h property v important offs,
  p (Declaration h property (Some v) important offs) = true.

Lemma valuedDecls_good l :
  Forall (fun n => isValuedDecl n = true) l -> goodList p l.
Proof.
  intros Hl. eapply Forall_impl; [exact Hl|].
  intros n Hn. destruct n as [| |h pr [v|] i o| | |]; try discriminate.
  cbn. rewrite p_decl. reflexivity.
Qed.

Section Whole.
Context {T : Type} `{DesignSystem T}.
Variable E : Externals.

Lemma rule_good h selector nodes :
  Js.seq selector "&" = false -> goodList p nodes ->
  allNodes p (rule E h selector nodes) = true.
Proof.
  intros Hs Hn. unfold rule. destruct selector as [|c sel'].
  - cbn. rewrite p_rule by assumption. apply goodList_forallb, Hn.
  - destruct (Ascii.eqb c "@").
  + destruct (parseAtRule E _) as [name params]. cbn. rewrite p_atrule.
  apply goodList_forallb, Hn.
  + cbn. rewrite p_rule by assumption. apply goodList_forallb, Hn.
Qed.

Lemma addFallbacks_good polyfills (st : State T) newAst :
  Forall (fun n => isValuedDecl n = true) (propertyFallbacksRoot st) ->
  Forall (fun n => isValuedDecl n = true) (propertyFallbacksUniversal st) ->
  goodList p newAst -> goodList p (addFallbacks E polyfills st newAst).
Proof.
  intros Hr Hu Hn. unfold addFallbacks. destruct (enabled _ _); [|exact Hn].
  cbn [fresh fst snd propertyFallbacksRoot propertyFallbacksUniversal
   setNextHandle nextHandle].
  apply valuedDecls_good in Hr. apply valuedDecls_good in Hu.
  match goal with
  | |- goodList p (match ?fb with [] => _ | _ :: _ => _ end) =>
  assert (Hfb : goodList p fb); [|destruct fb; [exact Hn|]]
  end.
  { apply Forall_app. split.
  - destruct (propertyFallbacksRoot st) eqn:Hroot; [constructor|].
  repeat constructor. apply rule_good; [reflexivity|]. exact Hr.
  - destruct (propertyFallbacksUniversal st) eqn:Huni; [constructor|].
  repeat constructor. apply rule_good; [reflexivity|]. exact Hu. }
  apply Forall_app. split.
  - apply goodList_splice; [|exact Hn]. repeat constructor. cbn.
  rewrite p_atrule. reflexivity.
  - repeat constructor. apply rule_good; [reflexivity|].
  repeat constructor. cbn [atRule allNodes]. rewrite p_atrule.
  cbn [andb]. apply goodList_forallb. exact Hfb.
Qed.

Lemma optimize_good fuel ast theme polyfills out (st : State T) :
  optimize E fuel ast theme polyfills = Ok (out, st) -> goodList p out.
Proof.
  intros Heq.
  destruct (optimize_main_good E _ _ _ _ _ _
          (fun h pr v i o _ => p_decl h pr v i o) Heq) as (main & -> & Hmain).
  apply optimize_stages in Heq as (newAst1 & st1 & used & m & Htr & Hrm & -> & _).
  pose proof (TransformEq.transformAll_fallbacks E polyfills fuel
            _ _ _ _ _ _ _ Htr) as Hfb.
  destruct Hfb as [Hr Hu]; [split; constructor|].
  apply addFallbacks_good; cbn; assumption.
Qed.
End Whole.
End Preserved.

End CleanupProps.

(** ** Flattening of [&] rules *)

Module AmpFlattening.
Import Optimizer Shape.

Lemma p_notAmp_shell n ns : notAmpRule (setNodes ns n) = notAmpRule n.
Proof. destruct n; reflexivity. Qed.

Lemma optimizeAst_optimize {T : Type} `{DesignSystem T} (E : Externals)
    fuel ast (theme : T) polyfills out :
  optimizeAst E fuel ast theme polyfills = Ok out ->
  exists st, optimize E fuel ast theme polyfills = Ok (out, st).
Proof.
  unfold optimizeAst. destruct (optimize E fuel ast theme polyfills) as [[o st]|];
    [|discriminate].
  cbn. intros [= <-]. eauto.
Qed.

Lemma optimize_decl_in_amp {T : Type} `{DesignSystem T} (E : Externals)
    fuel (theme : T) polyfills h1 h2 :
  optimizeAst E fuel
    [Rule "&" h1 [Declaration h2 "color" (Some "red") false noDeclOffsets] noRuleOffsets]
    theme polyfills
  = Ok [Declaration h2 "color" (Some "red") false noDeclOffsets].
Proof.
  unfold optimizeAst, optimize.
  cbn [fresh initialState nextHandle fst snd setNextHandle].
  cbn [transformAll transform Js.seq String.eqb Ascii.eqb Bool.eqb fresh nextHandle
       setNextHandle].
  rewrite lookup_empty. cbn [truthy andb Js.includes Js.startsWith Ascii.eqb Bool.eqb].
  rewrite andb_false_r.
  cbn [mbind result_bind app cssThemeVariables setTemporaries variableDependencies
       usedKeyframeNames removeUnusedThemeVariables keyframes removeUnusedKeyframes
       hoisted atRoots newAst setUsedKeyframeNames setAtRoots].
  unfold addFallbacks. destruct (enabled polyfills (Polyfills_AtProperty E)); reflexivity.
Qed.

(** C4. A style rule whose selector is exactly [&] is flattened: what
    [transform] pushes for it onto the destination array is what its
    children push, child after child in their order (each child into a
    temporary array of its own, emptied onto the destination); no tree
    [optimizeAst] returns contains a rule whose selector is [&], at any
    depth; and [[Rule("&", [Decl("color","red")])]] optimizes to
    [[Decl("color","red")]], which [toCss] prints as [color: red;] and a
    line feed. *)
Theorem amp_rule_is_flattened {T : Type} `{DesignSystem T} (E : Externals) :
  (forall polyfills fuel h offs parent ctx depth (st : State T),
      transform E polyfills fuel (Rule "&" h [] offs) parent ctx depth st = Ok ([], st))
  /\ (forall polyfills fuel h child rest offs parent ctx depth (st : State T),
        transform E polyfills fuel (Rule "&" h (child :: rest) offs) parent ctx depth st =
        (let '(nodes, st) := fresh st in
         '(pushed, st) ← transform E polyfills fuel child nodes ctx (S depth) st;
         let st := setTemporaries (<[nodes := refOf <$> pushed]> (temporaries st)) st in
         '(pushed', st) ←
           transform E polyfills fuel (Rule "&" h rest offs) parent ctx depth st;
         Ok (pushed ++ pushed', st)))
  /\ (forall fuel ast (theme : T) polyfills out,
        optimizeAst E fuel ast theme polyfills = Ok out ->
        goodList notAmpRule out)
  /\ (forall fuel (theme : T) polyfills h1 h2 track,
        optimizeAst E fuel
          [Rule "&" h1 [Declaration h2 "color" (Some "red") false noDeclOffsets]
             noRuleOffsets] theme polyfills
        = Ok [Declaration h2 "color" (Some "red") false noDeclOffsets]
        /\ Serializer.toCss [Declaration h2 "color" (Some "red") false noDeclOffsets] track
           = Ok ("color: red;" +:+ Js.LF,
                 [Declaration h2 "color" (Some "red") false noDeclOffsets])).
Proof.
  split; [|split; [|split]].
  - intros. apply TransformEq.transform_amp_nil.
  - intros. apply TransformEq.transform_amp_cons.
  - intros fuel ast theme polyfills out Heq.
    apply optimizeAst_optimize in Heq as [st Heq].
    eapply (CleanupProps.optimize_good notAmpRule p_notAmp_shell); [..|exact Heq];
      try reflexivity.
    intros selector h ns offs Hs. unfold notAmpRule. cbn. rewrite Hs. reflexivity.
  - intros fuel theme polyfills h1 h2 track. split.
    + apply optimize_decl_in_amp.
    + destruct track; reflexivity.
Qed.

Lemma amp_rule_is_flattened_witness :
  goodList notAmpRule
    [Rule ".a" 6
       [Declaration 2 "color" (Some "red") false noDeclOffsets;
        Declaration 3 "top" (Some "0") false noDeclOffsets] noRuleOffsets].
Proof.
  apply (proj1 (proj2 (proj2 (@amp_rule_is_flattened _ Examples.blankTheme
                                Examples.externals))) 10
           [Rule ".a" 0
              [Rule "&" 1 [Declaration 2 "color" (Some "red") false noDeclOffsets;
                           Rule "&" 4 [Declaration 3 "top" (Some "0") false noDeclOffsets]
                             noRuleOffsets] noRuleOffsets] noRuleOffsets]
           [] 0%Z).
  vm_compute. reflexivity.
Defined.

End AmpFlattening.

(** ** Declarations that are never emitted *)

Module DroppedDeclarations.
Import Optimizer Shape Examples.

Lemma hasValue_shell n ns : hasValue (setNodes ns n) = hasValue n.
Proof. destruct n; reflexivity. Qed.

Lemma emittable_shell n ns : emittable (setNodes ns n) = emittable n.
Proof. destruct n; reflexivity. Qed.



End DroppedDeclarations.

(** ** [@property] rules at the top level *)

Module AtProperty.
Import Optimizer Shape Examples.

Lemma noteAtProperty_seen {T : Type} (E : Externals) polyfills params nodes (st : State T) :
  params ∈ seenAtProperties (noteAtProperty E polyfills params nodes st).
Proof.
  unfold noteAtProperty. destruct (enabled _ _); [|cbn; set_solver].
  destruct (readAtProperty nodes None false) as [iv inh]. destruct inh; cbn; set_solver.
Qed.





End AtProperty.

(** ** At-root nodes *)

Module AtRootHoisting.
Import Optimizer Shape Examples.

Lemma atroot_pushes_nothing {T : Type} `{DesignSystem T} (E : Externals)
    polyfills fuel h nodes offs parent ctx depth (st : State T) pushed st' :
  transform E polyfills fuel (AtRoot h nodes offs) parent ctx depth st = Ok (pushed, st') ->
  pushed = [].
Proof.
  revert st. induction nodes as [|child rest IH]; intros st Heq.
  - rewrite TransformEq.transform_atroot_nil in Heq. injection Heq as <- <-. reflexivity.
  - rewrite TransformEq.transform_atroot_cons in Heq.
    destruct (fresh st) as [newParent st0].
    destruct (transform E polyfills fuel child newParent ctx 0 st0) as [[o1 st1]|];
      [|discriminate].
    cbn [mbind result_bind] in Heq. eapply IH. exact Heq.
Qed.

(** C5, as the code has it.  For an at-root node, each child is
    transformed into a fresh temporary array with the depth reset to 0
    and the ambient context passed on unchanged; what the child pushes
    is appended to the hoisted list, child after child, and nothing is
    pushed onto the destination array.  [optimizeAst] returns the main
    tree followed by the hoisted list, with the fallback layer of the
    [@property] polyfill, when there is one, put around them; with the
    at-property polyfill disabled the hoisted list ends the tree. *)
Theorem atroot_children_are_hoisted {T : Type} `{DesignSystem T} (E : Externals) :
  (forall polyfills fuel h offs parent ctx depth (st : State T),
      transform E polyfills fuel (AtRoot h [] offs) parent ctx depth st = Ok ([], st))
  /\ (forall polyfills fuel h child rest offs parent ctx depth (st : State T),
        transform E polyfills fuel (AtRoot h (child :: rest) offs) parent ctx depth st =
        (let '(newParent, st) := fresh st in
         '(pushed, st) ← transform E polyfills fuel child newParent ctx 0 st;
         let st := setTemporaries (<[newParent := refOf <$> pushed]> (temporaries st)) st in
         let st := setAtRoots (atRoots st ++ pushed) st in
         transform E polyfills fuel (AtRoot h rest offs) parent ctx depth st))
  /\ (forall polyfills fuel h nodes offs parent ctx depth (st : State T) pushed st',
        transform E polyfills fuel (AtRoot h nodes offs) parent ctx depth st
        = Ok (pushed, st') -> pushed = [])
  /\ (forall fuel ast (theme : T) polyfills out st,
        optimize E fuel ast theme polyfills = Ok (out, st) ->
        exists main,
          out = addFallbacks E polyfills st (main ++ atRoots st)
          /\ (enabled polyfills (Polyfills_AtProperty E) = false ->
              out = main ++ atRoots st)).
Proof.
  repeat apply conj.
  - intros. apply TransformEq.transform_atroot_nil.
  - intros. apply TransformEq.transform_atroot_cons.
  - intros. eapply atroot_pushes_nothing. eassumption.
  - intros fuel ast theme polyfills out st Heq.
    apply CleanupProps.optimize_stages in Heq
      as (newAst1 & st1 & used & m & Htr & Hrm & -> & ->).
    exists (newAst m). cbn [atRoots setUsedKeyframeNames setAtRoots]. split; [reflexivity|].
    intros Hoff. unfold addFallbacks. rewrite Hoff. reflexivity.
Qed.

Lemma atroot_children_are_hoisted_witness :
  optimize externals 5 [AtRoot 0 [Comment "x" noCommentOffsets] noBodyOffsets;
                        Comment "y" noCommentOffsets] [] 0
  = Ok ([Comment "y" noCommentOffsets; Comment "x" noCommentOffsets],
        setAtRoots [Comment "x" noCommentOffsets]
          (setTemporaries {[2 := [None]]} (setNextHandle 3 emptyState)))
  /\ exists main,
       [Comment "y" noCommentOffsets; Comment "x" noCommentOffsets]
       = main ++ [Comment "x" noCommentOffsets].
Proof.
  assert (Heq : optimize externals 5
                  [AtRoot 0 [Comment "x" noCommentOffsets] noBodyOffsets;
                   Comment "y" noCommentOffsets] [] 0
                = Ok ([Comment "y" noCommentOffsets; Comment "x" noCommentOffsets],
                      setAtRoots [Comment "x" noCommentOffsets]
                        (setTemporaries {[2 := [None]]} (setNextHandle 3 emptyState)))).
  { vm_compute. reflexivity. }
  split; [exact Heq|].
  destruct (proj2 (proj2 (proj2 (@atroot_children_are_hoisted _ blankTheme externals)))
              _ _ _ _ _ _ Heq) as (main & _ & Hmain).
  exists main. apply Hmain. reflexivity.
Defined.

(** C5 as stated fails: inside a theme-flagged context, an at-root
    child [--x: initial] is dropped, while transformed under the empty
    context it would be hoisted; and the fallback layer of the
    [@property] polyfill comes after the hoisted list. *)
Lemma atroot_resets_context_counterexample :
  ~ Stated.atRootResetsContext externals 0 5 /\ ~ Stated.hoistedAtVeryEnd externals.
Proof.
  split.
  - intros Hclaim.
    specialize (Hclaim 0 (Declaration 1 "--x" (Some "initial") false noDeclOffsets)
                  noBodyOffsets 9 {["theme" := CBool true]} 3 emptyState).
    vm_compute in Hclaim. discriminate Hclaim.
  - intros Hclaim.
    destruct (optimize externals 5
                [AtRoot 0 [Comment "x" noCommentOffsets] noBodyOffsets;
                 AtRule "@property" "--p" 1 [] noAtRuleOffsets] [] 1%Z)
      as [[out st]|] eqn:Hopt.
    + destruct (Hclaim _ _ _ _ _ _ Hopt) as [main Hmain].
      vm_compute in Hopt. injection Hopt as <- <-.
      cbn [atRoots] in Hmain.
      apply (f_equal (@last AstNode)) in Hmain.
      rewrite last_snoc in Hmain. cbn [last] in Hmain. discriminate Hmain.
    + vm_compute in Hopt. discriminate Hopt.
Qed.

End AtRootHoisting.

(** ** The walker [walk] *)

Module WalkProps.
Import Walker.

Lemma replaceWith_splice i newNode (ast : list AstNode) :
  i < length ast ->
  replaceWith i newNode ast = (Js.splice i 1 newNode ast, length newNode).
Proof.
  intros Hi. unfold replaceWith. destruct newNode as [|n [|n' rest]]; try reflexivity.
  f_equal. unfold Js.splice. rewrite insert_take_drop by assumption.
  rewrite Nat.add_1_r. reflexivity.
Qed.

Lemma splice_lookup (ast : list AstNode) i newNode k :
  i < length ast ->
  (k < length newNode -> Js.splice i 1 newNode ast !! (i + k) = newNode !! k)
  /\ Js.splice i 1 newNode ast !! (i + length newNode + k) = ast !! (S i + k).
Proof.
  intros Hi. unfold Js.splice.
  assert (Hlen : length (take i ast) = i) by (rewrite length_take; lia).
  split.
  - intros Hk. rewrite lookup_app_r by lia. rewrite Hlen.
    replace (i + k - i) with k by lia. apply lookup_app_l. exact Hk.
  - rewrite lookup_app_r by lia. rewrite Hlen.
    replace (i + length newNode + k - i) with (length newNode + k) by lia.
    rewrite lookup_app_r by lia.
    replace (length newNode + k - length newNode) with k by lia.
    rewrite lookup_drop. f_equal. lia.
Qed.

Section Steps.
Context {V : Type}.
Variable visit : AstNode -> Utils -> V -> V * option (list AstNode) * WalkAction.

Lemma walk_visit_step fuel ast i path ctx v node :
  ast !! i = Some node ->
  Stated.isContext node = false ->
  walk visit (S fuel) ast i path ctx v =
  (let '(v, replaced, status) := visit node (mkUtils (last path) ctx (path ++ [node])) v in
  match replaced with
  | Some newNode =>
     let '(ast, replacedNodeOffset) := replaceWith i newNode ast in
     match status with
     | Continue => walk visit fuel ast i path ctx v
     | _ => walk visit fuel ast (i + replacedNodeOffset) path ctx v
     end
  | None =>
     match status with
     | Stop => Some (ast, v, true)
     | Skip => walk visit fuel ast (S i) path ctx v
     | Continue =>
         match nodesOf node with
         | Some nodes =>
             '(nodes', v, stopped) ← walk visit fuel nodes 0 (path ++ [node]) ctx v;
             let ast := <[i := setNodes nodes' node]> ast in
             if stopped : bool then Some (ast, v, true)
             else walk visit fuel ast (S i) path ctx v
         | None => walk visit fuel ast (S i) path ctx v
         end
     end
  end).
Proof.
  intros Hi Hc. cbn [walk]. rewrite Hi.
  destruct node; try discriminate Hc; reflexivity.
Qed.

End Steps.




End WalkProps.

(** ** The walker [walkDepth] *)

Module WalkDepthProps.
Import Walker Traversal.

Section NoReplacement.
Context {V : Type}.
Variable visit : AstNode -> Utils -> V -> V * option (list AstNode).
Hypothesis visit_keeps : forall node utils v, (visit node utils v).2 = None.

Abbreviation after := (Traversal.after visit).

Lemma after_app calls1 calls2 v : after (calls1 ++ calls2) v = after calls2 (after calls1 v).
Proof. apply foldl_app. Qed.

Lemma walkDepth_loop_eq ast path ctx v :
  (fix loop (ast : list AstNode) (path : list AstNode)
     (ctx : gmap string CtxValue) (v : V) : list AstNode * V :=
   match ast with
   | [] => ([], v)
   | n :: rest =>
       let '(ns, v) := walkDepthNode visit n path ctx v in
       let '(rest', v) := loop rest path ctx v in
       (ns ++ rest', v)
   end) ast path ctx v = walkDepth visit ast path ctx v.
Proof.
  revert v. induction ast as [|n rest IH]; intros v; [reflexivity|].
  cbn [walkDepth]. destruct (walkDepthNode visit n path ctx v) as [ns v1].
  rewrite IH. reflexivity.
Qed.

Lemma callsOf_loop_eq ast path ctx :
  (fix callsOf (ast : list AstNode) (path : list AstNode)
     (ctx : gmap string CtxValue) : list (AstNode * Utils) :=
   match ast with
   | [] => []
   | n :: rest => callsOfNode n path ctx ++ callsOf rest path ctx
   end) ast path ctx = callsOf ast path ctx.
Proof.
  induction ast as [|n rest IH]; [reflexivity|]. cbn [callsOf]. rewrite IH. reflexivity.
Qed.

Lemma walkDepth_all ast :
  Forall (fun node => forall path ctx v,
          walkDepthNode visit node path ctx v
          = ([node], after (callsOfNode node path ctx) v)) ast ->
  forall path ctx v,
  walkDepth visit ast path ctx v = (ast, after (callsOf ast path ctx) v).
Proof.
  induction 1 as [|node rest Hnode _ IH]; intros path ctx v; [reflexivity|].
  cbn [walkDepth callsOf]. rewrite Hnode, IH, after_app. reflexivity.
Qed.

Lemma walkDepthNode_keeps node : forall path ctx v,
  walkDepthNode visit node path ctx v = ([node], after (callsOfNode node path ctx) v).
Proof.
  induction node as [s h ns o IH | nm pa h ns o IH | h pr va im o | va o
                  | c h ns o IH | h ns o IH] using AstNode_rect_nested;
  intros path ctx v; cbn [walkDepthNode callsOfNode].
  1, 2: rewrite walkDepth_loop_eq, callsOf_loop_eq, (walkDepth_all _ IH), after_app;
  unfold Traversal.after; cbn [setNodes foldl fst snd];
  match goal with
  | |- context [visit ?n ?u ?w] =>
      pose proof (visit_keeps n u w) as Hk; destruct (visit n u w) as [w' r];
      cbn in Hk; subst r; reflexivity
  end.
  1, 2, 4: unfold Traversal.after; cbn [foldl fst snd];
  match goal with
  | |- context [visit ?n ?u ?w] =>
      pose proof (visit_keeps n u w) as Hk; destruct (visit n u w) as [w' r];
      cbn in Hk; subst r; reflexivity
  end.
  rewrite walkDepth_loop_eq, callsOf_loop_eq, (walkDepth_all _ IH). reflexivity.
Qed.

Lemma walkDepth_keeps ast path ctx v :
  walkDepth visit ast path ctx v = (ast, after (callsOf ast path ctx) v).
Proof.
  apply walkDepth_all. apply Forall_forall. intros node _. apply walkDepthNode_keeps.
Qed.

End NoReplacement.

Lemma callsOf_all ast :
  Forall (fun node => forall path ctx,
            (callsOfNode node path ctx).*1 = postorderNode node) ast ->
  forall path ctx, (callsOf ast path ctx).*1 = flat_map postorderNode ast.
Proof.
  induction 1 as [|node rest Hnode _ IH]; intros path ctx; [reflexivity|].
  cbn [callsOf flat_map]. rewrite fmap_app, Hnode, IH. reflexivity.
Qed.

Lemma callsOfNode_nodes node : forall path ctx,
  (callsOfNode node path ctx).*1 = postorderNode node.
Proof.
  induction node as [s h ns o IH | nm pa h ns o IH | h pr va im o | va o
                    | c h ns o IH | h ns o IH] using AstNode_rect_nested;
    intros path ctx; cbn [callsOfNode postorderNode]; try reflexivity.
  - rewrite callsOf_loop_eq, fmap_app, (callsOf_all _ IH). reflexivity.
  - rewrite callsOf_loop_eq, fmap_app, (callsOf_all _ IH). reflexivity.
  - rewrite callsOf_loop_eq, (callsOf_all _ IH). reflexivity.
Qed.

Lemma callsOf_nodes ast path ctx : (callsOf ast path ctx).*1 = postorder ast.
Proof.
  induction ast as [|n rest IH]; [reflexivity|].
  cbn [callsOf]. rewrite fmap_app, callsOfNode_nodes, IH. reflexivity.
Qed.

(** C9, as the code has it.  When the visitor replaces nothing,
    [walkDepth] leaves the tree as it is and calls the visitor once on
    each node met by the post-order that goes through rules, at-rules and
    context nodes: children before their parent, context nodes themselves
    not shown, and the nodes below an at-root node not reached.  The
    visitor returns no outcome, so it can neither skip nor stop. *)
Theorem walkDepth_is_postorder {V : Type}
    (visit : AstNode -> Utils -> V -> V * option (list AstNode)) :
  (forall node utils v, (visit node utils v).2 = None) ->
  forall ast path ctx v,
    walkDepth visit ast path ctx v
    = (ast, foldl (fun v call => (visit call.1 call.2 v).1) v (callsOf ast path ctx))
    /\ (callsOf ast path ctx).*1 = postorder ast
    /\ visited ast = postorder ast.
Proof.
  intros Hkeeps ast path ctx v. repeat apply conj.
  - apply (walkDepth_keeps visit Hkeeps).
  - apply callsOf_nodes.
  - unfold visited. rewrite (walkDepth_keeps record) by reflexivity.
    cbn [snd]. rewrite <- (callsOf_nodes ast [] ∅). unfold Traversal.after.
    generalize (callsOf ast [] ∅). intros calls.
    change (foldl (fun v call => (record call.1 call.2 v).1) [] calls
            = [] ++ calls.*1).
    generalize (@nil AstNode). induction calls as [|c rest IH]; intros acc.
    + cbn. rewrite app_nil_r. reflexivity.
    + cbn [foldl fmap list_fmap]. rewrite IH. cbn. rewrite <- app_assoc. reflexivity.
Qed.

Lemma walkDepth_is_postorder_witness :
  walkDepth record
    [Rule ".a" 0 [decl 1 "color" (Some "red"); Comment "x" noCommentOffsets] noRuleOffsets]
    [] ∅ []
  = ([Rule ".a" 0 [decl 1 "color" (Some "red"); Comment "x" noCommentOffsets] noRuleOffsets],
     [decl 1 "color" (Some "red"); Comment "x" noCommentOffsets;
      Rule ".a" 0 [decl 1 "color" (Some "red"); Comment "x" noCommentOffsets] noRuleOffsets]).
Proof.
  rewrite (proj1 (walkDepth_is_postorder record (fun _ _ _ => eq_refl) _ [] ∅ [])).
  reflexivity.
Defined.

(** C9 as stated fails: the child of an at-root node is never shown to
    the visitor. *)
Lemma walkDepth_skips_atroot_counterexample : ~ Stated.walkDepthVisitsEveryNode.
Proof.
  intros Hclaim.
  specialize (Hclaim [AtRoot 0 [Comment "x" noCommentOffsets] noBodyOffsets]).
  vm_compute in Hclaim. discriminate Hclaim.
Qed.

End WalkDepthProps.

(** ** The spans written by [toCss] *)

Module SpanProps.
Import Serializer Examples.

(** C2 on the code.  [toCss] moves its cursor over the text of a field
    only when the field carries an [Offsets].  After a node without
    [Offsets] (every node the constructor functions make) the cursor
    trails the text: here the at-rule prints 19 code units and moves the
    cursor by 3, so the declaration's property gets the span [3, 8) and
    its value [10, 13), which cut [yer p] and [per] out of the text, not
    [color] and [red]. *)
Theorem tracked_span_after_untracked_node :
  exists text property value,
    toCss untrackedThenTracked true
    = Ok (text,
          [atRule 0 "@layer" "properties" [];
           Declaration 1 "color" (Some "red") false
             (mkDeclOffsets (Some (set_dst (Some property) parsed))
                            (Some (set_dst (Some value) parsed)))])
    /\ text = "@layer properties;" +:+ Js.LF +:+ "color: red;" +:+ Js.LF
    /\ property = mkSpan 3 8
    /\ value = mkSpan 10 13
    /\ Js.slice (span_start property) (span_end property) text = "yer p"
    /\ Js.slice (span_start value) (span_end value) text = "per"
    /\ Js.slice 19 24 text = "color"
    /\ Js.slice 26 29 text = "red".
Proof.
  eexists _, _, _. repeat apply conj; reflexivity.
Qed.

(** *** Trees in which every printed field is tracked *)

Lemma append_cons x a b : String x a +:+ b = String x (a +:+ b).
Proof. reflexivity. Qed.

Lemma append_nil a : "" +:+ a = a.
Proof. reflexivity. Qed.

Lemma length_app a b : String.length (a +:+ b) = String.length a + String.length b.
Proof.
  induction a as [|x a IH]; [reflexivity|].
  rewrite append_cons. cbn [String.length]. rewrite IH. reflexivity.
Qed.

Lemma app_assoc_s a b c : (a +:+ b) +:+ c = a +:+ b +:+ c.
Proof.
  induction a as [|x a IH]; [reflexivity|]. rewrite !append_cons, IH. reflexivity.
Qed.

Lemma substring_skip a n m s :
  String.substring (String.length a + n) m (a +:+ s) = String.substring n m s.
Proof. induction a as [|x a IH]; [reflexivity|]. rewrite append_cons. exact IH. Qed.

Lemma substring_prefix b c : String.substring 0 (String.length b) (b +:+ c) = b.
Proof.
  induction b as [|x b IH]; [destruct c; reflexivity|].
  rewrite append_cons. cbn [String.length String.substring]. rewrite IH. reflexivity.
Qed.

Lemma slice_at text a b c start stop :
  text = a +:+ b +:+ c ->
  start = String.length a ->
  stop = String.length a + String.length b ->
  Js.slice start stop text = b.
Proof.
  intros -> -> ->. unfold Js.slice.
  replace (String.length a + String.length b - String.length a) with (String.length b) by lia.
  rewrite <- (Nat.add_0_r (String.length a)) at 1.
  rewrite substring_skip. apply substring_prefix.
Qed.

Import Spans.

Ltac solve_length :=
  rewrite ?length_app; unfold Js.LF; cbn [String.length]; lia.

Ltac cut_at A B :=
  eapply (slice_at _ A B _);
  [rewrite ?app_assoc_s; reflexivity | solve_length ..].

Ltac same_cursor :=
  match goal with
  | |- Ok (?c, ?n, ?p1) = Ok (?c, _, ?p2) =>
      refine (f_equal (fun p => Ok (c, n, p)) (_ : p1 = p2))
  end.

Lemma declaration_tracked h property value important offs depth pos :
  fullyTracked (Declaration h property value important offs) = true ->
  trackedResult depth pos (Declaration h property value important offs).
Proof.
  intros Ht. cbn [fullyTracked] in Ht.
  apply andb_true_iff in Ht as [Ht Hv]. apply andb_true_iff in Ht as [Hval Hp].
  apply bool_decide_eq_true in Hv as [ov Hov]. apply bool_decide_eq_true in Hp as [op Hop].
  apply bool_decide_eq_true in Hval as [v ->].
  destruct offs as [oprop oval]. cbn in Hov, Hop. subst oprop oval.
  unfold trackedResult. cbn [stringify render stamp span do_property do_value valueText].
  eexists. split; [|split].
  - same_cursor. destruct important; solve_length.
  - reflexivity.
  - intros pre post Hpre. cbn [spansRight reads do_property do_value dst set_dst
                               span_start span_end valueText]. split.
    + cut_at (pre +:+ Js.repeat "  " depth) property.
    + cut_at (pre +:+ Js.repeat "  " depth +:+ property +:+ ": ") v.
Qed.

Lemma comment_tracked value offs depth pos :
  fullyTracked (Comment value offs) = true ->
  trackedResult depth pos (Comment value offs).
Proof.
  intros Ht. cbn [fullyTracked] in Ht. apply bool_decide_eq_true in Ht as [ov Hov].
  destruct offs as [oval]. cbn in Hov. subst oval.
  unfold trackedResult. cbn [stringify render stamp span co_value].
  eexists. split; [|split].
  - same_cursor. solve_length.
  - reflexivity.
  - intros pre post Hpre. cbn [spansRight reads co_value dst set_dst span_start span_end].
    cut_at (pre +:+ Js.repeat "  " depth) ("/*" +:+ value +:+ "*/").
Qed.

Ltac fold_renderEach :=
  match goal with
  | |- context [?f ?ns] =>
    is_fix f;
    let Heq := fresh "Heq" in
    assert (Heq : forall l, f l = renderEach _ l)
      by (let l := fresh "l" in
          intro l; induction l as [|? ? IH]; cbn; [|rewrite IH]; reflexivity);
    rewrite Heq; clear Heq
  end.

Lemma render_rule depth selector h nodes offs :
  render depth (Rule selector h nodes offs)
  = (Js.repeat "  " depth +:+ selector +:+ " {" +:+ Js.LF)
    +:+ renderEach (S depth) nodes +:+ Js.repeat "  " depth +:+ "}" +:+ Js.LF.
Proof. cbn [render]. fold_renderEach. reflexivity. Qed.

Lemma render_atrule depth name params h node nodes offs :
  render depth (AtRule name params h (node :: nodes) offs)
  = (Js.repeat "  " depth +:+ name
     +:+ (if Js.seq params "" then " " else " " +:+ params +:+ " ") +:+ "{" +:+ Js.LF)
    +:+ renderEach (S depth) (node :: nodes) +:+ Js.repeat "  " depth +:+ "}" +:+ Js.LF.
Proof. cbn [render]. fold_renderEach. reflexivity. Qed.

Ltac fold_spansEach :=
  match goal with
  | |- context [?f ?ns] =>
    is_fix f;
    let Heq := fresh "Heq" in
    assert (Heq : forall l, f l = spansRightEach _ _ l)
      by (let l := fresh "l" in
          intro l; induction l as [|? ? IH]; cbn; [|rewrite IH]; reflexivity);
    rewrite Heq; clear Heq
  end.

Lemma spansRight_rule text depth selector h nodes offs :
  spansRight text depth (Rule selector h nodes offs)
  = (reads text (ro_selector offs) selector
     /\ reads text (ro_body offs) (block depth nodes)
     /\ spansRightEach text (S depth) nodes).
Proof. cbn [spansRight]. fold_spansEach. reflexivity. Qed.

Lemma spansRight_atrule text depth name params h nodes offs :
  spansRight text depth (AtRule name params h nodes offs)
  = (reads text (ao_name offs) name
     /\ (nodes = [] \/ Js.seq params "" = false -> reads text (ao_params offs) params)
     /\ (nodes <> [] -> reads text (ao_body offs) (block depth nodes))
     /\ spansRightEach text (S depth) nodes).
Proof. cbn [spansRight]. fold_spansEach. reflexivity. Qed.

Ltac fold_children d :=
  match goal with
  | |- context [?f ?ns ?p] =>
    is_fix f;
    let Heq := fresh "Heq" in
    assert (Heq : forall l q, f l q = stringifyEach true d l q)
      by (let l := fresh "l" in
          intro l; induction l as [|? ? IH]; intros; cbn;
          [reflexivity
          | match goal with
            | |- context [stringify ?t ?n ?d ?q] =>
                destruct (stringify t n d q) as [[[? ?] ?]|?]; cbn;
                [rewrite IH|]; reflexivity
            end]);
    rewrite Heq; clear Heq
  end.

(** A tracked [stringify] of a rule and of an at-rule with a block, with
    the loop over the children as [stringifyEach]. *)
Lemma stringify_rule depth pos selector h nodes os ob :
  stringify true (Rule selector h nodes (mkRuleOffsets (Some os) (Some ob))) depth pos
  = (let indent := Js.repeat "  " depth in
     let p1 := pos + String.length indent in
     let p2 := p1 + String.length selector + 1 in
     '(body, nodes', p3) ← stringifyEach true (S depth) nodes (p2 + 1 + 1);
     Ok ((indent +:+ selector +:+ " {" +:+ Js.LF) +:+ body +:+ indent +:+ "}" +:+ Js.LF,
         Rule selector h nodes'
           (mkRuleOffsets (Some (set_dst (Some (mkSpan p1 (p1 + String.length selector))) os))
              (Some (set_dst (Some (mkSpan p2 (p3 + String.length indent + 1)))
                       (set_dst (Some (mkSpan p2 (p2 + 1))) ob)))),
         p3 + String.length indent + 1 + 1)).
Proof.
  cbn [stringify stamp span ro_selector ro_body String.length]. fold_children (S depth).
  destruct (stringifyEach true (S depth) nodes _) as [[[body nodes'] p3]|e]; [|reflexivity].
  cbn. reflexivity.
Qed.

Lemma stringify_atrule depth pos name params h node nodes on op ob :
  stringify true (AtRule name params h (node :: nodes)
                    (mkAtRuleOffsets (Some on) (Some op) (Some ob))) depth pos
  = (let indent := Js.repeat "  " depth in
     let p1 := pos + String.length indent in
     let p2 := p1 + String.length name in
     let '(oparams, p3) :=
       if Js.seq params "" then (Some op, p2)
       else (Some (set_dst (Some (mkSpan (p2 + 1) (p2 + 1 + String.length params))) op),
             p2 + 1 + String.length params) in
     let p4 := p3 + 1 in
     '(body, nodes', p5) ← stringifyEach true (S depth) (node :: nodes) (p4 + 1 + 1);
     Ok ((indent +:+ name
          +:+ (if Js.seq params "" then " " else " " +:+ params +:+ " ") +:+ "{" +:+ Js.LF)
         +:+ body +:+ indent +:+ "}" +:+ Js.LF,
         AtRule name params h nodes'
           (mkAtRuleOffsets
              (Some (set_dst (Some (mkSpan p1 (p1 + String.length name))) on))
              oparams
              (Some (set_dst (Some (mkSpan p4 (p5 + String.length indent + 1)))
                       (set_dst (Some (mkSpan p4 (p4 + 1))) ob)))),
         p5 + String.length indent + 1 + 1)).
Proof.
  cbn [stringify stringifyEach stamp span ao_name ao_params ao_body String.length].
  destruct (Js.seq params "");
    (destruct (stringify true node (S depth) _) as [[[c1 node'] q1]|e]; [|reflexivity];
     cbn [mbind result_bind]; fold_children (S depth);
     destruct (stringifyEach true (S depth) nodes _) as [[[body nodes'] p3]|e];
     [|reflexivity]; cbn; reflexivity).
Qed.

(** The loop over a list of nodes, from the nodes. *)
Lemma tracked_each ns :
  Forall (fun n => forall depth pos, trackedResult depth pos n) ns ->
  forall depth pos, trackedEach depth pos ns.
Proof.
  induction 1 as [|n ns Hn _ IH]; intros depth pos.
  - exists []. cbn [stringifyEach renderEach spansRightEach String.length].
    split; [same_cursor; lia|]. repeat split.
  - destruct (Hn depth pos) as (n' & Hrun & Hsame & Hspans).
    destruct (IH depth (pos + String.length (render depth n)))
      as (ns' & Hrun' & Hsame' & Hlen & Hspans').
    exists (n' :: ns'). cbn [stringifyEach renderEach].
    rewrite Hrun. cbn [mbind result_bind]. rewrite Hrun'. cbn [mbind result_bind].
    split; [|split; [|split]].
    + same_cursor. solve_length.
    + intros d. rewrite Hsame, Hsame'. reflexivity.
    + cbn. rewrite Hlen. reflexivity.
    + intros pre post Hpre. cbn [spansRightEach]. split.
      * rewrite app_assoc_s. apply Hspans, Hpre.
      * rewrite app_assoc_s, <- app_assoc_s. apply Hspans'. solve_length.
Qed.

Lemma tracked_children ns :
  Forall (fun n => fullyTracked n = true ->
                   forall depth pos, trackedResult depth pos n) ns ->
  forallb fullyTracked ns = true ->
  forall depth pos, trackedEach depth pos ns.
Proof.
  intros IH Hall. apply tracked_each.
  induction IH as [|n ns Hn _ IH]; constructor;
    cbn [forallb] in Hall; apply andb_true_iff in Hall as [Hhead Hall]; auto.
Qed.

Lemma rule_tracked selector h nodes offs :
  Forall (fun n => fullyTracked n = true ->
                   forall depth pos, trackedResult depth pos n) nodes ->
  fullyTracked (Rule selector h nodes offs) = true ->
  forall depth pos, trackedResult depth pos (Rule selector h nodes offs).
Proof.
  intros IH Ht depth pos. cbn [fullyTracked] in Ht.
  apply andb_true_iff in Ht as [Ht Hall]. apply andb_true_iff in Ht as [Hs Hb].
  apply bool_decide_eq_true in Hs as [os Hos]. apply bool_decide_eq_true in Hb as [ob Hob].
  destruct offs as [osel obody]. cbn in Hos, Hob. subst osel obody.
  destruct (tracked_children nodes IH Hall (S depth)
              (pos + String.length (Js.repeat "  " depth) + String.length selector + 1 + 1 + 1))
    as (ns' & Hrun & Hsame & Hlen & Hspans).
  unfold trackedResult. rewrite stringify_rule. cbn zeta. rewrite Hrun.
  cbn [mbind result_bind]. eexists. split; [|split].
  - rewrite render_rule. same_cursor. solve_length.
  - intros d. rewrite !render_rule, Hsame. reflexivity.
  - intros pre post Hpre. rewrite spansRight_rule, render_rule.
    cbn [ro_selector ro_body reads dst set_dst span_start span_end].
    split; [|split].
    + cut_at (pre +:+ Js.repeat "  " depth) selector.
    + unfold block. rewrite Hsame.
      cut_at (pre +:+ Js.repeat "  " depth +:+ selector +:+ " ")
             ("{" +:+ Js.LF +:+ renderEach (S depth) nodes +:+ Js.repeat "  " depth +:+ "}").
    + specialize (Hspans (pre +:+ Js.repeat "  " depth +:+ selector +:+ " {" +:+ Js.LF)
                         (Js.repeat "  " depth +:+ "}" +:+ Js.LF +:+ post)).
      rewrite ?app_assoc_s in Hspans. rewrite ?app_assoc_s. apply Hspans. solve_length.
Qed.

Lemma append_empty_r a : a +:+ "" = a.
Proof.
  induction a as [|x a IH]; [reflexivity|]. rewrite append_cons, IH. reflexivity.
Qed.

Lemma atrule_tracked name params h nodes offs :
  Forall (fun n => fullyTracked n = true ->
                   forall depth pos, trackedResult depth pos n) nodes ->
  fullyTracked (AtRule name params h nodes offs) = true ->
  forall depth pos, trackedResult depth pos (AtRule name params h nodes offs).
Proof.
  intros IH Ht depth pos. cbn [fullyTracked] in Ht.
  apply andb_true_iff in Ht as [Ht Hall]. apply andb_true_iff in Ht as [Ht Hb].
  apply andb_true_iff in Ht as [Hn Hp].
  apply bool_decide_eq_true in Hn as [on Hon]. apply bool_decide_eq_true in Hp as [op Hop].
  apply bool_decide_eq_true in Hb as [ob Hob].
  destruct offs as [oname oparams obody]. cbn in Hon, Hop, Hob. subst oname oparams obody.
  destruct nodes as [|node nodes].
  - (* printed with a semicolon *)
    unfold trackedResult. cbn [stringify render stamp span ao_name ao_params ao_body].
    eexists. split; [|split].
    + same_cursor. solve_length.
    + reflexivity.
    + intros pre post Hpre. rewrite spansRight_atrule.
      cbn [ao_name ao_params ao_body reads dst set_dst span_start span_end spansRightEach].
      split; [|split; [|split]]; [| intros _ | intros Hne; destruct Hne; reflexivity | exact I].
      * cut_at (pre +:+ Js.repeat "  " depth) name.
      * cut_at (pre +:+ Js.repeat "  " depth +:+ name +:+ " ") params.
  - (* printed with a block *)
    unfold trackedResult. rewrite stringify_atrule, render_atrule. cbn zeta.
    destruct (Js.seq params "") eqn:Hparams.
    + destruct (tracked_children (node :: nodes) IH Hall (S depth)
                  (pos + String.length (Js.repeat "  " depth) + String.length name + 1 + 1 + 1))
        as (ns' & Hrun & Hsame & Hlen & Hspans).
      rewrite Hrun. cbn [mbind result_bind]. eexists. split; [|split].
      * same_cursor. solve_length.
      * intros d. destruct ns' as [|n' ns']; [discriminate Hlen|].
        rewrite !render_atrule, Hsame. reflexivity.
      * intros pre post Hpre. rewrite spansRight_atrule.
        cbn [ao_name ao_params ao_body reads dst set_dst span_start span_end].
        split; [|split; [|split]].
        -- cut_at (pre +:+ Js.repeat "  " depth) name.
        -- intros [Hnil|Hne]; [subst ns'; discriminate Hlen | congruence].
        -- intros _. unfold block. rewrite Hsame.
           cut_at (pre +:+ Js.repeat "  " depth +:+ name +:+ " ")
                  ("{" +:+ Js.LF +:+ renderEach (S depth) (node :: nodes)
                   +:+ Js.repeat "  " depth +:+ "}").
        -- specialize (Hspans (pre +:+ Js.repeat "  " depth +:+ name +:+ " {" +:+ Js.LF)
                              (Js.repeat "  " depth +:+ "}" +:+ Js.LF +:+ post)).
           rewrite ?app_assoc_s in Hspans. rewrite ?app_assoc_s. apply Hspans. solve_length.
    + destruct (tracked_children (node :: nodes) IH Hall (S depth)
                  (pos + String.length (Js.repeat "  " depth) + String.length name + 1
                   + String.length params + 1 + 1 + 1))
        as (ns' & Hrun & Hsame & Hlen & Hspans).
      rewrite Hrun. cbn [mbind result_bind]. eexists. split; [|split].
      * same_cursor. solve_length.
      * intros d. destruct ns' as [|n' ns']; [discriminate Hlen|].
        rewrite !render_atrule, Hsame. reflexivity.
      * intros pre post Hpre. rewrite spansRight_atrule.
        cbn [ao_name ao_params ao_body reads dst set_dst span_start span_end].
        split; [|split; [|split]].
        -- cut_at (pre +:+ Js.repeat "  " depth) name.
        -- intros _. cut_at (pre +:+ Js.repeat "  " depth +:+ name +:+ " ") params.
        -- intros _. unfold block. rewrite Hsame.
           cut_at (pre +:+ Js.repeat "  " depth +:+ name +:+ " " +:+ params +:+ " ")
                  ("{" +:+ Js.LF +:+ renderEach (S depth) (node :: nodes)
                   +:+ Js.repeat "  " depth +:+ "}").
        -- specialize (Hspans (pre +:+ Js.repeat "  " depth +:+ name +:+ " " +:+ params
                               +:+ " {" +:+ Js.LF)
                              (Js.repeat "  " depth +:+ "}" +:+ Js.LF +:+ post)).
           rewrite ?app_assoc_s in Hspans. rewrite ?app_assoc_s. apply Hspans. solve_length.
Qed.

Lemma node_tracked node :
  fullyTracked node = true -> forall depth pos, trackedResult depth pos node.
Proof.
  induction node using AstNode_rect_nested.
  - apply rule_tracked; assumption.
  - apply atrule_tracked; assumption.
  - intros Ht depth pos. apply declaration_tracked, Ht.
  - intros Ht depth pos. apply comment_tracked, Ht.
  - intros _ depth pos. eexists. cbn [stringify render String.length spansRight].
    split; [same_cursor; lia|]. split; [reflexivity|]. intros; exact I.
  - intros _ depth pos. eexists. cbn [stringify render String.length spansRight].
    split; [same_cursor; lia|]. split; [reflexivity|]. intros; exact I.
Qed.

(** When every printed field of every node carries an [Offsets] and every
    declaration a value, a tracked [toCss] returns, prints the text of
    the tree, and every span it writes cuts the text of its field out of
    the output; a body span runs from the opening brace through the
    closing one.  The [Offsets] are held by value: the statement is about
    trees in which no two fields hold the same [Offsets] object. *)
Theorem fully_tracked_spans_read_their_text ast :
  forallb fullyTracked ast = true ->
  exists ast',
    toCss ast true = Ok (renderEach 0 ast, ast')
    /\ spansRightEach (renderEach 0 ast) 0 ast'.
Proof.
  intros Hall.
  destruct (tracked_children ast) with (depth := 0) (pos := 0)
    as (ast' & Hrun & _ & _ & Hspans); [|exact Hall|].
  - apply Forall_forall. intros n _. apply node_tracked.
  - exists ast'. unfold toCss, stringifyAll. rewrite Hrun. cbn [mbind result_bind].
    split; [reflexivity|].
    specialize (Hspans "" "" eq_refl). rewrite append_nil, append_empty_r in Hspans.
    exact Hspans.
Qed.

(** The theorem on a rule with one declaration, all fields tracked. *)
Lemma fully_tracked_spans_read_their_text_witness :
  exists ast',
    toCss trackedRule true = Ok (".a {" +:+ Js.LF +:+ "  color: red;" +:+ Js.LF +:+ "}" +:+ Js.LF, ast')
    /\ spansRightEach (renderEach 0 trackedRule) 0 ast'.
Proof. apply (fully_tracked_spans_read_their_text trackedRule). reflexivity. Defined.

End SpanProps.

(** ** The color-mix polyfill *)

Module ColorMixProps.
Import Optimizer ValueParser Examples.

(** The theme as the polyfill of a declaration reads it: after the usage
    of the value was reported, when it was. *)
Lemma transform_decl_polyfilled {T : Type} `{DesignSystem T} (E : Externals)
    polyfills fuel h property v important offs parent ctx depth (st : State T) ast' :
  Js.seq property "--tw-sort" = false ->
  truthy (ctx !! "theme") && isCustomProperty property && Js.seq v "initial" = false ->
  enabled polyfills (Polyfills_ColorMix E) = true ->
  Js.includes "color-mix(" v = true ->
  walk (polyfillColorMix
          (if Js.includes "var(" v
              && negb (truthy (ctx !! "theme") && isCustomProperty property)
           then trackUsedVariables (theme st) v else theme st))
    fuel (ValueParser_parse E v) 0 false = Ok (ast', true) ->
  exists st',
    transform E polyfills fuel (Declaration h property (Some v) important offs)
      parent ctx depth st
    = Ok ([Declaration (nextHandle st) property (Some (ValueParser_toCss E ast')) important offs;
           rule E (S (nextHandle st)) colorMixQuerySelector
             [Declaration h property (Some v) important offs]], st')
    /\ nextHandle st' = S (S (nextHandle st))
    /\ atRoots st' = atRoots st.
Proof.
  intros Hsort Hinit Hon Hmix Hwalk. cbn [transform]. rewrite Hsort, Hinit, Hon, Hmix.
  cbn [andb].
  match goal with
  | |- context [walk (polyfillColorMix ?t) fuel _ 0 false] =>
      replace t with (if Js.includes "var(" v
                         && negb (truthy (ctx !! "theme") && isCustomProperty property)
                      then trackUsedVariables (theme st) v else theme st)
  end.
  - rewrite Hwalk. cbn [mbind result_bind]. destruct st.
    destruct (truthy (ctx !! "theme") && isCustomProperty property);
      destruct (negb (truthy (ctx !! "keyframes")));
      destruct (Js.includes "var(" v); destruct (Js.seq property "animation");
      cbn; eexists; repeat split; reflexivity.
  - destruct (truthy (ctx !! "theme") && isCustomProperty property);
      destruct (negb (truthy (ctx !! "keyframes")));
      destruct (Js.includes "var(" v); destruct (Js.seq property "animation");
      reflexivity.
Qed.

(** A property of the visitor's state that every call preserves holds
    after the walk. *)
Lemma walk_state_invariant {St : Type}
    (visit : nat -> ValueAstNode -> St -> Result (St * ValueAstNode * option ValueAstNode))
    (P : St -> Prop) :
  (forall fuel node s s' node' replaced,
      visit fuel node s = Ok (s', node', replaced) -> P s -> P s') ->
  forall fuel ast i s ast' s',
    walk visit fuel ast i s = Ok (ast', s') -> P s -> P s'.
Proof.
  intros Hvisit. induction fuel as [|fuel IH]; intros ast i s ast' s' Hw Hs; [discriminate|].
  cbn [walk] in Hw. destruct (ast !! i) as [node|]; [|injection Hw as <- <-; exact Hs].
  destruct (visit fuel node s) as [[[s1 node1] replaced]|] eqn:Hv; [|discriminate].
  cbn [mbind result_bind] in Hw. pose proof (Hvisit _ _ _ _ _ _ Hv Hs) as Hs1.
  destruct replaced as [newNode|]; [eapply IH; eassumption|].
  destruct node1 as [w|val nodes|w]; try (eapply IH; eassumption).
  destruct (walk visit fuel nodes 0 s1) as [[nodes' s2]|] eqn:Hn; [|discriminate].
  cbn [mbind result_bind] in Hw. eapply IH; [exact Hw|]. eapply IH; eassumption.
Qed.

Lemma resolveVars_flagsAgree {T : Type} `{DesignSystem T} (theme : T)
    fuel ast i f ast' f' :
  walk (resolveVars theme) fuel ast i f = Ok (ast', f') -> flagsAgree f -> flagsAgree f'.
Proof.
  apply walk_state_invariant. clear. intros fuel node s s' node' replaced Hv Hs.
  unfold resolveVars in Hv. destruct node as [w|val nodes|w].
  - destruct (Js.seq _ _); injection Hv as <- <- <-; [intros _; reflexivity|exact Hs].
  - destruct (negb _); [injection Hv as <- <- <-; exact Hs|].
    destruct (nodes !! 0) as [[name| |]|]; try (injection Hv as <- <- <-; exact Hs).
    destruct (resolveValue theme name) as [c|].
    + destruct (Js.seq c ""); injection Hv as <- <- <-; intros _; reflexivity.
    + injection Hv as <- <- <-. intros _. reflexivity.
  - injection Hv as <- <- <-. exact Hs.
Qed.

(** C3, as the code has it.  With the color-mix polyfill enabled, a
    declaration whose value holds [color-mix(] and for which the walk over
    the parsed value reports that a polyfill is required pushes exactly
    two siblings onto the destination array, in this order: first a copy
    of the declaration that carries the rewritten value, not wrapped, then
    the at-rule [@supports (color: color-mix(in lab, red, red))] that wraps
    the original declaration, unchanged.  In the rewritten value a
    [color-mix(…)] call that holds an unresolvable [var()] or a bare
    [currentColor] is replaced by the argument that follows its first
    comma separator; a call whose variables all resolve keeps its place,
    with the resolved values inlined and the color space [oklab], [oklch],
    [lab] or [lch] changed to [srgb]. *)
Theorem colorMix_fallback_then_query {T : Type} `{DesignSystem T} (E : Externals) :
  (forall polyfills fuel h property v important offs parent ctx depth (st : State T) ast',
      Js.seq property "--tw-sort" = false ->
      truthy (ctx !! "theme") && isCustomProperty property && Js.seq v "initial" = false ->
      enabled polyfills (Polyfills_ColorMix E) = true ->
      Js.includes "color-mix(" v = true ->
      walk (polyfillColorMix
              (if Js.includes "var(" v
                  && negb (truthy (ctx !! "theme") && isCustomProperty property)
               then trackUsedVariables (theme st) v else theme st))
        fuel (ValueParser_parse E v) 0 false = Ok (ast', true) ->
      exists st',
        transform E polyfills fuel (Declaration h property (Some v) important offs)
          parent ctx depth st
        = Ok ([Declaration (nextHandle st) property (Some (ValueParser_toCss E ast'))
                 important offs;
               rule E (S (nextHandle st)) colorMixQuerySelector
                 [Declaration h property (Some v) important offs]], st')
        /\ nextHandle st' = S (S (nextHandle st))
        /\ atRoots st' = atRoots st)
  /\ (forall (theme : T) fuel nodes requires nodes' f separatorIndex firstColorValue,
        walk (resolveVars theme) fuel nodes 0 (mkFlags false false requires) = Ok (nodes', f) ->
        containsUnresolvableVars f || containsCurrentcolor f = true ->
        Js.findIndex isCommaSeparator nodes' = Some separatorIndex ->
        nodes' !! (separatorIndex + 1) = Some firstColorValue ->
        polyfillColorMix theme fuel (Function "color-mix" nodes) requires
        = Ok (true, Function "color-mix" nodes', Some firstColorValue))
  /\ (forall (theme : T) fuel nodes requires nodes' f colorspace,
        walk (resolveVars theme) fuel nodes 0 (mkFlags false false requires) = Ok (nodes', f) ->
        containsUnresolvableVars f || containsCurrentcolor f = false ->
        requiresPolyfill f = true ->
        nodes' !! 2 = Some (Word colorspace) ->
        isPolarOrLab colorspace = true ->
        polyfillColorMix theme fuel (Function "color-mix" nodes) requires
        = Ok (true, Function "color-mix" (<[2 := Word "srgb"]> nodes'), None))
  /\ (forall (theme : T) fuel name rest f,
        resolveVars theme fuel (Function "var" (Word name :: rest)) f
        = match resolveValue theme name with
          | Some inlinedColor =>
              if Js.seq inlinedColor ""
              then Ok (mkFlags true (containsCurrentcolor f) true,
                       Function "var" (Word name :: rest), None)
              else Ok (mkFlags (containsUnresolvableVars f) (containsCurrentcolor f) true,
                       Function "var" (Word name :: rest), Some (Word inlinedColor))
          | None => Ok (mkFlags true (containsCurrentcolor f) true,
                        Function "var" (Word name :: rest), None)
          end)
  /\ (forall (theme : T) fuel value f,
        Js.seq (Js.toLowerCase value) "currentcolor" = true ->
        resolveVars theme fuel (Word value) f
        = Ok (mkFlags (containsUnresolvableVars f) true true, Word value, None)).
Proof.
  repeat apply conj.
  - intros. apply transform_decl_polyfilled; assumption.
  - intros theme fuel nodes requires nodes' f k c Hw Hf Hk Hc.
    pose proof (resolveVars_flagsAgree theme _ _ _ _ _ _ Hw) as Hagree.
    cbn [polyfillColorMix Js.seq String.eqb Ascii.eqb Bool.eqb negb].
    rewrite Hw. cbn [mbind result_bind]. rewrite Hf, Hk, Hc.
    rewrite Hagree; [reflexivity| |exact Hf]. intros Hx. discriminate Hx.
  - intros theme fuel nodes requires nodes' f cs Hw Hf Hr Hcs Hp.
    cbn [polyfillColorMix Js.seq String.eqb Ascii.eqb Bool.eqb negb].
    rewrite Hw. cbn [mbind result_bind]. rewrite Hf, Hr, Hcs, Hp. reflexivity.
  - intros theme fuel name rest f. cbn. destruct (resolveValue theme name); reflexivity.
  - intros theme fuel value f Hv. cbn [resolveVars]. rewrite Hv. reflexivity.
Qed.

Lemma colorMix_fallback_then_query_witness :
  exists st',
    transform externals 3 20 (Declaration 1 "color" (Some colorMixUnknown) false noDeclOffsets)
      7 ∅ 1 (setNextHandle 4 emptyState)
    = Ok ([Declaration 4 "color" (Some "var(--unknown)") false noDeclOffsets;
           AtRule "@supports" "(color: color-mix(in lab, red, red))" 5
             [Declaration 1 "color" (Some colorMixUnknown) false noDeclOffsets]
             noAtRuleOffsets], st').
Proof.
  destruct (proj1 (@colorMix_fallback_then_query _ blankTheme externals)
              3%Z 20 1 "color" colorMixUnknown false noDeclOffsets 7 ∅ 1
              (setNextHandle 4 emptyState)
              [Function "var" [Word "--unknown"]])
    as (st' & Heq & _).
  - reflexivity.
  - reflexivity.
  - reflexivity.
  - reflexivity.
  - vm_compute. reflexivity.
  - exists st'. exact Heq.
Defined.

(** C3 as stated fails: for [color: color-mix(in oklab, var(--unknown),
    red)] the first sibling is the copy with the rewritten value
    [var(--unknown)], and the at-rule wraps the original declaration. *)
Lemma colorMix_query_wraps_original_counterexample :
  ~ Stated.colorMixQueryWrapsRewritten externals 3 20.
Proof.
  intros Hclaim.
  destruct (transform externals 3 20
              (Declaration 1 "color" (Some colorMixUnknown) false noDeclOffsets)
              7 ∅ 1 (setNextHandle 4 emptyState)) as [[pushed st']|] eqn:Heq.
  - assert (Hwalk : walk (polyfillColorMix
                            (if Js.includes "var(" colorMixUnknown
                                && negb (truthy ((∅ : gmap string CtxValue) !! "theme")
                                         && isCustomProperty "color")
                             then trackUsedVariables (theme (setNextHandle 4 emptyState))
                                    colorMixUnknown
                             else theme (setNextHandle 4 emptyState))) 20
                      (ValueParser_parse externals colorMixUnknown) 0 false
                    = Ok ([Function "var" [Word "--unknown"]], true))
      by (vm_compute; reflexivity).
    destruct (Hclaim 1 "color" colorMixUnknown false noDeclOffsets 7 ∅ 1
                (setNextHandle 4 emptyState) pushed st' _ eq_refl eq_refl Hwalk Heq)
      as (hc & hq & Hpushed).
    vm_compute in Heq. injection Heq as <- <-.
    injection Hpushed as _ Hvalue _. discriminate Hvalue.
  - vm_compute in Heq. discriminate Heq.
Qed.

End ColorMixProps.

(** ** Liveness of theme variables *)

Module LivenessProps.
Import Optimizer Liveness.

Section Search.
Context {T : Type} `{DesignSystem T}.
Variable E : Externals.
Variable theme : T.
Variable dependencies : gmap string (list string).

Abbreviation flagged := (staticOrUsed E theme).
Abbreviation used := (isVariableUsed E theme dependencies).
Abbreviation anyUsed := (anyDependencyUsed E theme dependencies).

Lemma isVariableUsed_step fuel variable seen :
  used (S fuel) variable seen =
  (if bool_decide (variable ∈ seen) then Some (true, seen)
   else if flagged variable then Some (true, seen ++ [variable])
        else anyUsed fuel (dependents dependencies variable) (seen ++ [variable])).
Proof.
  cbn [isVariableUsed]. destruct (bool_decide _); [reflexivity|].
  destruct (flagged variable); [reflexivity|]. unfold dependents.
  generalize (seen ++ [variable]). generalize (default [] (dependencies !! variable)).
  intros deps. induction deps as [|d deps IH]; intros seen0; [reflexivity|].
  cbn [anyDependencyUsed]. destruct (used fuel d seen0) as [[u seen1]|]; [|reflexivity].
  cbn. destruct u; [reflexivity|apply IH].
Qed.

Lemma before_app_r l more w d : before l w d -> before (l ++ more) w d.
Proof.
  intros (i & j & Hi & Hj & Hij). exists i, j.
  repeat split; try assumption; apply lookup_app_l_Some; assumption.
Qed.

Abbreviation explored := (Liveness.explored flagged dependencies).

Lemma explored_nil seen : NoDup seen -> explored seen [].
Proof.
  intros Hn. split; [rewrite app_nil_r; exact Hn|].
  split; intros w; intros; exfalso; eapply not_elem_of_nil; eassumption.
Qed.

Lemma explored_app seen new1 new2 :
  explored seen new1 -> explored (seen ++ new1) new2 -> explored seen (new1 ++ new2).
Proof.
  intros (Hn1 & Hf1 & Hb1) (Hn2 & Hf2 & Hb2). rewrite <- app_assoc in Hn2.
  split; [exact Hn2|]. split.
  - intros w Hw. apply elem_of_app in Hw as [Hw|Hw]; auto.
  - intros w d Hw Hd. rewrite app_assoc. apply elem_of_app in Hw as [Hw|Hw].
    + apply before_app_r. auto.
    + rewrite <- app_assoc. rewrite <- app_assoc in Hb2. auto.
Qed.

Lemma search_false fuel : forall variable seen seen',
  used fuel variable seen = Some (false, seen') ->
  NoDup seen ->
  exists new, seen' = seen ++ variable :: new /\ explored seen (variable :: new).
Proof.
  induction fuel as [|fuel IH]; intros variable seen seen' Heq Hnd; [discriminate|].
  rewrite isVariableUsed_step in Heq.
  destruct (bool_decide (variable ∈ seen)) eqn:Hin; [discriminate|].
  apply bool_decide_eq_false in Hin.
  destruct (flagged variable) eqn:Hflag; [discriminate|].
  assert (Hnd1 : NoDup (seen ++ [variable])).
  { apply NoDup_app. repeat split; [exact Hnd| |apply NoDup_singleton].
    intros x Hx Hx'. apply list_elem_of_singleton in Hx'. subst x. contradiction. }
  assert (Hloop : forall deps seen0 seen1,
             anyUsed fuel deps seen0 = Some (false, seen1) ->
             NoDup seen0 ->
             exists new, seen1 = seen0 ++ new /\ explored seen0 new
                         /\ forall d, d ∈ deps -> d ∈ new).
  { clear Heq. induction deps as [|d deps IHd]; intros seen0 seen1 Heq Hnd0.
    - injection Heq as <-. exists []. rewrite app_nil_r.
      split; [reflexivity|]. split; [apply explored_nil; exact Hnd0|].
      intros d Hd. exfalso. eapply not_elem_of_nil; eassumption.
    - cbn [anyDependencyUsed] in Heq.
      destruct (used fuel d seen0) as [[u seen2]|] eqn:Hd; [|discriminate].
      cbn in Heq. destruct u; [discriminate|].
      destruct (IH _ _ _ Hd Hnd0) as (new1 & -> & Hex1).
      destruct (IHd _ _ Heq (proj1 Hex1)) as (new2 & -> & Hex2 & Hall).
      exists ((d :: new1) ++ new2). split; [rewrite <- app_assoc; reflexivity|].
      split; [apply explored_app; assumption|].
      intros d' Hd'. apply elem_of_cons in Hd' as [->|Hd'].
      + apply elem_of_app. left. apply elem_of_cons. left. reflexivity.
      + apply elem_of_app. right. auto. }
  destruct (Hloop _ _ _ Heq Hnd1) as (new & -> & (Hn & Hf & Hb) & Hall).
  exists new. rewrite <- app_assoc in *. cbn [app] in *.
  split; [reflexivity|]. split; [exact Hn|]. split.
  - intros w Hw. apply elem_of_cons in Hw as [->|Hw]; [exact Hflag|auto].
  - intros w d Hw Hd. apply elem_of_cons in Hw as [->|Hw].
    + specialize (Hall d Hd). apply list_elem_of_lookup in Hall as [k Hk].
      exists (length seen), (length seen + S k). repeat split; [| |lia].
      * rewrite lookup_app_r by lia. rewrite Nat.sub_diag. reflexivity.
      * rewrite lookup_app_r by lia.
        replace (length seen + S k - length seen) with (S k) by lia. exact Hk.
    + exact (Hb w d Hw Hd).
Qed.

Lemma before_trans l a b c : NoDup l -> before l a b -> before l b c -> before l a c.
Proof.
  intros Hnd (i & j & Hi & Hj & Hij) (j' & k & Hj' & Hk & Hjk).
  assert (j = j') by (eapply NoDup_lookup; eassumption). subst j'.
  exists i, k. repeat split; try assumption. lia.
Qed.

Lemma before_irrefl l a : NoDup l -> ~ before l a a.
Proof.
  intros Hnd (i & j & Hi & Hj & Hij).
  assert (i = j) by (eapply NoDup_lookup; eassumption). lia.
Qed.

Lemma search_false_not_live fuel variable seen :
  used fuel variable [] = Some (false, seen) -> ~ live flagged dependencies variable.
Proof.
  intros Heq. destruct (search_false _ _ _ _ Heq (NoDup_nil_2)) as (new & -> & Hex).
  cbn [app] in *. destruct Hex as (Hnd & Hflag & Hbefore). cbn [app] in *.
  set (l := variable :: new) in *.
  assert (Hclosed : forall w d, w ∈ l -> edge dependencies w d -> d ∈ l).
  { intros w d Hw Hd. destruct (Hbefore w d Hw Hd) as (i & j & _ & Hj & _).
    apply list_elem_of_lookup. eauto. }
  assert (Hreach : forall w u, rtc (edge dependencies) w u -> w ∈ l -> u ∈ l).
  { induction 1; eauto. }
  assert (Hchain : forall w u, tc (edge dependencies) w u -> w ∈ l -> before l w u).
  { induction 1 as [w u Hwu|w d u Hwd Hdu IHtc]; intros Hw; [exact (Hbefore _ _ Hw Hwu)|].
    eapply before_trans; [exact Hnd|exact (Hbefore _ _ Hw Hwd)|].
    apply IHtc. eapply Hclosed; eassumption. }
  intros (u & Hvu & Hu).
  assert (Hul : u ∈ l) by (eapply Hreach; [exact Hvu|apply elem_of_cons; left; reflexivity]).
  destruct Hu as [Hu|Hu].
  - rewrite (Hflag u Hul) in Hu. discriminate.
  - apply (before_irrefl l u Hnd). apply Hchain; assumption.
Qed.

Lemma universe_closed w d :
  d ∈ dependents dependencies w -> d ∈ universe dependencies.
Proof.
  unfold dependents. destruct (dependencies !! w) as [ds|] eqn:Hw; cbn.
  - intros Hd. apply elem_of_union. right. apply elem_of_union_list.
    exists (list_to_set ds). split.
    + apply list_elem_of_fmap. exists (w, ds). split; [reflexivity|].
      apply elem_of_map_to_list. exact Hw.
    + apply elem_of_list_to_set. exact Hd.
  - intros Hd. exfalso. eapply not_elem_of_nil. exact Hd.
Qed.

(** The search ends: the nesting of the calls is bounded by the number of
    variables not yet seen. *)
Lemma search_total (U : gset string) :
  (forall w d, d ∈ dependents dependencies w -> d ∈ U) ->
  forall fuel variable seen,
    variable ∈ U ->
    size (U ∖ list_to_set seen) < fuel ->
    exists r seen', used fuel variable seen = Some (r, seen')
                    /\ (forall x, x ∈ seen -> x ∈ seen').
Proof.
  intros Hclosed. induction fuel as [|fuel IH]; intros variable seen Hv Hsize; [lia|].
  rewrite isVariableUsed_step.
  destruct (bool_decide (variable ∈ seen)) eqn:Hin; [eauto|].
  apply bool_decide_eq_false in Hin.
  destruct (flagged variable).
  { eexists _, _. split; [reflexivity|]. intros x Hx. apply elem_of_app. auto. }
  assert (Hsize1 : size (U ∖ list_to_set (seen ++ [variable])) < fuel).
  { assert (U ∖ list_to_set (seen ++ [variable]) ⊂ U ∖ list_to_set seen) as Hsub.
    { apply strict_spec_alt. split.
      - rewrite list_to_set_app_L. set_solver.
      - intros Heq. assert (variable ∈ U ∖ list_to_set seen) as Hx by set_solver.
        rewrite <- Heq in Hx. rewrite list_to_set_app_L in Hx. set_solver. }
    apply subset_size in Hsub. lia. }
  assert (Hloop : forall deps seen0,
             (forall d, d ∈ deps -> d ∈ U) ->
             size (U ∖ list_to_set seen0) < fuel ->
             exists r seen', anyUsed fuel deps seen0 = Some (r, seen')
                             /\ (forall x, x ∈ seen0 -> x ∈ seen')).
  { induction deps as [|d deps IHd]; intros seen0 Hdeps Hs0.
    - eexists _, _. split; [reflexivity|]. auto.
    - cbn [anyDependencyUsed].
      destruct (IH d seen0) as (r & seen1 & Hcall & Hmono);
        [apply Hdeps, elem_of_cons; left; reflexivity|exact Hs0|].
      rewrite Hcall. cbn. destruct r; [eauto|].
      destruct (IHd seen1) as (r2 & seen2 & Hrest & Hmono2).
      + intros d' Hd'. apply Hdeps, elem_of_cons. right. exact Hd'.
      + assert (U ∖ list_to_set seen1 ⊆ U ∖ list_to_set seen0) as Hsub.
        { intros x Hx. apply elem_of_difference in Hx as [HxU Hx1].
          apply elem_of_difference. split; [exact HxU|].
          intros Hx0. apply Hx1. apply elem_of_list_to_set.
          apply Hmono. apply elem_of_list_to_set in Hx0. exact Hx0. }
        apply subseteq_size in Hsub. lia.
      + eexists _, _. split; [exact Hrest|]. auto. }
  destruct (Hloop (dependents dependencies variable) (seen ++ [variable]))
    as (r & seen' & Heq & Hmono); [intros d Hd; eapply Hclosed; exact Hd|exact Hsize1|].
  eexists _, _. split; [exact Heq|]. intros x Hx. apply Hmono, elem_of_app. auto.
Qed.

Lemma isVariableUsed_returns variable fuel :
  size (universe dependencies ∪ {[variable]}) < fuel ->
  exists r seen, used fuel variable [] = Some (r, seen).
Proof.
  intros Hfuel.
  destruct (search_total (universe dependencies ∪ {[variable]})
              (fun w d Hd => proj2 (elem_of_union _ _ _) (or_introl (universe_closed w d Hd)))
              fuel variable []) as (r & seen & Heq & _).
  - set_solver.
  - cbn [list_to_set foldr]. rewrite difference_empty_L. exact Hfuel.
  - eauto.
Qed.

End Search.
End LivenessProps.

(** ** The removal of unused theme variables *)

Module DeadCodeProps.
Import Optimizer Liveness Examples.

Lemma arrayOfNode_in h l :
  (fix arrayIn (l : list AstNode) : option (list AstNode) :=
     match l with
     | [] => None
     | n :: l' =>
         match arrayOfNode h n with
         | Some a => Some a
         | None => arrayIn l'
         end
     end) l = arrayIn h l.
Proof. induction l as [|n l IH]; [reflexivity|]. cbn. rewrite IH. reflexivity. Qed.

Lemma arrayIn_update_all h f l :
  Forall (fun n => arrayOfNode h (updateNode h f n) = f <$> arrayOfNode h n) l ->
  arrayIn h (map (updateNode h f) l) = f <$> arrayIn h l.
Proof.
  induction 1 as [|n l Hn _ IH]; [reflexivity|].
  cbn [map arrayIn]. rewrite Hn. destruct (arrayOfNode h n); [reflexivity|exact IH].
Qed.

Lemma arrayOfNode_update h f n :
  arrayOfNode h (updateNode h f n) = f <$> arrayOfNode h n.
Proof.
  induction n as [s r ns o IH | nm pa r ns o IH | r pr v i o | v o
                 | c r ns o IH | r ns o IH] using AstNode_rect_nested;
    try reflexivity.
  all: cbn [updateNode arrayOfNode]; destruct (Nat.eqb r h) eqn:Hr;
    cbn [setNodes arrayOfNode]; rewrite Hr; [reflexivity|];
    rewrite !arrayOfNode_in; apply arrayIn_update_all; exact IH.
Qed.

Lemma arrayIn_updateIn h f l : arrayIn h (updateIn h f l) = f <$> arrayIn h l.
Proof.
  apply arrayIn_update_all. apply Forall_forall. intros n _. apply arrayOfNode_update.
Qed.

Lemma refs_removeAt idx (l : list AstNode) :
  refOf <$> removeAt idx l = removeAt idx (refOf <$> l).
Proof.
  destruct idx as [i|]; cbn; unfold Js.splice, Js.spliceLast; cbn.
  - rewrite fmap_app, fmap_take, fmap_drop. reflexivity.
  - rewrite fmap_take, length_fmap. reflexivity.
Qed.

(** Splicing the array with handle [h] removes the element from that
    array. *)
Lemma getArray_spliceArray h idx m :
  getArray h (spliceArray h idx m) = removeAt idx <$> getArray h m.
Proof.
  unfold getArray, spliceArray. destruct (Nat.eqb h (newAstRef m)) eqn:Hh.
  - cbn [newAstRef newAst]. rewrite Hh. cbn. rewrite refs_removeAt. reflexivity.
  - cbn [newAstRef newAst hoisted temps]. rewrite Hh, !arrayIn_updateIn.
    destruct (arrayIn h (newAst m)) as [a|]; cbn; [rewrite refs_removeAt; reflexivity|].
    destruct (arrayIn h (hoisted m)) as [a|]; cbn; [rewrite refs_removeAt; reflexivity|].
    rewrite lookup_alter_eq. reflexivity.
Qed.

Lemma indexOf_Some d ids idx :
  indexOf d ids = Some idx ->
  ids !! idx = Some (Some d) /\ forall j, j < idx -> ids !! j <> Some (Some d).
Proof.
  unfold indexOf. revert idx. induction ids as [|x ids IH]; intros idx Hidx; [discriminate|].
  cbn [Js.findIndex] in Hidx. destruct (bool_decide (x = Some d)) eqn:Hx.
  - injection Hidx as <-. apply bool_decide_eq_true in Hx. subst x.
    split; [reflexivity|]. intros j Hj. lia.
  - apply bool_decide_eq_false in Hx.
    destruct (Js.findIndex _ ids) as [k|] eqn:Hk; [|discriminate].
    injection Hidx as <-. destruct (IH k eq_refl) as [Hat Hbefore].
    split; [exact Hat|]. intros [|j] Hj; cbn; [congruence|]. apply Hbefore. lia.
Qed.

Section Pass.
Context {T : Type} `{DesignSystem T}.
Variable E : Externals.
Variable fuel : nat.
Variable theme : T.
Variable dependencies : gmap string (list string).

Lemma removeUnused_kept parent d property value important offs rest used m seen :
  isVariableUsed E theme dependencies fuel property [] = Some (true, seen) ->
  removeUnused E fuel theme dependencies parent
    (Declaration d property value important offs :: rest) used m
  = removeUnused E fuel theme dependencies parent rest
      (if Js.startsWith (prefixKey theme "--animate-") property
       then used ∪ list_to_set (extractKeyframeNames (default "" value))
       else used) m.
Proof. intros Hused. cbn [removeUnused]. rewrite Hused. reflexivity. Qed.

Lemma removeUnused_removed parent d property value important offs rest used m seen ids :
  isVariableUsed E theme dependencies fuel property [] = Some (false, seen) ->
  getArray parent m = Some ids ->
  removeUnused E fuel theme dependencies parent
    (Declaration d property value important offs :: rest) used m
  = (let m := spliceArray parent (indexOf d ids) m in
     match removeAt (indexOf d ids) ids with
     | [] =>
         path ← findNode fuel (newAst m) (isRuleOf parent);
         match path with
         | [] => Ok (used, m)
         | _ :: _ =>
             Ok (used, removeAncestors
                         (rev (AtRoot (newAstRef m) (newAst m) noBodyOffsets :: path)) m)
         end
     | _ :: _ => removeUnused E fuel theme dependencies parent rest used m
     end).
Proof. intros Hused Hids. cbn [removeUnused]. rewrite Hused. cbn. rewrite Hids. reflexivity. Qed.

End Pass.

(** The staticOrUsed reading of the blank theme: nothing is flagged. *)
Lemma blank_unflagged (t : list string) v : staticOrUsed externals t v = false.
Proof. reflexivity. Qed.

Lemma diamond_edges v d : edge diamond v d -> diamondRank v < diamondRank d.
Proof.
  unfold edge, dependents, diamond. rewrite !lookup_insert.
  repeat case_decide; subst; cbn.
  all: rewrite ?lookup_empty; cbn; intros Hd.
  all: repeat (apply elem_of_cons in Hd as [->|Hd]); try (cbn; lia).
  all: exfalso; eapply not_elem_of_nil; exact Hd.
Qed.

Lemma diamond_acyclic v : ~ onCycle diamond v.
Proof.
  assert (Hrank : forall a b, tc (edge diamond) a b -> diamondRank a < diamondRank b).
  { induction 1 as [a b Hab|a b c Hab _ IH].
    - apply diamond_edges. exact Hab.
    - apply diamond_edges in Hab. lia. }
  intros Hc. apply Hrank in Hc. lia.
Qed.




End DeadCodeProps.

(** ** The serializer [toCss], with and without tracking *)

Module SerializerProps.
Import Serializer Spans SpanProps Printing.

Ltac fold_stringifyEach track d :=
  match goal with
  | |- context [?f ?ns ?p] =>
    is_fix f;
    let Heq := fresh "Heq" in
    assert (Heq : forall l q, f l q = stringifyEach track d l q)
      by (let l := fresh "l" in
          intro l; induction l as [|? ? IH]; intros; cbn;
          [reflexivity
          | match goal with
            | |- context [stringify ?t ?n ?d' ?q] =>
                destruct (stringify t n d' q) as [[[? ?] ?]|?]; cbn;
                [rewrite IH|]; reflexivity
            end]);
    rewrite Heq; clear Heq
  end.

(** [stringify] of a rule, with the loop over the children as
    [stringifyEach]. *)
Lemma stringify_rule_eq track depth pos selector h nodes offs :
  stringify track (Rule selector h nodes offs) depth pos
  = (let indent := Js.repeat "  " depth in
     let '(offs, pos) :=
       if track then
         let pos := pos + String.length indent in
         let '(osel, pos) := stamp pos selector (ro_selector offs) in
         let pos := pos + 1 in
         let '(obody, pos) := stamp pos "{" (ro_body offs) in
         let pos := pos + 1 in
         (mkRuleOffsets osel obody, pos)
       else (offs, pos) in
     '(body, nodes', pos) ← stringifyEach track (S depth) nodes pos;
     let css := (indent +:+ selector +:+ " {" +:+ Js.LF)
                +:+ body +:+ indent +:+ "}" +:+ Js.LF in
     let '(offs, pos) :=
       if track then
         let pos := pos + String.length indent in
         let '(obody, pos) := widen pos (ro_body offs) in
         let pos := pos + 1 in
         (mkRuleOffsets (ro_selector offs) obody, pos)
       else (offs, pos) in
     Ok (css, Rule selector h nodes' offs, pos)).
Proof.
  cbn [stringify]. destruct track, offs as [[os|] [ob|]];
    cbn [stamp span ro_selector ro_body]; fold_stringifyEach constr:(true) (S depth) ||
    fold_stringifyEach constr:(false) (S depth); reflexivity.
Qed.

Lemma stringify_atrule_eq track depth pos name params h node nodes offs :
  stringify track (AtRule name params h (node :: nodes) offs) depth pos
  = (let indent := Js.repeat "  " depth in
     let '(offs, pos) :=
       if track then
         let pos := pos + String.length indent in
         let '(oname, pos) := stamp pos name (ao_name offs) in
         let '(oparams, pos) :=
           if Js.seq params "" then (ao_params offs, pos)
           else stamp (pos + 1) params (ao_params offs) in
         let pos := pos + 1 in
         let '(obody, pos) := stamp pos "{" (ao_body offs) in
         let pos := pos + 1 in
         (mkAtRuleOffsets oname oparams obody, pos)
       else (offs, pos) in
     '(body, nodes', pos) ← stringifyEach track (S depth) (node :: nodes) pos;
     let css := (indent +:+ name
                 +:+ (if Js.seq params "" then " " else " " +:+ params +:+ " ")
                 +:+ "{" +:+ Js.LF)
                +:+ body +:+ indent +:+ "}" +:+ Js.LF in
     let '(offs, pos) :=
       if track then
         let pos := pos + String.length indent in
         let '(obody, pos) := widen pos (ao_body offs) in
         let pos := pos + 1 in
         (mkAtRuleOffsets (ao_name offs) (ao_params offs) obody, pos)
       else (offs, pos) in
     Ok (css, AtRule name params h nodes' offs, pos)).
Proof.
  cbn [stringify stringifyEach].
  destruct track, offs as [[on|] [op|] [ob|]], (Js.seq params "");
    cbn [stamp span ao_name ao_params ao_body];
    (destruct (stringify _ node (S depth) _) as [[[c1 node'] q1]|e]; [|reflexivity]);
    cbn [mbind result_bind];
    (fold_stringifyEach constr:(true) (S depth) || fold_stringifyEach constr:(false) (S depth));
    reflexivity.
Qed.

(** *** Without tracking *)

Lemma untracked_each depth ns :
  Forall (fun n => forall d pos, stringify false n d pos = Ok (render d n, n, pos)) ns ->
  forall pos, stringifyEach false depth ns pos = Ok (renderEach depth ns, ns, pos).
Proof.
  induction 1 as [|n ns Hn _ IH]; intros pos; [reflexivity|].
  cbn [stringifyEach renderEach]. rewrite Hn. cbn [mbind result_bind].
  rewrite IH. reflexivity.
Qed.

Lemma untracked_node node : forall depth pos,
  stringify false node depth pos = Ok (render depth node, node, pos).
Proof.
  induction node as [s h ns o IH | nm pa h ns o IH | h pr va im o | va o
                    | c h ns o IH | h ns o IH] using AstNode_rect_nested;
    intros depth pos; try reflexivity.
  - rewrite stringify_rule_eq, render_rule. cbn zeta.
    rewrite (untracked_each _ _ IH). reflexivity.
  - destruct ns as [|n ns]; [reflexivity|].
    rewrite stringify_atrule_eq, render_atrule. cbn zeta.
    rewrite (untracked_each _ _ IH). reflexivity.
Qed.

Lemma untracked_all depth ns pos :
  stringifyEach false depth ns pos = Ok (renderEach depth ns, ns, pos).
Proof. apply untracked_each. apply Forall_forall. intros n _. apply untracked_node. Qed.


(** *** With tracking: the text and what is written *)

Lemma tracked_each_text depth ns :
  Forall (fun n => forall d pos css n' pos',
            stringify true n d pos = Ok (css, n', pos') ->
            css = render d n /\ eraseSpans n' = eraseSpans n) ns ->
  forall pos css ns' pos',
    stringifyEach true depth ns pos = Ok (css, ns', pos') ->
    css = renderEach depth ns /\ map eraseSpans ns' = map eraseSpans ns.
Proof.
  induction 1 as [|n ns Hn _ IH]; intros pos css ns' pos' Heq.
  - injection Heq as <- <- <-. split; reflexivity.
  - cbn [stringifyEach] in Heq.
    destruct (stringify true n depth pos) as [[[c1 n'] p1]|] eqn:H1; [|discriminate].
    cbn [mbind result_bind] in Heq.
    destruct (stringifyEach true depth ns p1) as [[[c2 ns2] p2]|] eqn:H2; [|discriminate].
    injection Heq as <- <- <-.
    destruct (Hn _ _ _ _ _ H1) as [-> Hn']. destruct (IH _ _ _ _ H2) as [-> Hns'].
    split; [reflexivity|]. cbn [map]. rewrite Hn', Hns'. reflexivity.
Qed.

Lemma tracked_node_text node : forall depth pos css node' pos',
  stringify true node depth pos = Ok (css, node', pos') ->
  css = render depth node /\ eraseSpans node' = eraseSpans node.
Proof.
  induction node as [s h ns o IH | nm pa h ns o IH | h pr va im o | va o
                    | c h ns o IH | h ns o IH] using AstNode_rect_nested;
    intros depth pos css node' pos' Heq.
  - rewrite stringify_rule_eq in Heq. cbn zeta in Heq.
    destruct o as [[os|] [ob|]]; cbn [stamp span ro_selector ro_body] in Heq;
      (destruct (stringifyEach true (S depth) ns _) as [[[body ns'] p]|] eqn:He;
       [|discriminate]);
      cbn [mbind result_bind widen span dst set_dst ro_selector ro_body] in Heq;
      injection Heq as <- <- <-;
      apply (tracked_each_text _ _ IH) in He as [-> Hmap];
      (split; [rewrite render_rule; reflexivity|]);
      cbn [eraseSpans]; rewrite Hmap; reflexivity.
  - destruct ns as [|n ns].
    + cbn [stringify] in Heq.
      destruct o as [[on|] [op|] [ob|]]; cbn [stamp span ao_name ao_params ao_body] in Heq;
        injection Heq as <- <- <-; split; reflexivity.
    + rewrite stringify_atrule_eq in Heq. cbn zeta in Heq.
      destruct o as [[on|] [op|] [ob|]], (Js.seq pa "") eqn:Hpa;
        cbn [stamp span ao_name ao_params ao_body] in Heq;
        (destruct (stringifyEach true (S depth) (n :: ns) _) as [[[body ns'] p]|] eqn:He;
         [|discriminate]);
        cbn [mbind result_bind widen span dst set_dst ao_name ao_params ao_body] in Heq;
        injection Heq as <- <- <-;
        apply (tracked_each_text _ _ IH) in He as [-> Hmap];
        (destruct ns' as [|n' ns']; [discriminate Hmap|]);
        (split; [rewrite render_atrule, Hpa; reflexivity|]);
        cbn [eraseSpans]; rewrite Hmap; reflexivity.
  - cbn [stringify] in Heq.
    destruct o as [[op|] [ov|]], va as [v|]; cbn [stamp span do_property do_value] in Heq;
      try discriminate Heq; injection Heq as <- <- <-; split; reflexivity.
  - cbn [stringify] in Heq.
    destruct o as [[ov|]]; cbn [stamp span co_value] in Heq;
      injection Heq as <- <- <-; split; reflexivity.
  - injection Heq as <- <- <-. split; reflexivity.
  - injection Heq as <- <- <-. split; reflexivity.
Qed.


(** *** With tracking: when [span(undefined)] is reached *)

Lemma tracked_each_outcome depth ns :
  Forall (fun n => forall d pos, outcome (spansUndefined n) (stringify true n d pos)) ns ->
  forall pos, outcome (existsb spansUndefined ns) (stringifyEach true depth ns pos).
Proof.
  induction 1 as [|n ns Hn _ IH]; intros pos; [eexists; reflexivity|].
  cbn [stringifyEach existsb]. specialize (Hn depth pos).
  destruct (spansUndefined n); cbn [orb outcome] in *.
  - rewrite Hn. reflexivity.
  - destruct Hn as [[[c1 n'] p1] ->]. cbn [mbind result_bind].
    specialize (IH p1). destruct (existsb spansUndefined ns); cbn [outcome] in *.
    + rewrite IH. reflexivity.
    + destruct IH as [[[c2 ns'] p2] ->]. eexists; reflexivity.
Qed.

Lemma tracked_node_outcome node : forall depth pos,
  outcome (spansUndefined node) (stringify true node depth pos).
Proof.
  induction node as [s h ns o IH | nm pa h ns o IH | h pr va im o | va o
                    | c h ns o IH | h ns o IH] using AstNode_rect_nested;
    intros depth pos.
  - rewrite stringify_rule_eq. cbn zeta. cbn [spansUndefined].
    destruct o as [[os|] [ob|]]; cbn [stamp span ro_selector ro_body];
      match goal with
      | |- context [stringifyEach true (S depth) ns ?q] =>
          pose proof (tracked_each_outcome (S depth) _ IH q) as He
      end;
      (destruct (existsb spansUndefined ns); cbn [outcome] in *;
       [rewrite He; reflexivity | destruct He as [[[body ns'] p] ->]; eexists; reflexivity]).
  - destruct ns as [|n ns].
    + cbn [stringify spansUndefined existsb outcome].
      destruct o as [[on|] [op|] [ob|]]; eexists; reflexivity.
    + rewrite stringify_atrule_eq. cbn zeta. cbn [spansUndefined].
      destruct o as [[on|] [op|] [ob|]], (Js.seq pa "");
        cbn [stamp span ao_name ao_params ao_body];
        match goal with
        | |- context [stringifyEach true (S depth) (n :: ns) ?q] =>
            pose proof (tracked_each_outcome (S depth) _ IH q) as He
        end;
        (destruct (existsb spansUndefined (n :: ns)); cbn [outcome] in *;
         [rewrite He; reflexivity | destruct He as [[[body ns'] p] ->]; eexists; reflexivity]).
  - cbn [stringify spansUndefined].
    destruct o as [[op|] [ov|]], va as [v|]; cbn [stamp span do_property do_value];
      try (eexists; reflexivity); reflexivity.
  - cbn [stringify spansUndefined outcome]. destruct o as [[ov|]]; eexists; reflexivity.
  - eexists; reflexivity.
  - eexists; reflexivity.
Qed.

Lemma tracked_all_outcome depth ns pos :
  outcome (existsb spansUndefined ns) (stringifyEach true depth ns pos).
Proof.
  apply tracked_each_outcome. apply Forall_forall. intros n _. apply tracked_node_outcome.
Qed.


(** *** With tracking: where the spans lie *)

Ltac fold_withinEach :=
  match goal with
  | |- context [?f ?ns] =>
    is_fix f;
    let Heq := fresh "Heq" in
    assert (Heq : forall l, f l = spansWithinEach _ _ l)
      by (let l := fresh "l" in
          intro l; induction l as [|? ? IH]; cbn; [|rewrite IH]; reflexivity);
    rewrite Heq; clear Heq
  end.

Lemma spansWithin_eq lo hi node :
  spansWithin lo hi node
  = match node with
    | Rule _ _ nodes o =>
        within lo hi (ro_selector o) /\ within lo hi (ro_body o)
        /\ spansWithinEach lo hi nodes
    | AtRule _ _ _ nodes o =>
        within lo hi (ao_name o) /\ within lo hi (ao_params o) /\ within lo hi (ao_body o)
        /\ spansWithinEach lo hi nodes
    | Declaration _ _ _ _ o => within lo hi (do_property o) /\ within lo hi (do_value o)
    | Comment _ o => within lo hi (co_value o)
    | Context _ _ nodes o | AtRoot _ nodes o =>
        within lo hi (bo_body o) /\ spansWithinEach lo hi nodes
    end.
Proof. destruct node; cbn [spansWithin]; try fold_withinEach; reflexivity. Qed.

Lemma within_wider lo hi lo' hi' o :
  lo' <= lo -> hi <= hi' -> within lo hi o -> within lo' hi' o.
Proof.
  intros Hlo Hhi. unfold within. destruct o as [off|]; [|trivial].
  destruct (dst off); [|trivial]. lia.
Qed.

Lemma within_noDst lo hi o : noDst o = true -> within lo hi o.
Proof.
  unfold noDst, within. destruct o as [off|]; [|trivial].
  destruct (dst off); [discriminate|trivial].
Qed.

Lemma spansWithinEach_all lo hi (P : AstNode -> Prop) ns :
  Forall (fun n => P n -> spansWithin lo hi n) ns ->
  Forall P ns -> spansWithinEach lo hi ns.
Proof.
  induction 1 as [|n ns Hn _ IH]; intros Hall; [exact I|].
  apply Forall_cons in Hall as [Hp Hall]. split; auto.
Qed.

Lemma spansWithinEach_Forall lo hi ns :
  spansWithinEach lo hi ns <-> Forall (spansWithin lo hi) ns.
Proof.
  induction ns as [|n ns IH]; cbn [spansWithinEach].
  - split; constructor.
  - rewrite Forall_cons, IH. reflexivity.
Qed.

Lemma forallb_Forall_true {A} (p : A -> bool) l :
  forallb p l = true -> Forall (fun x => p x = true) l.
Proof.
  induction l as [|x l IH]; cbn [forallb]; [constructor|].
  intros Hb. apply andb_true_iff in Hb as [Hx Hl]. constructor; auto.
Qed.

Lemma spansWithin_wider lo hi lo' hi' node :
  lo' <= lo -> hi <= hi' -> spansWithin lo hi node -> spansWithin lo' hi' node.
Proof.
  intros Hlo Hhi.
  induction node as [s h ns o IH | nm pa h ns o IH | h pr va im o | va o
                    | c h ns o IH | h ns o IH] using AstNode_rect_nested;
    rewrite !spansWithin_eq; rewrite ?spansWithinEach_Forall;
    intros Hn; repeat match goal with H : _ /\ _ |- _ => destruct H end;
    repeat split; eauto using within_wider.
  all: eapply Forall_impl; [eapply Forall_and; split; [exact IH|eassumption]|];
    cbn; intros x [Hx1 Hx2]; auto.
Qed.

Lemma notWritten_within lo hi node : notWritten node = true -> spansWithin lo hi node.
Proof.
  induction node as [s h ns o IH | nm pa h ns o IH | h pr va im o | va o
                    | c h ns o IH | h ns o IH] using AstNode_rect_nested;
    rewrite spansWithin_eq; cbn [notWritten]; rewrite ?andb_true_iff;
    intros Hn; repeat match goal with H : _ /\ _ |- _ => destruct H end;
    repeat split; auto using within_noDst.
  all: eapply spansWithinEach_all; [exact IH|]; apply forallb_Forall_true; assumption.
Qed.


Lemma spansWithinEach_wider lo hi lo' hi' ns :
  lo' <= lo -> hi <= hi' -> spansWithinEach lo hi ns -> spansWithinEach lo' hi' ns.
Proof.
  intros Hlo Hhi. rewrite !spansWithinEach_Forall. intros Hall.
  eapply Forall_impl; [exact Hall|].
  intros n. apply spansWithin_wider; assumption.
Qed.

Lemma tracked_each_bounds depth ns :
  Forall (fun n => forall d pos css n' pos',
            stringify true n d pos = Ok (css, n', pos') ->
            notWritten n = true ->
            bounded pos css pos' /\ spansWithin pos pos' n') ns ->
  forall pos css ns' pos',
    stringifyEach true depth ns pos = Ok (css, ns', pos') ->
    forallb notWritten ns = true ->
    bounded pos css pos' /\ spansWithinEach pos pos' ns'.
Proof.
  unfold bounded.
  induction 1 as [|n ns Hn _ IH]; intros pos css ns' pos' Heq Hfresh.
  - injection Heq as <- <- <-. cbn. repeat split; lia.
  - cbn [stringifyEach] in Heq. cbn [forallb] in Hfresh.
    apply andb_true_iff in Hfresh as [Hf1 Hf2].
    destruct (stringify true n depth pos) as [[[c1 n'] p1]|] eqn:H1; [|discriminate].
    cbn [mbind result_bind] in Heq.
    destruct (stringifyEach true depth ns p1) as [[[c2 ns2] p2]|] eqn:H2; [|discriminate].
    injection Heq as <- <- <-.
    destruct (Hn _ _ _ _ _ H1 Hf1) as [[Ha Hb] Hc].
    destruct (IH _ _ _ _ H2 Hf2) as [[Ha' Hb'] Hc'].
    rewrite length_app. repeat split; try lia.
    + eapply spansWithin_wider; [| |exact Hc]; lia.
    + eapply spansWithinEach_wider; [| |exact Hc']; lia.
Qed.

Ltac solve_lengths :=
  rewrite ?length_app; unfold Js.LF; cbn [String.length] in *; lia.

Ltac bounds_done :=
  repeat match goal with
         | |- _ /\ _ => split
         | |- True => exact I
         | |- within _ _ _ => apply within_noDst; assumption
         | H : noDst (Some ?o) = true |- match dst ?o with _ => _ end =>
             cbn [noDst] in H; destruct (dst o); [discriminate H|exact I]
         | H : spansWithinEach _ _ ?ns |- spansWithinEach _ _ ?ns =>
             eapply spansWithinEach_wider; [| |exact H]; solve_lengths
         end;
  try solve_lengths.

Lemma tracked_node_bounds node : forall depth pos css node' pos',
  stringify true node depth pos = Ok (css, node', pos') ->
  notWritten node = true ->
  bounded pos css pos' /\ spansWithin pos pos' node'.
Proof.
  unfold bounded.
  induction node as [s h ns o IH | nm pa h ns o IH | h pr va im o | va o
                    | c h ns o IH | h ns o IH] using AstNode_rect_nested;
    intros depth pos css node' pos' Heq Hfresh.
  - rewrite stringify_rule_eq in Heq. cbn zeta in Heq.
    cbn [notWritten] in Hfresh. rewrite !andb_true_iff in Hfresh.
    destruct Hfresh as [[Hf1 Hf2] Hf3].
    destruct o as [[os|] [ob|]]; cbn [stamp span ro_selector ro_body] in Heq;
      (destruct (stringifyEach true (S depth) ns _) as [[[body ns'] p]|] eqn:He;
       [|discriminate]);
      cbn [mbind result_bind widen span dst set_dst ro_selector ro_body] in Heq;
      injection Heq as <- <- <-;
      apply (tracked_each_bounds _ _ IH) in He as [[Ha Hb] Hc]; try assumption;
      rewrite spansWithin_eq;
      cbn [within ro_selector ro_body dst set_dst span_start span_end];
      bounds_done.
  - cbn [notWritten] in Hfresh. rewrite !andb_true_iff in Hfresh.
    destruct Hfresh as [[[Hf1 Hf2] Hf3] Hf4].
    destruct ns as [|n ns].
    + cbn [stringify] in Heq.
      destruct o as [[on|] [op|] [ob|]]; cbn [stamp span ao_name ao_params ao_body] in Heq;
        injection Heq as <- <- <-;
        rewrite spansWithin_eq;
        cbn [within ao_name ao_params ao_body dst set_dst span_start span_end
             spansWithinEach] in *;
        bounds_done.
    + rewrite stringify_atrule_eq in Heq. cbn zeta in Heq.
      destruct o as [[on|] [op|] [ob|]], (Js.seq pa "") eqn:Hpa;
        cbn [stamp span ao_name ao_params ao_body] in Heq;
        (destruct (stringifyEach true (S depth) (n :: ns) _) as [[[body ns'] p]|] eqn:He;
         [|discriminate]);
        cbn [mbind result_bind widen span dst set_dst ao_name ao_params ao_body] in Heq;
        injection Heq as <- <- <-;
        apply (tracked_each_bounds _ _ IH) in He as [[Ha Hb] Hc]; try assumption;
        rewrite spansWithin_eq;
        cbn [within ao_name ao_params ao_body dst set_dst span_start span_end] in *;
        bounds_done.
  - cbn [stringify] in Heq. cbn [notWritten] in Hfresh.
    destruct o as [[op|] [ov|]], va as [v|], im;
      cbn [stamp span do_property do_value] in Heq;
      try discriminate Heq; injection Heq as <- <- <-;
      rewrite spansWithin_eq;
      cbn [within do_property do_value dst set_dst span_start span_end valueText] in *;
      bounds_done.
  - cbn [stringify] in Heq.
    destruct o as [[ov|]]; cbn [stamp span co_value] in Heq;
      injection Heq as <- <- <-;
      rewrite spansWithin_eq;
      cbn [within co_value dst set_dst span_start span_end] in *;
      bounds_done.
  - injection Heq as <- <- <-. split; [cbn; lia|]. apply notWritten_within, Hfresh.
  - injection Heq as <- <- <-. split; [cbn; lia|]. apply notWritten_within, Hfresh.
Qed.


Lemma renderEach_app depth a b :
  renderEach depth (a ++ b) = renderEach depth a +:+ renderEach depth b.
Proof.
  induction a as [|n a IH]; [reflexivity|].
  cbn [app renderEach]. rewrite IH, app_assoc_s. reflexivity.
Qed.

Lemma toCss_untracked ast : toCss ast false = Ok (renderEach 0 ast, ast).
Proof. unfold toCss, stringifyAll. rewrite untracked_all. reflexivity. Qed.

Lemma tracking_untracked_text ast text ast' :
  toCss ast true = Ok (text, ast') ->
  toCss ast false = Ok (text, ast) /\ map eraseSpans ast' = map eraseSpans ast.
Proof.
  intros Heq. unfold toCss, stringifyAll in Heq.
  destruct (stringifyEach true 0 ast 0) as [[[css ns'] p]|] eqn:He; [|discriminate].
  cbn [mbind result_bind] in Heq. injection Heq as <- <-.
  eapply tracked_each_text in He as [-> Hmap].
  - split; [apply toCss_untracked|exact Hmap].
  - apply Forall_forall. intros n _. apply tracked_node_text.
Qed.

(** Without tracking [toCss] always returns and leaves the tree as it
    is.  With tracking, when it returns, the text is the one it returns
    without tracking, and the tree differs from the one passed at most in
    the [dst] of its [Offsets]. *)
Theorem tracking_writes_only_spans ast :
  (exists text, toCss ast false = Ok (text, ast))
  /\ forall text ast',
       toCss ast true = Ok (text, ast') ->
       toCss ast false = Ok (text, ast) /\ map eraseSpans ast' = map eraseSpans ast.
Proof.
  split; [eexists; apply toCss_untracked|].
  intros text ast' Heq. apply tracking_untracked_text, Heq.
Qed.

Lemma tracking_writes_only_spans_witness :
  toCss Examples.trackedRule false
  = Ok (".a {" +:+ Js.LF +:+ "  color: red;" +:+ Js.LF +:+ "}" +:+ Js.LF, Examples.trackedRule)
  /\ map eraseSpans
       [Rule ".a" 0
          [Declaration 1 "color" (Some "red") false
             (mkDeclOffsets (Some (set_dst (Some (mkSpan 7 12)) Examples.parsed))
                            (Some (set_dst (Some (mkSpan 14 17)) Examples.parsed)))]
          (mkRuleOffsets (Some (set_dst (Some (mkSpan 0 2)) Examples.parsed))
                         (Some (set_dst (Some (mkSpan 3 20)) Examples.parsed)))]
     = map eraseSpans Examples.trackedRule.
Proof.
  apply (proj2 (tracking_writes_only_spans Examples.trackedRule)). reflexivity.
Defined.

(** With tracking [toCss] throws a [TypeError] when a declaration that
    is printed has no value and carries a value [Offsets], and returns
    otherwise. *)
Theorem tracked_toCss_throws_on_undefined_value ast :
  (existsb spansUndefined ast = true -> toCss ast true = Fail TypeError)
  /\ (existsb spansUndefined ast = false -> exists text ast', toCss ast true = Ok (text, ast')).
Proof.
  pose proof (tracked_all_outcome 0 ast 0) as Hout.
  unfold toCss, stringifyAll. split; intros Hs; rewrite Hs in Hout; cbn [outcome] in Hout.
  - rewrite Hout. reflexivity.
  - destruct Hout as [[[css ns'] p] ->]. eexists _, _. reflexivity.
Qed.

Lemma tracked_toCss_throws_on_undefined_value_witness :
  toCss [Rule ".a" 0
           [Declaration 1 "color" None false (mkDeclOffsets None (Some Examples.parsed))]
           noRuleOffsets] true
  = Fail TypeError
  /\ exists text ast',
       toCss [Rule ".a" 0 [Declaration 1 "color" None false noDeclOffsets] noRuleOffsets] true
       = Ok (text, ast').
Proof.
  split.
  - apply (proj1 (tracked_toCss_throws_on_undefined_value _)). reflexivity.
  - apply (proj2 (tracked_toCss_throws_on_undefined_value _)). reflexivity.
Defined.

(** The text of a list of trees is the text of its front followed by the
    text of its back. *)
Theorem toCss_of_concatenation a b :
  exists ta tb,
    toCss a false = Ok (ta, a) /\ toCss b false = Ok (tb, b)
    /\ toCss (a ++ b) false = Ok (ta +:+ tb, a ++ b)
    /\ forall t ab', toCss (a ++ b) true = Ok (t, ab') -> t = ta +:+ tb.
Proof.
  exists (renderEach 0 a), (renderEach 0 b).
  rewrite !toCss_untracked, renderEach_app. repeat split.
  intros t ab' Heq.
  destruct (tracking_untracked_text _ _ _ Heq) as [Hu _].
  rewrite toCss_untracked, renderEach_app in Hu. injection Hu as <-. reflexivity.
Qed.


(** When no [dst] is written in the tree passed, every [dst] a tracked
    [toCss] leaves in it is a span of the text returned: it starts at or
    before its end, and ends at or before the end of the text. *)
Theorem tracked_spans_lie_in_text ast text ast' :
  forallb notWritten ast = true ->
  toCss ast true = Ok (text, ast') ->
  spansWithinEach 0 (String.length text) ast'.
Proof.
  intros Hfresh Heq. unfold toCss, stringifyAll in Heq.
  destruct (stringifyEach true 0 ast 0) as [[[css ns'] p]|] eqn:He; [|discriminate].
  cbn [mbind result_bind] in Heq. injection Heq as <- <-.
  eapply tracked_each_bounds in He as [[_ Hp] Hin]; [|
    apply Forall_forall; intros n _; apply tracked_node_bounds | exact Hfresh].
  eapply spansWithinEach_wider; [| |exact Hin]; lia.
Qed.

Lemma tracked_spans_lie_in_text_witness :
  spansWithinEach 0 31
    [atRule 0 "@layer" "properties" [];
     Declaration 1 "color" (Some "red") false
       (mkDeclOffsets (Some (set_dst (Some (mkSpan 3 8)) Examples.parsed))
                      (Some (set_dst (Some (mkSpan 10 13)) Examples.parsed)))].
Proof.
  apply (tracked_spans_lie_in_text Examples.untrackedThenTracked
           ("@layer properties;" +:+ Js.LF +:+ "color: red;" +:+ Js.LF));
    reflexivity.
Defined.

End SerializerProps.

(** ** What [walk] shows to a visitor that replaces nothing *)

Module VisitProps.
Import Walker Visits.

Lemma traceNode_each verdict ast path ctx :
  (fix traceEach (ast : list AstNode) (path : list AstNode)
       (ctx : gmap string CtxValue) : list (AstNode * Utils) * bool :=
     match ast with
     | [] => ([], false)
     | n :: rest =>
         let '(calls, stopped) := traceNode verdict n path ctx in
         if stopped : bool then (calls, true)
         else let '(calls', stopped') := traceEach rest path ctx in
              (calls ++ calls', stopped')
     end) ast path ctx = traceEach verdict ast path ctx.
Proof.
  induction ast as [|n rest IH]; [reflexivity|].
  cbn [traceEach]. destruct (traceNode verdict n path ctx) as [calls [|]]; [reflexivity|].
  rewrite IH. reflexivity.
Qed.

Lemma traceNode_eq verdict node path ctx :
  traceNode verdict node path ctx
  = match node with
    | Context c _ nodes _ => traceEach verdict nodes path (mergeContext ctx c)
    | _ =>
        let call := (node, mkUtils (last path) ctx (path ++ [node])) in
        match verdict node with
        | Stop => ([call], true)
        | Skip => ([call], false)
        | Continue =>
            let '(calls, stopped) :=
              traceEach verdict (match nodesOf node with Some nodes => nodes | None => [] end)
                (path ++ [node]) ctx in
            (call :: calls, stopped)
        end
    end.
Proof.
  destruct node; cbn [traceNode nodesOf]; rewrite ?traceNode_each; reflexivity.
Qed.

Lemma size_cons n ns : size (n :: ns) = sizeNode n + size ns.
Proof. reflexivity. Qed.

Lemma sizeNode_nodes node nodes :
  nodesOf node = Some nodes -> sizeNode node = S (size nodes).
Proof. destruct node; intros [= <-]; reflexivity. Qed.

Lemma sizeNode_pos node : 0 < sizeNode node.
Proof. destruct node; cbn; lia. Qed.

Lemma setNodes_same node nodes : nodesOf node = Some nodes -> setNodes nodes node = node.
Proof. destruct node; intros [= <-]; reflexivity. Qed.

Section Observer.
Context {V : Type}.
Variable step : AstNode -> Utils -> V -> V.
Variable verdict : AstNode -> WalkAction.

Lemma fed_app calls1 calls2 v :
  fed step (calls1 ++ calls2) v = fed step calls2 (fed step calls1 v).
Proof. apply foldl_app. Qed.

(** [walk] from the index [i] on, with enough fuel for the nodes from
    there on. *)
Lemma walk_observer fuel : forall ast i path ctx v,
  size (drop i ast) < fuel ->
  walk (observer step verdict) fuel ast i path ctx v
  = Some (ast, fed step (traceEach verdict (drop i ast) path ctx).1 v,
          (traceEach verdict (drop i ast) path ctx).2).
Proof.
  induction fuel as [|fuel IH]; intros ast i path ctx v Hfuel; [lia|].
  cbn [walk]. destruct (ast !! i) as [node|] eqn:Hi.
  - rewrite (drop_S _ _ _ Hi) in *. rewrite size_cons in Hfuel.
    cbn [traceEach]. rewrite traceNode_eq.
    pose proof (sizeNode_pos node) as Hpos.
    destruct node as [s h ns o | nm pa h ns o | h pr va im o | va o | c h ns o | h ns o].
    5: { (* context *)
      cbn [sizeNode] in Hfuel. change (foldr _ 0 ns) with (size ns) in Hfuel.
      rewrite (IH ns 0) by (rewrite drop_0; lia). rewrite drop_0.
      cbn [mbind option_bind]. rewrite list_insert_id by exact Hi.
      destruct (traceEach verdict ns path (mergeContext ctx c)) as [calls [|]]; cbn [fst snd].
      - reflexivity.
      - rewrite IH by lia.
        destruct (traceEach verdict (drop (S i) ast) path ctx) as [calls' stopped'].
        cbn [fst snd]. rewrite fed_app. reflexivity. }
    all: unfold observer at 1; cbn zeta; cbn [nodesOf traceEach];
      destruct (verdict _) eqn:Hv; cbn [fst snd].
    all: try reflexivity.
    all: try (rewrite IH by lia;
              destruct (traceEach verdict (drop (S i) ast) path ctx) as [calls' stopped'];
              cbn [fst snd]; reflexivity).
    all: match goal with
         | |- context [walk _ _ ?ns 0 _ _ _] =>
             cbn [sizeNode] in Hfuel; change (foldr _ 0 ns) with (size ns) in Hfuel;
             rewrite (IH ns 0) by (rewrite drop_0; lia); rewrite drop_0;
             cbn [mbind option_bind setNodes]; rewrite list_insert_id by exact Hi;
             match goal with
             | |- context [traceEach _ ns ?p ?c] =>
                 destruct (traceEach verdict ns p c) as [calls [|]]
             end; cbn [fst snd]; [reflexivity|];
             rewrite IH by lia;
             destruct (traceEach verdict (drop (S i) ast) path ctx) as [calls' stopped'];
             cbn [fst snd]; unfold fed; cbn [foldl]; rewrite foldl_app; reflexivity
         end.
  - rewrite drop_ge by (apply lookup_ge_None; exact Hi). reflexivity.
Qed.
End Observer.


Lemma fed_remember calls seen : fed remember calls seen = seen ++ calls.*1.
Proof.
  revert seen. induction calls as [|call calls IH]; intros seen.
  - cbn. rewrite app_nil_r. reflexivity.
  - unfold fed in *. cbn [foldl fmap list_fmap]. rewrite IH. unfold remember.
    rewrite <- app_assoc. reflexivity.
Qed.

(** *** A visitor that always continues *)

Lemma trace_continue_each ast :
  Forall (fun node => forall path ctx,
            (traceNode (fun _ => Continue) node path ctx).2 = false
            /\ (traceNode (fun _ => Continue) node path ctx).1.*1 = preorderNode node) ast ->
  forall path ctx,
    (traceEach (fun _ => Continue) ast path ctx).2 = false
    /\ (traceEach (fun _ => Continue) ast path ctx).1.*1 = flat_map preorderNode ast.
Proof.
  induction 1 as [|node rest Hnode _ IH]; intros path ctx; [split; reflexivity|].
  cbn [traceEach flat_map]. destruct (Hnode path ctx) as [Hs Hc].
  destruct (traceNode (fun _ => Continue) node path ctx) as [calls stopped].
  cbn [fst snd] in Hs, Hc. subst stopped.
  destruct (IH path ctx) as [Hs' Hc'].
  destruct (traceEach (fun _ => Continue) rest path ctx) as [calls' stopped'].
  cbn [fst snd] in *. split; [exact Hs'|]. rewrite fmap_app, Hc, Hc'. reflexivity.
Qed.

Lemma trace_continue_node node : forall path ctx,
  (traceNode (fun _ => Continue) node path ctx).2 = false
  /\ (traceNode (fun _ => Continue) node path ctx).1.*1 = preorderNode node.
Proof.
  induction node as [s h ns o IH | nm pa h ns o IH | h pr va im o | va o
                    | c h ns o IH | h ns o IH] using AstNode_rect_nested;
    intros path ctx; rewrite traceNode_eq; cbn [nodesOf preorderNode traceEach fst snd];
    try (split; reflexivity).
  1, 2, 4: match goal with
           | |- context [traceEach _ ?l ?p ?c] =>
               destruct (trace_continue_each _ IH p c) as [Hs Hc];
               destruct (traceEach (fun _ => Continue) l p c) as [calls stopped]
           end; cbn [fst snd] in *; split; [exact Hs|];
           cbn [fmap list_fmap fst]; rewrite <- Hc; reflexivity.
  apply (trace_continue_each _ IH).
Qed.

Lemma trace_continue ast path ctx :
  (traceEach (fun _ => Continue) ast path ctx).2 = false
  /\ (traceEach (fun _ => Continue) ast path ctx).1.*1 = preorder ast.
Proof.
  apply trace_continue_each. apply Forall_forall. intros node _. apply trace_continue_node.
Qed.

(** [walk] with a visitor that replaces nothing and always continues:
    given fuel for the nodes of the tree, the walk returns, is not
    stopped and leaves the tree as it is; the visitor is called once on
    every node that is not a context node, a parent before its children,
    siblings in their order. *)
Theorem walk_visits_parents_first {V : Type} (step : AstNode -> Utils -> V -> V)
    fuel ast path ctx v :
  size ast < fuel ->
  walk (observer step (fun _ => Continue)) fuel ast 0 path ctx v
  = Some (ast, fed step (traceEach (fun _ => Continue) ast path ctx).1 v, false)
  /\ (traceEach (fun _ => Continue) ast path ctx).1.*1 = preorder ast
  /\ walk (observer remember (fun _ => Continue)) fuel ast 0 [] ∅ []
     = Some (ast, preorder ast, false).
Proof.
  intros Hfuel. repeat apply conj.
  - rewrite walk_observer by (rewrite drop_0; exact Hfuel). rewrite drop_0.
    rewrite (proj1 (trace_continue ast path ctx)). reflexivity.
  - apply trace_continue.
  - rewrite walk_observer by (rewrite drop_0; exact Hfuel). rewrite drop_0.
    rewrite fed_remember, (proj1 (trace_continue ast [] ∅)),
      (proj2 (trace_continue ast [] ∅)).
    reflexivity.
Qed.

Lemma walk_visits_parents_first_witness :
  walk (observer remember (fun _ => Continue)) 5
    [Rule ".a" 0 [Context ∅ 1 [decl 2 "color" (Some "red")] noBodyOffsets] noRuleOffsets;
     Comment "x" noCommentOffsets] 0 [] ∅ []
  = Some ([Rule ".a" 0 [Context ∅ 1 [decl 2 "color" (Some "red")] noBodyOffsets]
             noRuleOffsets;
           Comment "x" noCommentOffsets],
          [Rule ".a" 0 [Context ∅ 1 [decl 2 "color" (Some "red")] noBodyOffsets]
             noRuleOffsets;
           decl 2 "color" (Some "red");
           Comment "x" noCommentOffsets], false).
Proof.
  refine (proj2 (proj2 (walk_visits_parents_first remember 5 _ [] ∅ [] _))).
  cbn. lia.
Defined.

(** *** A visitor that always skips *)

Lemma trace_skip ast path ctx :
  (traceEach (fun _ => Skip) ast path ctx).2 = false
  /\ (traceEach (fun _ => Skip) ast path ctx).1.*1 = surface ast.
Proof.
  assert (Hnode : forall node path ctx,
             (traceNode (fun _ => Skip) node path ctx).2 = false
             /\ (traceNode (fun _ => Skip) node path ctx).1.*1 = surfaceNode node).
  { intros node.
    induction node as [s h ns o IH | nm pa h ns o IH | h pr va im o | va o
                      | c h ns o IH | h ns o IH] using AstNode_rect_nested;
      intros path0 ctx0; rewrite traceNode_eq; cbn [surfaceNode fst snd];
      try (split; reflexivity).
    generalize (mergeContext ctx0 c). intros ctx1.
    induction IH as [|n rest Hn _ IHrest]; [split; reflexivity|].
    cbn [traceEach flat_map]. destruct (Hn path0 ctx1) as [Hs Hc].
    destruct (traceNode (fun _ => Skip) n path0 ctx1) as [calls stopped].
    cbn [fst snd] in Hs, Hc. subst stopped. destruct IHrest as [Hs' Hc'].
    destruct (traceEach (fun _ => Skip) rest path0 ctx1) as [calls' stopped'].
    cbn [fst snd] in *. split; [exact Hs'|]. rewrite fmap_app, Hc, Hc'. reflexivity. }
  induction ast as [|n rest IH]; [split; reflexivity|].
  cbn [traceEach]. destruct (Hnode n path ctx) as [Hs Hc].
  destruct (traceNode (fun _ => Skip) n path ctx) as [calls stopped].
  cbn [fst snd] in Hs, Hc. subst stopped. destruct IH as [Hs' Hc'].
  destruct (traceEach (fun _ => Skip) rest path ctx) as [calls' stopped'].
  cbn [fst snd] in *. split; [exact Hs'|].
  unfold surface. cbn [flat_map]. rewrite fmap_app, Hc, Hc'. reflexivity.
Qed.

(** [walk] with a visitor that replaces nothing and always skips: the
    visitor is called on the nodes of the list and on the nodes that
    context nodes put in their place, and on nothing below them. *)
Theorem walk_skip_stays_on_the_surface fuel ast :
  size ast < fuel ->
  walk (observer remember (fun _ => Skip)) fuel ast 0 [] ∅ []
  = Some (ast, surface ast, false).
Proof.
  intros Hfuel.
  rewrite (walk_observer remember (fun _ => Skip)) by (rewrite drop_0; exact Hfuel).
  rewrite drop_0, fed_remember, (proj1 (trace_skip ast [] ∅)), (proj2 (trace_skip ast [] ∅)).
  reflexivity.
Qed.

Lemma walk_skip_stays_on_the_surface_witness :
  walk (observer remember (fun _ => Skip)) 5
    [Context ∅ 1 [Rule ".a" 0 [decl 2 "color" (Some "red")] noRuleOffsets] noBodyOffsets;
     Comment "x" noCommentOffsets] 0 [] ∅ []
  = Some ([Context ∅ 1 [Rule ".a" 0 [decl 2 "color" (Some "red")] noRuleOffsets]
             noBodyOffsets;
           Comment "x" noCommentOffsets],
          [Rule ".a" 0 [decl 2 "color" (Some "red")] noRuleOffsets;
           Comment "x" noCommentOffsets], false).
Proof.
  refine (walk_skip_stays_on_the_surface 5 _ _). cbn. lia.
Defined.


(** *** The visitor of [findNode] *)

Ltac walk_ext_case visit2 fuel IH i ast :=
  match goal with
  | |- context [visit2 ?n ?u ?w] =>
      let v' := fresh "v'" in
      let replaced := fresh "replaced" in
      let status := fresh "status" in
      destruct (visit2 n u w) as [[v' replaced] status];
      destruct replaced as [?newNode|];
      [destruct (replaceWith i newNode ast) as [? ?]; destruct status; apply IH|];
      destruct status; rewrite ?IH; try reflexivity; cbn [nodesOf]; rewrite ?IH;
      try reflexivity;
      match goal with
      | |- context [walk visit2 fuel ?l 0 ?p ?c ?x] =>
          destruct (walk visit2 fuel l 0 p c x) as [[[? ?] [|]]|]
      end; cbn [mbind option_bind]; rewrite ?IH; reflexivity
  end.

Lemma walk_ext {V : Type}
    (visit1 visit2 : AstNode -> Utils -> V -> V * option (list AstNode) * WalkAction) :
  (forall node utils v, visit1 node utils v = visit2 node utils v) ->
  forall fuel ast i path ctx v,
    walk visit1 fuel ast i path ctx v = walk visit2 fuel ast i path ctx v.
Proof.
  intros Hext. induction fuel as [|fuel IH]; intros ast i path ctx v; [reflexivity|].
  cbn [walk]. destruct (ast !! i) as [node|]; [|reflexivity].
  destruct node as [s h ns o | nm pa h ns o | h pr va im o | va o | c h ns o | h ns o].
  5: { rewrite IH. destruct (walk visit2 fuel ns 0 path _ v) as [[[ns' v'] [|]]|];
       cbn [mbind option_bind]; rewrite ?IH; reflexivity. }
  all: rewrite Hext; walk_ext_case visit2 fuel IH i ast.
Qed.


Lemma findNode_observer fuel ast fn :
  Optimizer.findNode fuel ast fn
  = ('(_, foundPath, _) ←
       ofFuel (walk (observer (keepPath fn) (stopAt fn)) fuel ast 0 [] ∅ []);
     Ok foundPath).
Proof.
  unfold Optimizer.findNode.
  rewrite (walk_ext _ (observer (keepPath fn) (stopAt fn))); [reflexivity|].
  intros node utils v. unfold observer, keepPath, stopAt. destruct (fn node); reflexivity.
Qed.

Lemma upto_app {A} (p : A -> bool) l1 l2 :
  upto p (l1 ++ l2) = if existsb p l1 then upto p l1 else l1 ++ upto p l2.
Proof.
  induction l1 as [|x l1 IH]; [reflexivity|].
  cbn [app upto existsb]. destruct (p x); [reflexivity|]. cbn [orb]. rewrite IH.
  destruct (existsb p l1); reflexivity.
Qed.

Lemma upto_none {A} (p : A -> bool) l : existsb p l = false -> upto p l = l.
Proof.
  induction l as [|x l IH]; [reflexivity|]. cbn [existsb upto].
  destruct (p x); [discriminate|]. cbn [orb]. intros He. rewrite IH by exact He.
  reflexivity.
Qed.

Abbreviation accepted fn := (fun call : AstNode * Utils => fn call.1).

(** The calls up to the stop are the calls of the visitor that always
    continues, up to the first node that [fn] accepts. *)
Lemma trace_stop_each fn ast :
  Forall (fun node => forall path ctx,
            traceNode (stopAt fn) node path ctx
            = (upto (accepted fn) (traceNode (fun _ => Continue) node path ctx).1,
               existsb (accepted fn) (traceNode (fun _ => Continue) node path ctx).1)) ast ->
  forall path ctx,
    traceEach (stopAt fn) ast path ctx
    = (upto (accepted fn) (traceEach (fun _ => Continue) ast path ctx).1,
       existsb (accepted fn) (traceEach (fun _ => Continue) ast path ctx).1).
Proof.
  induction 1 as [|node rest Hnode _ IH]; intros path ctx; [reflexivity|].
  cbn [traceEach]. rewrite Hnode, IH.
  pose proof (proj1 (trace_continue_node node path ctx)) as Hs.
  destruct (traceNode (fun _ => Continue) node path ctx) as [calls stopped].
  cbn [fst snd] in *. subst stopped.
  destruct (traceEach (fun _ => Continue) rest path ctx) as [calls' stopped'].
  cbn [fst snd]. rewrite upto_app, existsb_app.
  destruct (existsb (accepted fn) calls) eqn:He; [reflexivity|].
  rewrite (upto_none _ _ He). reflexivity.
Qed.

Lemma trace_stop_node fn node : forall path ctx,
  traceNode (stopAt fn) node path ctx
  = (upto (accepted fn) (traceNode (fun _ => Continue) node path ctx).1,
     existsb (accepted fn) (traceNode (fun _ => Continue) node path ctx).1).
Proof.
  induction node as [s h ns o IH | nm pa h ns o IH | h pr va im o | va o
                    | c h ns o IH | h ns o IH] using AstNode_rect_nested;
    intros path ctx; rewrite !traceNode_eq; cbn [nodesOf traceEach fst snd].
  5: apply (trace_stop_each _ _ IH).
  all: unfold stopAt at 1; cbn [upto existsb fst];
    match goal with |- context [if ?b then _ else _] => destruct b eqn:Hfn end;
    cbn [orb upto existsb fst]; rewrite ?Hfn; try reflexivity.
  all: try rewrite (trace_stop_each _ _ IH);
    match goal with
    | |- context [traceEach (fun _ => Continue) ?l ?p ?c] =>
        destruct (traceEach (fun _ => Continue) l p c) as [calls stopped]
    end; cbn [fst snd upto existsb]; rewrite Hfn; reflexivity.
Qed.

Lemma trace_stop fn ast path ctx :
  traceEach (stopAt fn) ast path ctx
  = (upto (accepted fn) (traceEach (fun _ => Continue) ast path ctx).1,
     existsb (accepted fn) (traceEach (fun _ => Continue) ast path ctx).1).
Proof.
  apply trace_stop_each. apply Forall_forall. intros node _. apply trace_stop_node.
Qed.

Lemma fed_keepPath_none fn calls found :
  Forall (fun call => fn call.1 = false) calls ->
  fed (keepPath fn) (upto (accepted fn) calls) found = found.
Proof.
  induction 1 as [|call calls Hcall _ IH]; [reflexivity|].
  cbn [upto]. rewrite Hcall. unfold fed in *. cbn [foldl]. unfold keepPath at 2.
  rewrite Hcall. exact IH.
Qed.

Lemma fed_keepPath_first fn before call after found :
  Forall (fun call => fn call.1 = false) before ->
  fn call.1 = true ->
  fed (keepPath fn) (upto (accepted fn) (before ++ call :: after)) found = u_path call.2.
Proof.
  intros Hbefore Hcall. revert found.
  induction Hbefore as [|c before Hc _ IH]; intros found.
  - cbn [app upto]. rewrite Hcall. unfold fed. cbn [foldl]. unfold keepPath.
    rewrite Hcall. reflexivity.
  - cbn [app upto]. rewrite Hc. unfold fed in *. cbn [foldl]. apply IH.
Qed.

(** *** The paths shown to the visitor *)

Lemma lineage_wider ast ast' chain :
  (forall node, node ∈ surface ast -> node ∈ surface ast') ->
  lineage ast chain -> lineage ast' chain.
Proof. destruct chain as [|node rest]; [trivial|]. intros Hsub [Hin Hrest]. split; auto. Qed.

Lemma surface_cons node rest : surface (node :: rest) = surfaceNode node ++ surface rest.
Proof. reflexivity. Qed.

Lemma pathsLead_wider ast ast' path calls :
  (forall node, node ∈ surface ast -> node ∈ surface ast') ->
  pathsLead ast path calls -> pathsLead ast' path calls.
Proof.
  intros Hsub Hcalls. eapply Forall_impl; [exact Hcalls|].
  intros call (chain & Hpath & Hlin). exists chain. split; [exact Hpath|].
  eapply lineage_wider; eassumption.
Qed.

Lemma pathsLead_each ast :
  Forall (fun node => forall path ctx,
            pathsLead [node] path (traceNode (fun _ => Continue) node path ctx).1) ast ->
  forall path ctx, pathsLead ast path (traceEach (fun _ => Continue) ast path ctx).1.
Proof.
  induction 1 as [|node rest Hnode _ IH]; intros path ctx; [constructor|].
  cbn [traceEach]. specialize (Hnode path ctx). specialize (IH path ctx).
  pose proof (proj1 (trace_continue_node node path ctx)) as Hs.
  destruct (traceNode (fun _ => Continue) node path ctx) as [calls stopped].
  cbn [fst snd] in *. subst stopped.
  destruct (traceEach (fun _ => Continue) rest path ctx) as [calls' stopped'].
  cbn [fst snd] in *. apply Forall_app. split.
  - eapply pathsLead_wider; [|exact Hnode]. intros n Hn. rewrite surface_cons.
    unfold surface in Hn. cbn [flat_map] in Hn. rewrite app_nil_r in Hn.
    apply elem_of_app. left. exact Hn.
  - eapply pathsLead_wider; [|exact IH]. intros n Hn. rewrite surface_cons.
    apply elem_of_app. right. exact Hn.
Qed.

Lemma pathsLead_below node nodes path calls :
  nodesOf node = Some nodes ->
  Stated.isContext node = false ->
  pathsLead nodes (path ++ [node]) calls ->
  pathsLead [node] path calls.
Proof.
  intros Hnodes Hctx Hcalls. eapply Forall_impl; [exact Hcalls|].
  intros call (chain & Hpath & Hlin). exists (node :: chain). split.
  - rewrite Hpath, <- !app_assoc. reflexivity.
  - cbn [app lineage]. rewrite Hnodes. split; [|exact Hlin].
    destruct node; try discriminate Hctx; apply list_elem_of_singleton; reflexivity.
Qed.

Lemma pathsLead_self node path ctx calls :
  Stated.isContext node = false ->
  pathsLead [node] path calls ->
  pathsLead [node] path ((node, mkUtils (last path) ctx (path ++ [node])) :: calls).
Proof.
  intros Hctx Hcalls. constructor; [|exact Hcalls]. exists []. split; [reflexivity|].
  cbn [app lineage fst]. split; [|exact I].
  destruct node; try discriminate Hctx; apply list_elem_of_singleton; reflexivity.
Qed.

Lemma pathsLead_node node : forall path ctx,
  pathsLead [node] path (traceNode (fun _ => Continue) node path ctx).1.
Proof.
  induction node as [s h ns o IH | nm pa h ns o IH | h pr va im o | va o
                    | c h ns o IH | h ns o IH] using AstNode_rect_nested;
    intros path ctx; rewrite traceNode_eq; cbn [nodesOf traceEach fst snd].
  5: { eapply pathsLead_wider; [|apply (pathsLead_each _ IH)].
       intros n Hn. unfold surface. cbn [flat_map surfaceNode]. rewrite app_nil_r.
       exact Hn. }
  3, 4: apply pathsLead_self; [reflexivity|constructor].
  all: match goal with
       | |- context [traceEach _ ?l ?p ?c] =>
           pose proof (pathsLead_each _ IH p c) as Hbelow;
           destruct (traceEach (fun _ => Continue) l p c) as [calls stopped]
       end; cbn [fst snd] in *;
    apply pathsLead_self; [reflexivity|];
    eapply pathsLead_below; [reflexivity|reflexivity|exact Hbelow].
Qed.

Lemma pathsLead_all ast path ctx :
  pathsLead ast path (traceEach (fun _ => Continue) ast path ctx).1.
Proof.
  apply pathsLead_each. apply Forall_forall. intros node _. apply pathsLead_node.
Qed.

(** [findNode], given fuel for the nodes of the tree: the empty path
    when [fn] accepts no node that is not a context node; otherwise a
    path that ends in the first node [fn] accepts, in the order parents
    first, and leads down to it from the tree, each node of the path
    standing among the children of the node before it, or in the place of
    a context node there. *)
Theorem findNode_gives_path_to_first_match fuel ast fn :
  size ast < fuel ->
  (Forall (fun node => fn node = false) (preorder ast) ->
   Optimizer.findNode fuel ast fn = Ok [])
  /\ (forall before target after,
        preorder ast = before ++ target :: after ->
        Forall (fun node => fn node = false) before ->
        fn target = true ->
        exists chain,
          Optimizer.findNode fuel ast fn = Ok (chain ++ [target])
          /\ lineage ast (chain ++ [target])).
Proof.
  intros Hfuel. rewrite findNode_observer.
  rewrite walk_observer by (rewrite drop_0; exact Hfuel). rewrite drop_0, trace_stop.
  cbn [ofFuel mbind result_bind fst snd].
  pose proof (proj2 (trace_continue ast [] ∅)) as Hnodes.
  pose proof (pathsLead_all ast [] ∅) as Hpaths.
  destruct (traceEach (fun _ => Continue) ast [] ∅) as [calls stopped].
  cbn [fst snd] in *. split.
  - intros Hnone. rewrite fed_keepPath_none; [reflexivity|].
    rewrite <- Hnodes in Hnone. apply Forall_fmap in Hnone. exact Hnone.
  - intros before target after Hsplit Hbefore Htarget.
    rewrite Hsplit in Hnodes.
    apply fmap_app_inv in Hnodes as (cb & rest & -> & Hrest & ->).
    symmetry in Hrest.
    apply fmap_cons_inv in Hrest as (call & ca & -> & -> & ->).
    apply Forall_app in Hpaths as [_ Hpaths]. apply Forall_cons in Hpaths as [Hpath _].
    destruct Hpath as (chain & Hpath & Hlin). exists chain.
    rewrite fed_keepPath_first; [|apply Forall_fmap in Hbefore; exact Hbefore|exact Htarget].
    rewrite Hpath. split; [reflexivity|exact Hlin].
Qed.


Lemma findNode_gives_path_to_first_match_witness :
  exists chain,
    Optimizer.findNode 5
      [Rule ".a" 0 [Context ∅ 1 [decl 2 "color" (Some "red")] noBodyOffsets] noRuleOffsets]
      (fun node => match node with Declaration _ _ _ _ _ => true | _ => false end)
    = Ok (chain ++ [decl 2 "color" (Some "red")])
    /\ lineage
         [Rule ".a" 0 [Context ∅ 1 [decl 2 "color" (Some "red")] noBodyOffsets] noRuleOffsets]
         (chain ++ [decl 2 "color" (Some "red")]).
Proof.
  refine (proj2 (findNode_gives_path_to_first_match 5 _ _ _)
            [Rule ".a" 0 [Context ∅ 1 [decl 2 "color" (Some "red")] noBodyOffsets]
               noRuleOffsets]
            (decl 2 "color" (Some "red")) [] _ _ _).
  - cbn. lia.
  - reflexivity.
  - repeat constructor.
  - reflexivity.
Defined.

(** *** Context nodes are transparent, whatever the visitor does *)

Section Transparent.
Context {V : Type}.
Variable visit : AstNode -> Utils -> V -> V * option (list AstNode) * WalkAction.

Lemma walk_context_step {W : Type}
    (visit' : AstNode -> Utils -> W -> W * option (list AstNode) * WalkAction)
    fuel ast i path ctx w c h nodes o :
  ast !! i = Some (Context c h nodes o) ->
  walk visit' (S fuel) ast i path ctx w
  = ('(nodes', w, stopped) ← walk visit' fuel nodes 0 path (mergeContext ctx c) w;
     let ast := <[i := Context c h nodes' o]> ast in
     if stopped : bool then Some (ast, w, true)
     else walk visit' fuel ast (S i) path ctx w).
Proof. intros Hi. cbn [walk]. rewrite Hi. reflexivity. Qed.

Lemma walk_end {W : Type}
    (visit' : AstNode -> Utils -> W -> W * option (list AstNode) * WalkAction)
    fuel ast i path ctx w :
  ast !! i = None -> walk visit' (S fuel) ast i path ctx w = Some (ast, w, false).
Proof. intros Hi. cbn [walk]. rewrite Hi. reflexivity. Qed.

Lemma walk_logged fuel : forall ast i path ctx v log ast' v' log' stopped,
  walk (logged visit) fuel ast i path ctx (v, log) = Some (ast', (v', log'), stopped) ->
  Forall notContext path ->
  Forall transparentCall log ->
  Forall transparentCall log'
  /\ walk visit fuel ast i path ctx v = Some (ast', v', stopped).
Proof.
  induction fuel as [|fuel IH];
    intros ast i path ctx v log ast' v' log' stopped Heq Hpath Hlog; [discriminate|].
  destruct (ast !! i) as [node|] eqn:Hi.
  2: { rewrite walk_end in Heq by exact Hi. rewrite walk_end by exact Hi.
       injection Heq as <- <- <- <-.
       split; [exact Hlog|reflexivity]. }
  destruct (Stated.isContext node) eqn:Hctx.
  - destruct node as [| | | |c h nodes o|]; try discriminate Hctx.
    rewrite (walk_context_step _ _ _ _ _ _ _ _ _ _ _ Hi) in Heq.
    rewrite (walk_context_step _ _ _ _ _ _ _ _ _ _ _ Hi).
    destruct (walk (logged visit) fuel nodes 0 path (mergeContext ctx c) (v, log))
      as [[[nodes1 [v1 log1]] stopped1]|] eqn:H1; [|discriminate].
    destruct (IH _ _ _ _ _ _ _ _ _ _ H1 Hpath Hlog) as [Hlog1 ->].
    cbn [mbind option_bind] in Heq |- *. destruct stopped1.
    + injection Heq as <- <- <- <-. split; [exact Hlog1|reflexivity].
    + apply (IH _ _ _ _ _ _ _ _ _ _ Heq Hpath Hlog1).
  - rewrite (WalkProps.walk_visit_step _ _ _ _ _ _ _ _ Hi Hctx) in Heq.
    rewrite (WalkProps.walk_visit_step _ _ _ _ _ _ _ _ Hi Hctx).
    unfold logged at 1 in Heq. cbn [fst snd] in Heq.
    destruct (visit node (mkUtils (last path) ctx (path ++ [node])) v)
      as [[v1 replaced] status].
    assert (Hlog1 : Forall transparentCall
                      (log ++ [(node, mkUtils (last path) ctx (path ++ [node]))])).
    { apply Forall_app. split; [exact Hlog|]. repeat constructor.
      - exact Hctx.
      - cbn. apply Forall_app. split; [exact Hpath|]. repeat constructor. exact Hctx.
      - exists path. split; reflexivity. }
    destruct replaced as [newNode|].
    + destruct (replaceWith i newNode ast) as [ast1 offset].
      destruct status; apply (IH _ _ _ _ _ _ _ _ _ _ Heq Hpath Hlog1).
    + destruct status.
      * destruct (nodesOf node) as [nodes|]; [|apply (IH _ _ _ _ _ _ _ _ _ _ Heq Hpath Hlog1)].
        match type of Heq with
        | context [walk (logged visit) fuel nodes 0 ?p ?c ?w] =>
            destruct (walk (logged visit) fuel nodes 0 p c w)
              as [[[nodes1 [v2 log2]] stopped1]|] eqn:H1; [|discriminate]
        end.
        assert (Hpath1 : Forall notContext (path ++ [node])).
        { apply Forall_app. split; [exact Hpath|]. repeat constructor. exact Hctx. }
        destruct (IH _ _ _ _ _ _ _ _ _ _ H1 Hpath1 Hlog1) as [Hlog2 ->].
        cbn [mbind option_bind] in Heq |- *. destruct stopped1.
        -- injection Heq as <- <- <- <-. split; [exact Hlog2|reflexivity].
        -- apply (IH _ _ _ _ _ _ _ _ _ _ Heq Hpath Hlog2).
      * apply (IH _ _ _ _ _ _ _ _ _ _ Heq Hpath Hlog1).
      * injection Heq as <- <- <- <-. split; [exact Hlog1|reflexivity].
Qed.
End Transparent.

(** Whatever the visitor does (it may replace nodes, skip and stop),
    [walk] never calls it on a context node, never shows it a context
    node on the path or as the parent, and the path it shows ends in the
    node, the parent being the node before it.  The record of the calls
    changes nothing about the walk. *)
Theorem walk_never_shows_context_nodes {V : Type}
    (visit : AstNode -> Utils -> V -> V * option (list AstNode) * WalkAction)
    fuel ast v ast' v' log stopped :
  walk (logged visit) fuel ast 0 [] ∅ (v, []) = Some (ast', (v', log), stopped) ->
  Forall transparentCall log
  /\ walk visit fuel ast 0 [] ∅ v = Some (ast', v', stopped).
Proof.
  intros Heq. eapply walk_logged; [exact Heq|constructor|constructor].
Qed.


(** A visitor that counts its calls and puts a context node in the place
    of every comment: the declaration inside is shown with no parent. *)
Lemma walk_never_shows_context_nodes_witness :
  Forall transparentCall
    [(Comment "a" noCommentOffsets, mkUtils None ∅ [Comment "a" noCommentOffsets]);
     (decl 1 "color" (Some "red"), mkUtils None ∅ [decl 1 "color" (Some "red")])]
  /\ walk (fun node _ (count : nat) =>
             match node with
             | Comment _ _ =>
                 (S count,
                  Some [Context ∅ 9 [decl 1 "color" (Some "red")] noBodyOffsets], Continue)
             | _ => (S count, None, Continue)
             end)
          6 [Comment "a" noCommentOffsets] 0 [] ∅ 0
     = Some ([Context ∅ 9 [decl 1 "color" (Some "red")] noBodyOffsets], 2, false).
Proof.
  apply (walk_never_shows_context_nodes _ 6 [Comment "a" noCommentOffsets] 0).
  vm_compute. reflexivity.
Defined.


(** *** The calls of [walkDepth], whatever the visitor does *)

Section DepthCalls.
Context {V : Type}.
Variable visit : AstNode -> Utils -> V -> V * option (list AstNode).

Abbreviation rules := (Forall (fun node => isRuleOrAtRule node = true)).

Lemma walkDepth_logged_each ast :
  Forall (fun node => forall path ctx v log,
            rules path -> Forall depthCall log ->
            depthLogged (walkDepthNode (loggedDepth visit) node path ctx (v, log))
                        (walkDepthNode visit node path ctx v)) ast ->
  forall path ctx v log,
    rules path -> Forall depthCall log ->
    depthLogged (walkDepth (loggedDepth visit) ast path ctx (v, log))
                (walkDepth visit ast path ctx v).
Proof.
  unfold depthLogged.
  induction 1 as [|node rest Hnode _ IH]; intros path ctx v log Hpath Hlog.
  - split; [exact Hlog|reflexivity].
  - cbn [walkDepth]. destruct (Hnode path ctx v log Hpath Hlog) as [Hlog1 ->].
    destruct (walkDepthNode (loggedDepth visit) node path ctx (v, log)) as [ns [v1 log1]].
    cbn [fst snd] in *. destruct (IH path ctx v1 log1 Hpath Hlog1) as [Hlog2 ->].
    destruct (walkDepth (loggedDepth visit) rest path ctx (v1, log1)) as [rest' [v2 log2]].
    cbn [fst snd] in *. split; [exact Hlog2|reflexivity].
Qed.

Lemma visit_logged node path ctx v log :
  notContext node -> rules path -> Forall depthCall log ->
  depthLogged
    (let '(s, replaced) :=
       loggedDepth visit node (mkUtils (last path) ctx (path ++ [node])) (v, log) in
     match replaced with Some newNode => (newNode, s) | None => ([node], s) end)
    (let '(v, replaced) := visit node (mkUtils (last path) ctx (path ++ [node])) v in
     match replaced with Some newNode => (newNode, v) | None => ([node], v) end).
Proof.
  intros Hctx Hpath Hlog. unfold loggedDepth, depthLogged. cbn [fst snd].
  destruct (visit node _ v) as [v1 [newNode|]]; cbn [fst snd]; (split; [|reflexivity]);
    (apply Forall_app; split; [exact Hlog|]); repeat constructor; try exact Hctx;
    exists path; repeat split; exact Hpath.
Qed.

Lemma walkDepth_logged_node node : forall path ctx v log,
  rules path -> Forall depthCall log ->
  depthLogged (walkDepthNode (loggedDepth visit) node path ctx (v, log))
              (walkDepthNode visit node path ctx v).
Proof.
  induction node as [s h ns o IH | nm pa h ns o IH | h pr va im o | va o
                    | c h ns o IH | h ns o IH] using AstNode_rect_nested;
    intros path ctx v log Hpath Hlog; cbn [walkDepthNode];
    rewrite ?WalkDepthProps.walkDepth_loop_eq.
  1, 2: match goal with
        | |- context [walkDepth _ ?l ?p ?c (_, _)] =>
            assert (Hp : rules p)
              by (apply Forall_app; split; [exact Hpath|repeat constructor]);
            destruct (walkDepth_logged_each _ IH p c v log Hp Hlog) as [Hlog1 ->];
            destruct (walkDepth (loggedDepth visit) l p c (v, log)) as [ns' [v1 log1]]
        end; cbn [fst snd setNodes] in *; apply visit_logged; try assumption; reflexivity.
  1, 2, 4: apply visit_logged; try assumption; reflexivity.
  destruct (walkDepth_logged_each _ IH path (mergeContext ctx c) v log Hpath Hlog)
    as [Hlog1 ->].
  destruct (walkDepth (loggedDepth visit) ns path (mergeContext ctx c) (v, log))
    as [ns' [v1 log1]].
  cbn [fst snd] in *. split; [exact Hlog1|reflexivity].
Qed.
End DepthCalls.

(** Whatever the visitor of [walkDepth] does, it is never called on a
    context node; the path it is shown ends in the node, the nodes
    before it on the path are rules and at-rules (never a context node
    and never an at-root node), and the parent is the last of them.  The
    record of the calls changes nothing about the walk. *)
Theorem walkDepth_parents_are_rules {V : Type}
    (visit : AstNode -> Utils -> V -> V * option (list AstNode)) ast v ast' v' log :
  walkDepth (loggedDepth visit) ast [] ∅ (v, []) = (ast', (v', log)) ->
  Forall depthCall log /\ walkDepth visit ast [] ∅ v = (ast', v').
Proof.
  intros Heq.
  pose proof (walkDepth_logged_each visit ast) as Hall.
  destruct (Hall (proj2 (Forall_forall _ _)
                    (fun node _ => walkDepth_logged_node visit node)) [] ∅ v [])
    as [Hlog Hwalk]; [constructor|constructor|].
  rewrite Heq in Hlog, Hwalk. split; [exact Hlog|exact Hwalk].
Qed.

Lemma walkDepth_parents_are_rules_witness :
  Forall depthCall
    [(decl 1 "color" (Some "red"),
      mkUtils (Some (Rule ".a" 0 [decl 1 "color" (Some "red")] noRuleOffsets)) ∅
        [Rule ".a" 0 [decl 1 "color" (Some "red")] noRuleOffsets;
         decl 1 "color" (Some "red")]);
     (Rule ".a" 0 [] noRuleOffsets, mkUtils None ∅ [Rule ".a" 0 [] noRuleOffsets])]
  /\ walkDepth (fun node _ (count : nat) =>
                  match node with
                  | Declaration _ _ _ _ _ => (S count, Some [])
                  | _ => (S count, None)
                  end)
       [Rule ".a" 0 [decl 1 "color" (Some "red")] noRuleOffsets] [] ∅ 0
     = ([Rule ".a" 0 [] noRuleOffsets], 2).
Proof.
  apply (walkDepth_parents_are_rules _ [Rule ".a" 0 [decl 1 "color" (Some "red")] noRuleOffsets] 0).
  vm_compute. reflexivity.
Defined.

End VisitProps.

(** ** The tree [optimizeAst] returns is one [toCss] prints *)

Module OutputProps.
Import Optimizer Shape Serializer Printing Output.

Lemma printed_shell n ns : printed (setNodes ns n) = printed n.
Proof. destruct n; reflexivity. Qed.

(** What the comment in [toCss] relies on: the tree [optimizeAst]
    returns holds no context node and no at-root node, at any depth. *)
Theorem optimized_tree_has_no_context_or_atroot {T : Type} `{DesignSystem T}
    (E : Externals) fuel ast (theme : T) polyfills out :
  optimizeAst E fuel ast theme polyfills = Ok out ->
  goodList printed out.
Proof.
  intros Heq. apply AmpFlattening.optimizeAst_optimize in Heq as [st Heq].
  eapply (CleanupProps.optimize_good printed printed_shell); [..|exact Heq];
    reflexivity.
Qed.

Lemma optimized_tree_has_no_context_or_atroot_witness :
  goodList printed
    [Rule ".a" 7 [decl 3 "top" (Some "0")] noRuleOffsets; decl 5 "color" (Some "red")].
Proof.
  apply (@optimized_tree_has_no_context_or_atroot _ Examples.blankTheme
           Examples.externals 10
           [Context ∅ 0
              [Rule ".a" 1
                 [AtRoot 2 [decl 5 "color" (Some "red")] noBodyOffsets;
                  Context ∅ 4 [decl 3 "top" (Some "0")] noBodyOffsets] noRuleOffsets]
              noBodyOffsets]
           [] 0%Z).
  vm_compute. reflexivity.
Defined.

Lemma hasValue_prints node : allNodes hasValue node = true -> spansUndefined node = false.
Proof.
  induction node as [s h ns o IH | nm pa h ns o IH | h pr va im o | va o
                    | c h ns o IH | h ns o IH] using AstNode_rect_nested;
    cbn [allNodes spansUndefined hasValue]; try reflexivity.
  3: destruct va; [reflexivity|discriminate].
  all: cbn [andb]; intros Hall; induction IH as [|n ns Hn _ IHns]; [reflexivity|];
    cbn [forallb existsb] in *; apply andb_true_iff in Hall as [H1 H2];
    rewrite (Hn H1), (IHns H2); reflexivity.
Qed.

Lemma hasValue_print_all ast : goodList hasValue ast -> existsb spansUndefined ast = false.
Proof.
  induction 1 as [|n ns Hn _ IH]; [reflexivity|].
  cbn [existsb]. rewrite (hasValue_prints _ Hn), IH. reflexivity.
Qed.




(** *** Plain trees *)

Section Plain.
Context {T : Type} `{DesignSystem T}.
Variable E : Externals.
Variable polyfills : Z.
Variable fuel : nat.

Lemma quiet_refl (st : State T) : quiet st st.
Proof. repeat split. Qed.

Lemma quiet_trans (st1 st2 st3 : State T) : quiet st1 st2 -> quiet st2 st3 -> quiet st1 st3.
Proof.
  unfold quiet. intros (A1 & B1 & C1 & D1 & E1) (A2 & B2 & C2 & D2 & E2).
  repeat split; congruence.
Qed.

Lemma quiet_fresh (st : State T) : quiet st (fresh st).2.
Proof. repeat split. Qed.

Lemma theme_below_atrule name ctx :
  truthy (atRuleContext name ctx !! "theme") = truthy (ctx !! "theme").
Proof.
  unfold atRuleContext. destruct (Js.seq name "@keyframes"); [|reflexivity].
  rewrite lookup_insert_ne by discriminate. reflexivity.
Qed.

Lemma transformAll_plain nodes :
  Forall (fun node => plain node = true -> passes E polyfills fuel node) nodes ->
  forallb plain nodes = true ->
  forall parent ctx depth (st : State T),
    truthy (ctx !! "theme") = false ->
    exists nodes' st',
      transformAll E polyfills fuel nodes parent ctx depth st = Ok (nodes', st')
      /\ map anonymous nodes' = map anonymous nodes /\ quiet st st'.
Proof.
  induction 1 as [|node rest Hnode _ IH]; intros Hplain parent ctx depth st Hctx.
  - exists [], st. repeat split.
  - cbn [forallb] in Hplain. apply andb_true_iff in Hplain as [Hp Hrest].
    destruct (Hnode Hp parent ctx depth st Hctx) as (node' & st1 & Hrun & Hsame & Hq).
    destruct (IH Hrest parent ctx depth st1 Hctx) as (rest' & st2 & Hrun' & Hsame' & Hq').
    exists (node' :: rest'), st2. rewrite TransformEq.transformAll_cons, Hrun.
    cbn [mbind result_bind]. rewrite Hrun'. cbn [mbind result_bind app].
    split; [reflexivity|]. split; [cbn [map]; rewrite Hsame, Hsame'; reflexivity|].
    eapply quiet_trans; eassumption.
Qed.

Lemma transform_plain node : plain node = true -> passes E polyfills fuel node.
Proof.
  induction node as [s h ns o IH | nm pa h ns o IH | h pr va im o | va o
                    | c h ns o IH | h ns o IH] using AstNode_rect_nested;
    cbn [plain]; intros Hplain parent ctx depth st Hctx; try discriminate Hplain.
  - (* rule *)
    apply andb_true_iff in Hplain as [Hplain Hall].
    apply andb_true_iff in Hplain as [Hsel Hne].
    apply negb_true_iff in Hsel. rewrite TransformEq.transform_rule by exact Hsel.
    pose proof (quiet_fresh st) as Hq0. destruct (fresh st) as [copy st0]. cbn [snd] in Hq0.
    destruct (transformAll_plain ns IH Hall copy ctx (S depth) st0 Hctx)
      as (ns' & st1 & Hrun & Hsame & Hq).
    rewrite Hrun. cbn [mbind result_bind].
    destruct ns' as [|n' ns'].
    + destruct ns; [discriminate Hne|discriminate Hsame].
    + eexists _, st1. split; [reflexivity|]. split.
      * cbn [anonymous]. rewrite Hsame. reflexivity.
      * eapply quiet_trans; eassumption.
  - (* at-rule *)
    apply andb_true_iff in Hplain as [Hplain Hall].
    apply andb_true_iff in Hplain as [Hname Hkeep].
    apply negb_true_iff in Hname.
    rewrite TransformEq.transform_atrule by (rewrite Hname; reflexivity). cbn zeta.
    pose proof (quiet_fresh st) as Hq0. destruct (fresh st) as [copy st0]. cbn [snd] in Hq0.
    assert (Hctx' : truthy (atRuleContext nm ctx !! "theme") = false)
      by (rewrite theme_below_atrule; exact Hctx).
    destruct (transformAll_plain ns IH Hall copy (atRuleContext nm ctx) (S depth) st0 Hctx')
      as (ns' & st1 & Hrun & Hsame & Hq).
    rewrite Hrun. cbn [mbind result_bind]. rewrite Hctx', andb_false_r.
    assert (Hout : exists node',
               (match ns' with
                | [] => if keepsEmpty nm then Ok ([AtRule nm pa copy ns' o], st1)
                        else Ok ([], st1)
                | _ :: _ => Ok ([AtRule nm pa copy ns' o], st1)
                end) = Ok ([node'], st1)
               /\ anonymous node' = anonymous (AtRule nm pa h ns o)).
    { destruct ns' as [|n' ns'].
      - destruct ns; [|discriminate Hsame]. cbn [isEmpty negb orb] in Hkeep.
        rewrite Hkeep. eexists. split; reflexivity.
      - eexists. split; [reflexivity|]. cbn [anonymous]. rewrite Hsame. reflexivity. }
    destruct Hout as (node' & Hout & Hanon). exists node', st1.
    split; [|split; [exact Hanon|eapply quiet_trans; eassumption]].
    destruct ns'; exact Hout.
  - (* declaration *)
    destruct va as [v|]; [|discriminate Hplain].
    apply andb_true_iff in Hplain as [Hsort Hmix].
    apply negb_true_iff in Hsort. apply negb_true_iff in Hmix.
    cbn [transform]. rewrite Hsort, Hctx, Hmix, andb_false_r. cbn [andb].
    eexists _, _. split; [reflexivity|]. split; [reflexivity|].
    destruct (Js.includes "var(" v), (Js.seq pr "animation"); repeat split.
  - (* comment *)
    exists (Comment va o), st. repeat split.
Qed.

Lemma optimize_plain ast (theme : T) :
  forallb plain ast = true ->
  exists out,
    optimizeAst E fuel ast theme polyfills = Ok out
    /\ map anonymous out = map anonymous ast.
Proof.
  intros Hplain. unfold optimizeAst, optimize.
  pose proof (quiet_fresh (initialState ast theme)) as Hq0.
  destruct (fresh (initialState ast theme)) as [newAstRef st0]. cbn [snd] in Hq0.
  destruct (transformAll_plain ast) with (parent := newAstRef) (ctx := (∅ : gmap string CtxValue))
                                          (depth := 0) (st := st0)
    as (out & st1 & Hrun & Hsame & Hq).
  { apply Forall_forall. intros node _. apply transform_plain. }
  { exact Hplain. }
  { rewrite lookup_empty. reflexivity. }
  pose proof (quiet_trans _ _ _ Hq0 Hq) as (Hroots & Hvars & Hkf & Hfr & Hfu).
  cbn [initialState atRoots cssThemeVariables keyframes propertyFallbacksRoot
       propertyFallbacksUniversal] in Hroots, Hvars, Hkf, Hfr, Hfu.
  exists out. split; [|exact Hsame].
  rewrite Hrun. cbn [mbind result_bind]. rewrite Hvars, Hkf, Hroots.
  cbn [removeUnusedThemeVariables mbind result_bind newAst hoisted removeUnusedKeyframes].
  rewrite app_nil_r. unfold addFallbacks.
  destruct (enabled polyfills (Polyfills_AtProperty E)); [|reflexivity].
  cbn [fresh fst snd setNextHandle setUsedKeyframeNames setAtRoots
       propertyFallbacksRoot propertyFallbacksUniversal].
  rewrite Hfr, Hfu. reflexivity.
Qed.

End Plain.

Lemma render_anonymous_each depth ns :
  Forall (fun n => forall d, Spans.render d (anonymous n) = Spans.render d n) ns ->
  Spans.renderEach depth (map anonymous ns) = Spans.renderEach depth ns.
Proof.
  induction 1 as [|n ns Hn _ IH]; [reflexivity|].
  cbn [map Spans.renderEach]. rewrite Hn, IH. reflexivity.
Qed.

Lemma render_anonymous node : forall depth,
  Spans.render depth (anonymous node) = Spans.render depth node.
Proof.
  induction node as [s h ns o IH | nm pa h ns o IH | h pr va im o | va o
                    | c h ns o IH | h ns o IH] using AstNode_rect_nested;
    intros depth; cbn [anonymous]; try reflexivity.
  - rewrite !SpanProps.render_rule, (render_anonymous_each _ _ IH). reflexivity.
  - destruct ns as [|n ns]; [reflexivity|]. cbn [map].
    rewrite !SpanProps.render_atrule.
    change (anonymous n :: map anonymous ns) with (map anonymous (n :: ns)).
    rewrite (render_anonymous_each _ _ IH). reflexivity.
Qed.

Lemma renderEach_anonymous depth ns :
  Spans.renderEach depth (map anonymous ns) = Spans.renderEach depth ns.
Proof.
  apply render_anonymous_each. apply Forall_forall. intros n _. apply render_anonymous.
Qed.

(** [optimizeAst] returns on a plain tree, whatever the polyfills and
    the theme are, and the tree it returns is the tree passed up to the
    identity of its rules and at-rules (they are copies): same kinds,
    fields, [Offsets] and order; [toCss] prints the same text for
    both. *)
Theorem plain_tree_is_kept {T : Type} `{DesignSystem T} (E : Externals)
    fuel ast (theme : T) polyfills :
  forallb plain ast = true ->
  exists out text,
    optimizeAst E fuel ast theme polyfills = Ok out
    /\ map anonymous out = map anonymous ast
    /\ toCss ast false = Ok (text, ast)
    /\ toCss out false = Ok (text, out).
Proof.
  intros Hplain.
  destruct (optimize_plain E polyfills fuel ast theme Hplain) as (out & Hrun & Hsame).
  exists out, (Spans.renderEach 0 ast). repeat split; try assumption.
  - apply SerializerProps.toCss_untracked.
  - rewrite SerializerProps.toCss_untracked.
    rewrite <- (renderEach_anonymous 0 out), Hsame, renderEach_anonymous. reflexivity.
Qed.

Lemma plain_tree_is_kept_witness :
  exists out text,
    @optimizeAst _ Examples.blankTheme Examples.externals 0
      [Comment "x" noCommentOffsets;
       AtRule "@media" "print" 0
         [Rule ".a" 1 [decl 2 "color" (Some "var(--c)")] noRuleOffsets] noAtRuleOffsets;
       atRule 3 "@layer" "base" []]
      [] 3%Z
    = Ok out
    /\ map anonymous out
       = map anonymous
           [Comment "x" noCommentOffsets;
            AtRule "@media" "print" 0
              [Rule ".a" 1 [decl 2 "color" (Some "var(--c)")] noRuleOffsets] noAtRuleOffsets;
            atRule 3 "@layer" "base" []]
    /\ toCss [Comment "x" noCommentOffsets;
              AtRule "@media" "print" 0
                [Rule ".a" 1 [decl 2 "color" (Some "var(--c)")] noRuleOffsets]
                noAtRuleOffsets;
              atRule 3 "@layer" "base" []] false
       = Ok (text,
             [Comment "x" noCommentOffsets;
              AtRule "@media" "print" 0
                [Rule ".a" 1 [decl 2 "color" (Some "var(--c)")] noRuleOffsets]
                noAtRuleOffsets;
              atRule 3 "@layer" "base" []])
    /\ toCss out false = Ok (text, out).
Proof.
  apply (@plain_tree_is_kept _ Examples.blankTheme Examples.externals 0 _ [] 3%Z).
  reflexivity.
Defined.


(** *** Reference imports *)

Lemma transformAll_app {T : Type} `{DesignSystem T} (E : Externals) polyfills fuel
    a b parent ctx depth (st : State T) :
  transformAll E polyfills fuel (a ++ b) parent ctx depth st
  = ('(pushed, st) ← transformAll E polyfills fuel a parent ctx depth st;
     '(pushed', st) ← transformAll E polyfills fuel b parent ctx depth st;
     Ok (pushed ++ pushed', st)).
Proof.
  revert st. induction a as [|node a IH]; intros st.
  - cbn [app transformAll mbind result_bind].
    destruct (transformAll E polyfills fuel b parent ctx depth st) as [[pushed' st']|];
      reflexivity.
  - cbn [app]. rewrite !TransformEq.transformAll_cons.
    destruct (transform E polyfills fuel node parent ctx depth st) as [[p1 st1]|];
      [|reflexivity].
    cbn [mbind result_bind]. rewrite IH.
    destruct (transformAll E polyfills fuel a parent ctx depth st1) as [[p2 st2]|];
      [|reflexivity].
    cbn [mbind result_bind].
    destruct (transformAll E polyfills fuel b parent ctx depth st2) as [[p3 st3]|];
      [|reflexivity].
    cbn [mbind result_bind]. rewrite app_assoc. reflexivity.
Qed.

(** A context node flagged [reference], wherever it stands in a list of
    nodes and whatever is below it, leaves no trace: what [transform]
    pushes for the list, and the state it leaves, are those of the list
    without the node. *)
Theorem reference_context_leaves_no_trace {T : Type} `{DesignSystem T} (E : Externals)
    polyfills fuel before c h nodes o after parent ctx depth (st : State T) :
  truthy (c !! "reference") = true ->
  transformAll E polyfills fuel (before ++ Context c h nodes o :: after) parent ctx depth st
  = transformAll E polyfills fuel (before ++ after) parent ctx depth st.
Proof.
  intros Href. rewrite !transformAll_app.
  destruct (transformAll E polyfills fuel before parent ctx depth st) as [[p1 st1]|];
    [|reflexivity].
  cbn [mbind result_bind]. rewrite TransformEq.transformAll_cons.
  rewrite TransformEq.transform_context, Href. cbn [mbind result_bind].
  destruct (transformAll E polyfills fuel after parent ctx depth st1) as [[p2 st2]|];
    reflexivity.
Qed.

Lemma reference_context_leaves_no_trace_witness :
  @transformAll _ Examples.blankTheme Examples.externals 3 5
    ([Comment "a" noCommentOffsets]
     ++ Context {["reference" := CBool true]} 1
          [AtRule "@property" "--x" 2 [] noAtRuleOffsets] noBodyOffsets
        :: [decl 3 "color" (Some "var(--c)")])
    9 ∅ 0 Examples.emptyState
  = @transformAll _ Examples.blankTheme Examples.externals 3 5
      ([Comment "a" noCommentOffsets] ++ [decl 3 "color" (Some "var(--c)")])
      9 ∅ 0 Examples.emptyState.
Proof.
  apply (@reference_context_leaves_no_trace _ Examples.blankTheme). reflexivity.
Defined.


(** *** The fallback layer of the [@property] polyfill *)

Lemma findIndex_none {A} (p : A -> bool) l :
  Js.findIndex p l = None -> Forall (fun x => p x = false) l.
Proof.
  induction l as [|x l IH]; [constructor|]. cbn [Js.findIndex].
  destruct (p x) eqn:Hx; [discriminate|].
  destruct (Js.findIndex p l); [discriminate|]. intros _. constructor; auto.
Qed.

Lemma findIndex_some {A} (p : A -> bool) l i :
  Js.findIndex p l = Some i ->
  Forall (fun x => p x = false) (take i l)
  /\ exists x rest, drop i l = x :: rest /\ p x = true.
Proof.
  revert i. induction l as [|x l IH]; intros i; [discriminate|]. cbn [Js.findIndex].
  destruct (p x) eqn:Hx.
  - intros [= <-]. split; [constructor|]. exists x, l. split; [reflexivity|exact Hx].
  - destruct (Js.findIndex p l) as [j|]; [|discriminate]. intros [= <-].
    destruct (IH j eq_refl) as [Hbefore Hafter]. split; [|exact Hafter].
    cbn [take]. constructor; assumption.
Qed.

(** Without the [@property] polyfill, or with no fallback collected,
    the tree is returned as it is.  Otherwise an empty
    [@layer properties] rule is put in front of the first node that is
    neither a comment nor a [@charset] or [@import] rule (behind all
    nodes when there is none), the nodes keep their order, and the
    [@layer properties] rule with the [@supports] query around the
    fallback rules ([:root, :host] first) comes last. *)
Theorem fallback_layer_goes_behind_imports {T : Type} (E : Externals) polyfills
    (st : State T) newAst :
  (enabled polyfills (Polyfills_AtProperty E) = false
   \/ (propertyFallbacksRoot st = [] /\ propertyFallbacksUniversal st = []) ->
   addFallbacks E polyfills st newAst = newAst)
  /\ (enabled polyfills (Polyfills_AtProperty E) = true ->
      propertyFallbacksRoot st <> [] \/ propertyFallbacksUniversal st <> [] ->
      exists before after h1 h2 h3 h4 h5,
        newAst = before ++ after
        /\ Forall (fun node => isFirstValidNode node = false) before
        /\ (forall node rest, after = node :: rest -> isFirstValidNode node = true)
        /\ addFallbacks E polyfills st newAst
           = before ++ atRule h3 "@layer" "properties" [] :: after
             ++ [rule E h5 "@layer properties"
                   [atRule h4 "@supports" fallbackQuery
                      ((if isEmpty (propertyFallbacksRoot st) then []
                        else [rule E h1 ":root, :host" (propertyFallbacksRoot st)])
                       ++ (if isEmpty (propertyFallbacksUniversal st) then []
                           else [rule E h2 "*, ::before, ::after, ::backdrop"
                                   (propertyFallbacksUniversal st)]))]]).
Proof.
  split.
  - intros [Hoff|[Hroot Huni]]; unfold addFallbacks.
    + rewrite Hoff. reflexivity.
    + destruct (enabled polyfills (Polyfills_AtProperty E)); [|reflexivity].
      cbn [fresh fst snd setNextHandle propertyFallbacksRoot propertyFallbacksUniversal].
      rewrite Hroot, Huni. reflexivity.
  - intros Hon Hsome. unfold addFallbacks. rewrite Hon.
    cbn [fresh fst snd setNextHandle nextHandle propertyFallbacksRoot
         propertyFallbacksUniversal].
    set (index := default (length newAst) (Js.findIndex isFirstValidNode newAst)).
    exists (take index newAst), (drop index newAst).
    eexists _, _, _, _, _. split; [symmetry; apply take_drop|]. split; [|split].
    + unfold index. destruct (Js.findIndex isFirstValidNode newAst) as [i|] eqn:Hi.
      * apply (findIndex_some _ _ _ Hi).
      * cbn [default from_option id]. rewrite firstn_all. apply findIndex_none, Hi.
    + unfold index. intros node rest Hafter.
      destruct (Js.findIndex isFirstValidNode newAst) as [i|] eqn:Hi.
      * destruct (findIndex_some _ _ _ Hi) as [_ (x & rest' & Hdrop & Hx)].
        cbn [default from_option id] in Hafter. rewrite Hdrop in Hafter. injection Hafter as <- <-.
        exact Hx.
      * cbn [default from_option id] in Hafter. rewrite drop_all in Hafter. discriminate Hafter.
    + fold index. unfold Js.splice. rewrite Nat.add_0_r.
      destruct (propertyFallbacksRoot st) as [|r rs] eqn:Hroot,
               (propertyFallbacksUniversal st) as [|u us] eqn:Huni;
        cbn [isEmpty app]; try (destruct Hsome as [Hs|Hs]; congruence);
        rewrite <- ?app_assoc; reflexivity.
Qed.


Lemma fallback_layer_goes_behind_imports_witness :
  exists before after h1 h2 h3 h4 h5,
    [Comment "license" noCommentOffsets; atRule 0 "@import" "url(x)" [];
     Rule ".a" 1 [decl 2 "color" (Some "red")] noRuleOffsets]
    = before ++ after
    /\ Forall (fun node => isFirstValidNode node = false) before
    /\ (forall node rest, after = node :: rest -> isFirstValidNode node = true)
    /\ addFallbacks Examples.externals 1
         (setPropertyFallbacksRoot [decl 7 "--x" (Some "initial")] Examples.emptyState)
         [Comment "license" noCommentOffsets; atRule 0 "@import" "url(x)" [];
          Rule ".a" 1 [decl 2 "color" (Some "red")] noRuleOffsets]
       = before ++ atRule h3 "@layer" "properties" [] :: after
         ++ [rule Examples.externals h5 "@layer properties"
               [atRule h4 "@supports" fallbackQuery
                  ((if isEmpty [decl 7 "--x" (Some "initial")] then []
                    else [rule Examples.externals h1 ":root, :host"
                            [decl 7 "--x" (Some "initial")]])
                   ++ (if isEmpty [] then []
                       else [rule Examples.externals h2 "*, ::before, ::after, ::backdrop"
                               []]))]].
Proof.
  apply (proj2 (fallback_layer_goes_behind_imports Examples.externals 1
                  (setPropertyFallbacksRoot [decl 7 "--x" (Some "initial")]
                     Examples.emptyState) _)).
  - reflexivity.
  - left. discriminate.
Defined.

(** *** The names of an [animation] value *)

Lemma splitAux_free s : forall cur inSep,
  separatorFree s = true -> Js.splitAux s cur inSep = [cur +:+ s].
Proof.
  induction s as [|c s IH]; intros cur inSep Hfree.
  - cbn [Js.splitAux]. rewrite SpanProps.append_empty_r. reflexivity.
  - cbn [separatorFree] in Hfree. apply andb_true_iff in Hfree as [Hc Hs].
    apply negb_true_iff in Hc. unfold isSeparator in Hc.
    cbn [Js.splitAux]. rewrite Hc, (IH _ _ Hs), SpanProps.app_assoc_s. reflexivity.
Qed.

Lemma splitAux_name name : forall s cur,
  separatorFree name = true ->
  Js.splitAux (name +:+ s) cur false = Js.splitAux s (cur +:+ name) false.
Proof.
  induction name as [|c name IH]; intros s cur Hfree.
  - rewrite SpanProps.append_empty_r. reflexivity.
  - cbn [separatorFree] in Hfree. apply andb_true_iff in Hfree as [Hc Hn].
    apply negb_true_iff in Hc. unfold isSeparator in Hc.
    rewrite SpanProps.append_cons. cbn [Js.splitAux]. rewrite Hc, (IH _ _ Hn).
    rewrite SpanProps.app_assoc_s. reflexivity.
Qed.

Lemma splitAux_in_gap gap : forall rest,
  separatorsOnly gap = true ->
  Js.splitAux (gap +:+ rest) "" true = Js.splitAux rest "" true.
Proof.
  induction gap as [|c gap IH]; intros rest Hgap; [reflexivity|].
  cbn [separatorsOnly] in Hgap. apply andb_true_iff in Hgap as [Hc Hg].
  unfold isSeparator in Hc. rewrite SpanProps.append_cons. cbn [Js.splitAux].
  rewrite Hc. apply IH, Hg.
Qed.

Lemma splitAux_gap gap rest cur :
  separatorsOnly gap = true -> gap <> "" ->
  Js.splitAux (gap +:+ rest) cur false = cur :: Js.splitAux rest "" true.
Proof.
  destruct gap as [|c gap]; [congruence|]. intros Hgap _.
  cbn [separatorsOnly] in Hgap. apply andb_true_iff in Hgap as [Hc Hg].
  unfold isSeparator in Hc. rewrite SpanProps.append_cons. cbn [Js.splitAux].
  rewrite Hc, (splitAux_in_gap _ _ Hg). reflexivity.
Qed.

Lemma splitAux_starts rest :
  startsName rest = true -> Js.splitAux rest "" true = Js.splitAux rest "" false.
Proof.
  destruct rest as [|c rest]; [reflexivity|]. cbn [startsName]. intros Hc.
  apply negb_true_iff in Hc. unfold isSeparator in Hc. cbn [Js.splitAux].
  rewrite Hc. reflexivity.
Qed.

Lemma splitAux_pieces s : forall cur inSep,
  separatorFree cur = true ->
  Forall (fun piece => separatorFree piece = true) (Js.splitAux s cur inSep)
  /\ Js.splitAux s cur inSep <> [].
Proof.
  induction s as [|c s IH]; intros cur inSep Hcur.
  - cbn [Js.splitAux]. split; [repeat constructor; exact Hcur|discriminate].
  - cbn [Js.splitAux]. destruct (Js.isSpace c || Ascii.eqb c ",") eqn:Hc.
    + destruct inSep.
      * apply IH. reflexivity.
      * destruct (IH "" true eq_refl) as [Hall _]. split; [|discriminate].
        constructor; assumption.
    + apply IH. clear IH. induction cur as [|d cur IHcur].
      * rewrite SpanProps.append_nil. cbn [separatorFree]. unfold isSeparator.
        rewrite Hc. reflexivity.
      * cbn [separatorFree] in Hcur. apply andb_true_iff in Hcur as [Hd Hrest].
        rewrite SpanProps.append_cons. cbn [separatorFree]. rewrite Hd. exact (IHcur Hrest).
Qed.



End OutputProps.

(** ** Removal of unused keyframes *)

Module KeyframesProps.
Import Optimizer Keyframes.

Lemma identities_cons n l :
  identities (n :: l) = match refOf n with Some r => r :: identities l | None => identities l end.
Proof. unfold identities. cbn [omap list_omap]. destruct (refOf n); reflexivity. Qed.

Lemma indexOf_cons r n (l : list AstNode) :
  indexOf r (refOf <$> n :: l)
  = if bool_decide (refOf n = Some r) then Some 0 else S <$> indexOf r (refOf <$> l).
Proof. reflexivity. Qed.

Lemma indexOf_found r (l : list AstNode) :
  r ∈ identities l -> exists i, indexOf r (refOf <$> l) = Some i.
Proof.
  induction l as [|n l IH]; intros Hin.
  - apply elem_of_nil in Hin. destruct Hin.
  - rewrite indexOf_cons. destruct (bool_decide (refOf n = Some r)) eqn:Hn; [eauto|].
    apply bool_decide_eq_false in Hn. rewrite identities_cons in Hin.
    destruct (refOf n) as [x|].
    + apply elem_of_cons in Hin as [->|Hin]; [congruence|].
      destruct (IH Hin) as [i ->]. eauto.
    + destruct (IH Hin) as [i ->]. eauto.
Qed.

Abbreviation kept removed := (filter (fun node => survives removed node = true)).

Lemma kept_all r (l : list AstNode) : r ∉ identities l -> kept [r] l = l.
Proof.
  induction l as [|n l IH]; intros Hnot; [reflexivity|].
  rewrite identities_cons in Hnot.
  rewrite filter_cons_True.
  - rewrite IH; [reflexivity|]. destruct (refOf n); [|exact Hnot].
    intros Hin. apply Hnot. apply elem_of_cons. right. exact Hin.
  - unfold survives. destruct (refOf n) as [x|]; [|reflexivity].
    apply negb_true_iff, bool_decide_eq_false. intros Hx.
    apply list_elem_of_singleton in Hx as ->. apply Hnot. apply elem_of_cons. left. reflexivity.
Qed.

(** Removing the node found by [indexOf] keeps every other node, in
    order, when the identities are distinct. *)
Lemma removeAt_found r (l : list AstNode) :
  NoDup (identities l) ->
  r ∈ identities l ->
  removeAt (indexOf r (refOf <$> l)) l = kept [r] l.
Proof.
  induction l as [|n l IH]; intros Hdup Hin.
  - apply elem_of_nil in Hin. destruct Hin.
  - rewrite indexOf_cons. rewrite identities_cons in Hdup, Hin.
    destruct (bool_decide (refOf n = Some r)) eqn:Hn.
    + apply bool_decide_eq_true in Hn. rewrite Hn in Hdup.
      apply NoDup_cons in Hdup as [Hnot _].
      cbn [removeAt]. unfold Js.splice. cbn [take drop app].
      rewrite filter_cons_False.
      * symmetry. apply kept_all, Hnot.
      * unfold survives. rewrite Hn. cbn. rewrite bool_decide_eq_true_2; [discriminate|].
        apply list_elem_of_singleton. reflexivity.
    + apply bool_decide_eq_false in Hn.
      assert (Hin' : r ∈ identities l).
      { destruct (refOf n) as [x|]; [|exact Hin].
        apply elem_of_cons in Hin as [->|Hin]; [congruence|exact Hin]. }
      assert (Hdup' : NoDup (identities l)).
      { destruct (refOf n); [apply NoDup_cons in Hdup as [_ Hdup]|]; exact Hdup. }
      specialize (IH Hdup' Hin'). destruct (indexOf_found _ _ Hin') as [i Hi].
      rewrite Hi in IH |- *. cbn [fmap option_fmap option_map removeAt] in IH |- *.
      unfold Js.splice in IH |- *. cbn [take drop app Nat.add] in IH |- *.
      rewrite filter_cons_True.
      * rewrite <- IH. reflexivity.
      * unfold survives. destruct (refOf n) as [x|]; [|reflexivity].
        apply negb_true_iff, bool_decide_eq_false. intros Hx.
        apply list_elem_of_singleton in Hx as ->. congruence.
Qed.

Lemma identities_kept removed (l : list AstNode) :
  identities (kept removed l) = filter (fun x => x ∉ removed) (identities l).
Proof.
  induction l as [|n l IH]; [reflexivity|].
  rewrite (identities_cons n l).
  destruct (decide (survives removed n = true)) as [Hs|Hs].
  - rewrite (filter_cons_True _ n l Hs), identities_cons, IH.
    unfold survives in Hs. destruct (refOf n) as [x|]; [|reflexivity].
    apply negb_true_iff, bool_decide_eq_false in Hs.
    rewrite filter_cons_True by exact Hs. reflexivity.
  - rewrite (filter_cons_False _ n l Hs), IH.
    unfold survives in Hs. destruct (refOf n) as [x|]; [|congruence].
    apply not_true_is_false, negb_false_iff, bool_decide_eq_true in Hs.
    rewrite filter_cons_False; [reflexivity|]. intros Hx. exact (Hx Hs).
Qed.

Lemma kept_nil (l : list AstNode) : kept [] l = l.
Proof.
  induction l as [|n l IH]; [reflexivity|]. rewrite filter_cons_True, IH; [reflexivity|].
  unfold survives. destruct (refOf n); [|reflexivity].
  apply negb_true_iff, bool_decide_eq_false. apply not_elem_of_nil.
Qed.

Lemma kept_cons r removed (l : list AstNode) :
  kept removed (kept [r] l) = kept (r :: removed) l.
Proof.
  rewrite list_filter_filter. apply list_filter_iff. intros n. unfold survives.
  destruct (refOf n) as [x|]; [|tauto].
  rewrite !negb_true_iff, !bool_decide_eq_false, !elem_of_cons.
  pose proof (not_elem_of_nil x). tauto.
Qed.

(** The removal of unused keyframes, when the rules it looks for stand
    in the hoisted list: with distinct identities in the hoisted list,
    and the tracked [@keyframes] rules whose name is not used distinct
    and all in the list, the pass removes exactly these rules and keeps
    every other hoisted node, in order. *)
Theorem unused_hoisted_keyframes_are_removed keyframes used atRoots :
  NoDup (identities atRoots) ->
  NoDup (unusedRefs keyframes used) ->
  (forall r, r ∈ unusedRefs keyframes used -> r ∈ identities atRoots) ->
  removeUnusedKeyframes keyframes used atRoots
  = filter (fun node => survives (unusedRefs keyframes used) node = true) atRoots.
Proof.
  revert atRoots. induction keyframes as [|k rest IH]; intros atRoots Hroots Hunused Hin.
  - cbn [removeUnusedKeyframes unusedRefs]. symmetry. apply kept_nil.
  - cbn [removeUnusedKeyframes unusedRefs] in *.
    destruct k as [| name params r nodes o | | | |]; try (apply IH; assumption).
    destruct (bool_decide (params ∈ used)); [apply IH; assumption|].
    apply NoDup_cons in Hunused as [Hr Hrest].
    rewrite removeAt_found; [|exact Hroots|apply Hin, elem_of_cons; left; reflexivity].
    rewrite IH.
    + apply kept_cons.
    + rewrite identities_kept. apply NoDup_filter, Hroots.
    + exact Hrest.
    + intros x Hx. rewrite identities_kept. apply list_elem_of_filter. split.
      * intros Hxr. apply list_elem_of_singleton in Hxr as ->. exact (Hr Hx).
      * apply Hin, elem_of_cons. right. exact Hx.
Qed.

Lemma unused_hoisted_keyframes_are_removed_witness :
  removeUnusedKeyframes
    [AtRule "@keyframes" "spin" 1 [] noAtRuleOffsets;
     AtRule "@keyframes" "fade" 2 [] noAtRuleOffsets]
    {["spin"]}
    [Comment "x" noCommentOffsets;
     AtRule "@keyframes" "spin" 1 [] noAtRuleOffsets;
     AtRule "@keyframes" "fade" 2 [] noAtRuleOffsets;
     decl 3 "color" (Some "red")]
  = [Comment "x" noCommentOffsets;
     AtRule "@keyframes" "spin" 1 [] noAtRuleOffsets;
     decl 3 "color" (Some "red")].
Proof.
  rewrite unused_hoisted_keyframes_are_removed.
  - vm_compute. reflexivity.
  - vm_compute. repeat constructor; set_solver.
  - vm_compute. repeat constructor; set_solver.
  - intros r Hr. vm_compute in Hr. vm_compute. set_solver.
Defined.

End KeyframesProps.

(** ** Outside a theme the cleanup removes nothing *)

Module ThemeScopeProps.
Import Optimizer ThemeScope.

Section NoTheme.
Context {T : Type} `{DesignSystem T}.
Variable E : Externals.
Variable polyfills : Z.
Variable fuel : nat.

Lemma unregistered_refl (st : State T) : unregistered st st.
Proof. split; reflexivity. Qed.

Lemma unregistered_trans (st1 st2 st3 : State T) :
  unregistered st1 st2 -> unregistered st2 st3 -> unregistered st1 st3.
Proof. unfold unregistered. intros [A1 B1] [A2 B2]. split; congruence. Qed.

Lemma theme_merged ctx c :
  truthy (ctx !! "theme") = false -> truthy (c !! "theme") = false ->
  truthy (Walker.mergeContext ctx c !! "theme") = false.
Proof.
  intros Hctx Hc. unfold Walker.mergeContext. rewrite lookup_union.
  destruct (c !! "theme") as [v|], (ctx !! "theme") as [w|]; cbn in *; assumption.
Qed.

Lemma transformAll_noTheme nodes :
  Forall (fun node => noTheme node = true -> registersNothing E polyfills fuel node) nodes ->
  forallb noTheme nodes = true ->
  forall parent ctx depth (st : State T) pushed st',
    truthy (ctx !! "theme") = false ->
    transformAll E polyfills fuel nodes parent ctx depth st = Ok (pushed, st') ->
    unregistered st st'.
Proof.
  induction 1 as [|node rest Hnode _ IH]; intros Hall parent ctx depth st pushed st' Hctx Heq.
  - injection Heq as <- <-. apply unregistered_refl.
  - cbn [forallb] in Hall. apply andb_true_iff in Hall as [Hn Hrest].
    rewrite TransformEq.transformAll_cons in Heq.
    destruct (transform E polyfills fuel node parent ctx depth st) as [[p1 st1]|] eqn:H1;
      [|discriminate].
    cbn [mbind result_bind] in Heq.
    destruct (transformAll E polyfills fuel rest parent ctx depth st1) as [[p2 st2]|] eqn:H2;
      [|discriminate].
    injection Heq as <- <-.
    eapply unregistered_trans; [eapply Hnode; eassumption|eapply IH; eassumption].
Qed.

Lemma transform_noTheme node :
  noTheme node = true -> registersNothing E polyfills fuel node.
Proof.
  induction node as [s h ns o IH | nm pa h ns o IH | h pr va im o | va o
                    | c h ns o IH | h ns o IH] using AstNode_rect_nested;
    cbn [noTheme]; intros Hno parent ctx depth st pushed st' Hctx Heq.
  - (* rule *)
    destruct (Js.seq s "&") eqn:Hsel.
    + apply String.eqb_eq in Hsel. subst s. revert st pushed st' Heq.
      induction IH as [|child rest Hchild _ IHrest]; intros st pushed st' Heq.
      * rewrite TransformEq.transform_amp_nil in Heq. injection Heq as <- <-.
        apply unregistered_refl.
      * cbn [forallb] in Hno. apply andb_true_iff in Hno as [Hc Hr].
        rewrite TransformEq.transform_amp_cons in Heq.
        destruct (fresh st) as [nodes st0] eqn:Hf.
        assert (H0 : unregistered st st0) by (injection Hf as <- <-; split; reflexivity).
        destruct (transform E polyfills fuel child nodes ctx (S depth) st0)
          as [[o1 st1]|] eqn:H1; [|discriminate].
        cbn [mbind result_bind] in Heq.
        match type of Heq with
        | context [transform E polyfills fuel (Rule "&" h rest o) parent ctx depth ?s] =>
            destruct (transform E polyfills fuel (Rule "&" h rest o) parent ctx depth s)
              as [[o2 st2]|] eqn:H2; [|discriminate]
        end.
        injection Heq as <- <-.
        eapply unregistered_trans; [exact H0|].
        eapply unregistered_trans; [eapply (Hchild Hc); eassumption|].
        eapply unregistered_trans; [|eapply (IHrest Hr); exact H2].
        split; reflexivity.
    + rewrite TransformEq.transform_rule in Heq by exact Hsel.
      destruct (fresh st) as [copy st0] eqn:Hf.
      assert (H0 : unregistered st st0) by (injection Hf as <- <-; split; reflexivity).
      destruct (transformAll E polyfills fuel ns copy ctx (S depth) st0)
        as [[children st1]|] eqn:H1; [|discriminate].
      cbn [mbind result_bind] in Heq.
      pose proof (transformAll_noTheme ns IH Hno _ _ _ _ _ _ Hctx H1) as Hc.
      destruct children; injection Heq as <- <-; eapply unregistered_trans; eassumption.
  - (* at-rule *)
    destruct (Js.seq nm "@property" && Nat.eqb depth 0) eqn:Hp.
    + apply andb_true_iff in Hp as [Hn Hd]. apply Nat.eqb_eq in Hd. subst depth.
      destruct (decide (pa ∈ seenAtProperties st)) as [Hseen|Hseen].
      * rewrite TransformEq.transform_atproperty_seen in Heq by assumption.
        injection Heq as <- <-. apply unregistered_refl.
      * rewrite TransformEq.transform_atproperty_first in Heq by assumption.
        assert (H0 : unregistered st (noteAtProperty E polyfills pa ns st)).
        { unfold noteAtProperty. destruct (enabled _ _); [|split; reflexivity].
          destruct (readAtProperty ns None false) as [iv inh]. destruct inh; split; reflexivity. }
        destruct (fresh (noteAtProperty E polyfills pa ns st)) as [copy st0] eqn:Hf.
        assert (H0' : unregistered st st0).
        { injection Hf as <- <-. eapply unregistered_trans; [exact H0|split; reflexivity]. }
        destruct (transformAll E polyfills fuel ns copy ctx 1 st0)
          as [[children st1]|] eqn:H1; [|discriminate].
        cbn [mbind result_bind] in Heq. injection Heq as <- <-.
        eapply unregistered_trans; [exact H0'|].
        eapply transformAll_noTheme; eassumption.
    + rewrite TransformEq.transform_atrule in Heq by exact Hp. cbn zeta in Heq.
      destruct (fresh st) as [copy st0] eqn:Hf.
      assert (H0 : unregistered st st0) by (injection Hf as <- <-; split; reflexivity).
      assert (Hctx' : truthy (atRuleContext nm ctx !! "theme") = false)
        by (rewrite OutputProps.theme_below_atrule; exact Hctx).
      destruct (transformAll E polyfills fuel ns copy (atRuleContext nm ctx) (S depth) st0)
        as [[children st1]|] eqn:H1; [|discriminate].
      cbn [mbind result_bind] in Heq. rewrite Hctx', andb_false_r in Heq.
      pose proof (transformAll_noTheme ns IH Hno _ _ _ _ _ _ Hctx' H1) as Hc.
      destruct children; [destruct (keepsEmpty nm)|]; injection Heq as <- <-;
        eapply unregistered_trans; eassumption.
  - (* declaration *)
    cbn [transform] in Heq. destruct va as [v|]; [|injection Heq as <- <-; split; reflexivity].
    destruct (Js.seq pr "--tw-sort"); [injection Heq as <- <-; split; reflexivity|].
    rewrite Hctx in Heq. cbn [andb] in Heq.
    destruct (enabled polyfills (Polyfills_ColorMix E) && Js.includes "color-mix(" v).
    + destruct (ValueParser.walk _ _ _ _ _) as [[ast requires]|]; [|discriminate].
      cbn [mbind result_bind] in Heq.
      destruct requires; injection Heq as <- <-;
        destruct (Js.includes "var(" v), (Js.seq pr "animation"); split; reflexivity.
    + injection Heq as <- <-.
      destruct (Js.includes "var(" v), (Js.seq pr "animation"); split; reflexivity.
  - (* comment *)
    rewrite TransformEq.transform_comment in Heq. injection Heq as <- <-.
    apply unregistered_refl.
  - (* context *)
    apply andb_true_iff in Hno as [Hc Hall]. apply negb_true_iff in Hc.
    rewrite TransformEq.transform_context in Heq.
    destruct (truthy (c !! "reference")); [injection Heq as <- <-; apply unregistered_refl|].
    eapply transformAll_noTheme; [exact IH|exact Hall| |exact Heq].
    apply theme_merged; assumption.
  - (* at-root *)
    revert st pushed st' Heq.
    induction IH as [|child rest Hchild _ IHrest]; intros st pushed st' Heq.
    + rewrite TransformEq.transform_atroot_nil in Heq. injection Heq as <- <-.
      apply unregistered_refl.
    + cbn [forallb] in Hno. apply andb_true_iff in Hno as [Hc Hr].
      rewrite TransformEq.transform_atroot_cons in Heq.
      destruct (fresh st) as [newParent st0] eqn:Hf.
      assert (H0 : unregistered st st0) by (injection Hf as <- <-; split; reflexivity).
      destruct (transform E polyfills fuel child newParent ctx 0 st0)
        as [[o1 st1]|] eqn:H1; [|discriminate].
      cbn [mbind result_bind] in Heq.
      eapply unregistered_trans; [exact H0|].
      eapply unregistered_trans; [eapply (Hchild Hc); eassumption|].
      eapply unregistered_trans; [|eapply (IHrest Hr); exact Heq].
      split; reflexivity.
Qed.
End NoTheme.

(** The removal of unused theme variables and of unused keyframes only
    concerns what stands below a theme context: on a tree in which no
    context node sets [theme], [optimizeAst] returns what [transform]
    pushed followed by what it hoisted, with the fallback layer put
    around it; no node is removed, whatever the theme reports as used. *)
Theorem outside_a_theme_nothing_is_removed {T : Type} `{DesignSystem T} (E : Externals)
    fuel ast (theme : T) polyfills out st :
  forallb noTheme ast = true ->
  optimize E fuel ast theme polyfills = Ok (out, st) ->
  exists pushed,
    transformAll E polyfills fuel ast (S (maxHandle ast)) ∅ 0
      (setNextHandle (S (S (maxHandle ast))) (initialState ast theme))
    = Ok (pushed, st)
    /\ cssThemeVariables st = [] /\ keyframes st = []
    /\ out = addFallbacks E polyfills st (pushed ++ atRoots st).
Proof.
  intros Hno Heq.
  apply CleanupProps.optimize_stages in Heq as (pushed & st1 & used & m & Htr & Hrm & -> & ->).
  assert (Hun : unregistered
                  (setNextHandle (S (S (maxHandle ast))) (initialState ast theme)) st1).
  { eapply transformAll_noTheme; [|exact Hno| |exact Htr].
    - apply Forall_forall. intros node _. apply transform_noTheme.
    - rewrite lookup_empty. reflexivity. }
  destruct Hun as [Hvars Hkf]. cbn in Hvars, Hkf.
  rewrite Hvars in Hrm. cbn [removeUnusedThemeVariables] in Hrm. injection Hrm as <- <-.
  rewrite Hkf. cbn [removeUnusedKeyframes hoisted newAst].
  destruct st1. cbn in *. subst. exists pushed. repeat split. exact Htr.
Qed.

Lemma outside_a_theme_nothing_is_removed_witness :
  exists pushed,
    @transformAll _ Examples.usageTheme Examples.externals 0 9
      [Rule ":root" 0 [decl 1 "--unused" (Some "red")] noRuleOffsets] 2 ∅ 0
      (setNextHandle 3
         (initialState [Rule ":root" 0 [decl 1 "--unused" (Some "red")] noRuleOffsets]
            (∅ : gset string)))
    = Ok (pushed, setNextHandle 4 (initialState [] (∅ : gset string)))
    /\ cssThemeVariables (setNextHandle 4 (initialState [] (∅ : gset string))) = []
    /\ keyframes (setNextHandle 4 (initialState [] (∅ : gset string))) = []
    /\ [Rule ":root" 3 [decl 1 "--unused" (Some "red")] noRuleOffsets]
       = addFallbacks Examples.externals 0
           (setNextHandle 4 (initialState [] (∅ : gset string)))
           (pushed ++ atRoots (setNextHandle 4 (initialState [] (∅ : gset string)))).
Proof.
  apply (@outside_a_theme_nothing_is_removed _ Examples.usageTheme Examples.externals 9
           [Rule ":root" 0 [decl 1 "--unused" (Some "red")] noRuleOffsets] ∅ 0%Z).
  - reflexivity.
  - vm_compute. reflexivity.
Defined.


(** *** No style rule without children *)

Section Solid.
Import Shape.
Context {T : Type} `{DesignSystem T}.
Variable E : Externals.
Variable polyfills : Z.
Variable fuel : nat.

Lemma tidy_nil (st st' : State T) : atRoots st' = atRoots st -> tidy st [] st'.
Proof. intros Heq. split; [constructor|]. rewrite Heq. trivial. Qed.

Lemma tidy_app (st st1 st2 : State T) o1 o2 :
  tidy st o1 st1 -> tidy st1 o2 st2 -> tidy st (o1 ++ o2) st2.
Proof.
  intros [A1 B1] [A2 B2]. split; [apply Forall_app; split; assumption|auto].
Qed.

Lemma tidy_after (st st1 st2 : State T) o :
  atRoots st1 = atRoots st -> tidy st1 o st2 -> tidy st o st2.
Proof. intros Heq [A B]. split; [exact A|]. rewrite <- Heq. exact B. Qed.

Lemma tidy_then (st st1 st2 : State T) o :
  tidy st o st1 -> atRoots st2 = atRoots st1 -> tidy st o st2.
Proof. intros [A B] Heq. split; [exact A|]. rewrite Heq. exact B. Qed.

Lemma transformAll_solid nodes :
  Forall (pushesSolid E polyfills fuel) nodes ->
  forall parent ctx depth (st : State T) pushed st',
    transformAll E polyfills fuel nodes parent ctx depth st = Ok (pushed, st') ->
    tidy st pushed st'.
Proof.
  induction 1 as [|node rest Hnode _ IH]; intros parent ctx depth st pushed st' Heq.
  - injection Heq as <- <-. apply tidy_nil. reflexivity.
  - rewrite TransformEq.transformAll_cons in Heq.
    destruct (transform E polyfills fuel node parent ctx depth st) as [[p1 st1]|] eqn:H1;
      [|discriminate].
    cbn [mbind result_bind] in Heq.
    destruct (transformAll E polyfills fuel rest parent ctx depth st1) as [[p2 st2]|] eqn:H2;
      [|discriminate].
    injection Heq as <- <-. eapply tidy_app; [eapply Hnode|eapply IH]; eassumption.
Qed.

Lemma solid_container (node : AstNode) children :
  solid node = true -> nodesOf node = Some children -> goodList solid children ->
  allNodes solid node = true.
Proof.
  intros Hs Hn Hc. destruct node; try discriminate Hn; injection Hn as ->;
    cbn [allNodes]; rewrite Hs;
    apply (CleanupProps.goodList_forallb solid); exact Hc.
Qed.

Lemma transform_solid node : pushesSolid E polyfills fuel node.
Proof.
  induction node as [s h ns o IH | nm pa h ns o IH | h pr va im o | va o
                    | c h ns o IH | h ns o IH] using AstNode_rect_nested;
    intros parent ctx depth st pushed st' Heq.
  - (* rule *)
    destruct (Js.seq s "&") eqn:Hsel.
    + apply String.eqb_eq in Hsel. subst s. revert st pushed st' Heq.
      induction IH as [|child rest Hchild _ IHrest]; intros st pushed st' Heq.
      * rewrite TransformEq.transform_amp_nil in Heq. injection Heq as <- <-.
        apply tidy_nil. reflexivity.
      * rewrite TransformEq.transform_amp_cons in Heq.
        destruct (fresh st) as [nodes st0] eqn:Hf.
        assert (H0 : atRoots st0 = atRoots st) by (injection Hf as <- <-; reflexivity).
        destruct (transform E polyfills fuel child nodes ctx (S depth) st0)
          as [[o1 st1]|] eqn:H1; [|discriminate].
        cbn [mbind result_bind] in Heq.
        match type of Heq with
        | context [transform E polyfills fuel (Rule "&" h rest o) parent ctx depth ?s] =>
            destruct (transform E polyfills fuel (Rule "&" h rest o) parent ctx depth s)
              as [[o2 st2]|] eqn:H2; [|discriminate]
        end.
        injection Heq as <- <-.
        eapply tidy_app; [|eapply IHrest; exact H2].
        eapply tidy_then; [eapply tidy_after; [exact H0|eapply Hchild; exact H1]|].
        reflexivity.
    + rewrite TransformEq.transform_rule in Heq by exact Hsel.
      destruct (fresh st) as [copy st0] eqn:Hf.
      assert (H0 : atRoots st0 = atRoots st) by (injection Hf as <- <-; reflexivity).
      destruct (transformAll E polyfills fuel ns copy ctx (S depth) st0)
        as [[children st1]|] eqn:H1; [|discriminate].
      cbn [mbind result_bind] in Heq.
      destruct (transformAll_solid ns IH _ _ _ _ _ _ H1) as [Hc Hr].
      rewrite H0 in Hr.
      destruct children as [|child children]; injection Heq as <- <-.
      * split; [constructor|exact Hr].
      * split; [|exact Hr]. repeat constructor.
        eapply solid_container; [reflexivity|reflexivity|exact Hc].
  - (* at-rule *)
    assert (Hcopy : forall copy children (st1 st2 : State T),
               goodList solid children ->
               (goodList solid (atRoots st) -> goodList solid (atRoots st1)) ->
               atRoots st2 = atRoots st1 ->
               tidy st [AtRule nm pa copy children o] st2).
    { intros copy children st1 st2 Hc Hr Heq2. split; [|rewrite Heq2; exact Hr].
      repeat constructor. eapply solid_container; [reflexivity|reflexivity|exact Hc]. }
    destruct (Js.seq nm "@property" && Nat.eqb depth 0) eqn:Hp.
    + apply andb_true_iff in Hp as [Hn Hd]. apply Nat.eqb_eq in Hd. subst depth.
      destruct (decide (pa ∈ seenAtProperties st)) as [Hseen|Hseen].
      * rewrite TransformEq.transform_atproperty_seen in Heq by assumption.
        injection Heq as <- <-. apply tidy_nil. reflexivity.
      * rewrite TransformEq.transform_atproperty_first in Heq by assumption.
        assert (H0 : atRoots (noteAtProperty E polyfills pa ns st) = atRoots st).
        { unfold noteAtProperty. destruct (enabled _ _); [|reflexivity].
          destruct (readAtProperty ns None false) as [iv inh]. destruct inh; reflexivity. }
        destruct (fresh (noteAtProperty E polyfills pa ns st)) as [copy st0] eqn:Hf.
        assert (H0' : atRoots st0 = atRoots st) by (injection Hf as <- <-; exact H0).
        destruct (transformAll E polyfills fuel ns copy ctx 1 st0)
          as [[children st1]|] eqn:H1; [|discriminate].
        cbn [mbind result_bind] in Heq. injection Heq as <- <-.
        destruct (transformAll_solid ns IH _ _ _ _ _ _ H1) as [Hc Hr]. rewrite H0' in Hr.
        eapply Hcopy; [exact Hc|exact Hr|reflexivity].
    + rewrite TransformEq.transform_atrule in Heq by exact Hp. cbn zeta in Heq.
      destruct (fresh st) as [copy st0] eqn:Hf.
      assert (H0 : atRoots st0 = atRoots st) by (injection Hf as <- <-; reflexivity).
      destruct (transformAll E polyfills fuel ns copy (atRuleContext nm ctx) (S depth) st0)
        as [[children st1]|] eqn:H1; [|discriminate].
      cbn [mbind result_bind] in Heq.
      destruct (transformAll_solid ns IH _ _ _ _ _ _ H1) as [Hc Hr]. rewrite H0 in Hr.
      assert (Hk : atRoots (if Js.seq nm "@keyframes"
                               && truthy (atRuleContext nm ctx !! "theme")
                            then setKeyframes
                                   (keyframes st1 ++ [AtRule nm pa copy children o]) st1
                            else st1) = atRoots st1)
        by (destruct (_ && _); reflexivity).
      destruct children as [|child children]; [destruct (keepsEmpty nm)|];
        injection Heq as <- <-.
      * eapply Hcopy; [exact Hc|exact Hr|exact Hk].
      * split; [constructor|rewrite Hk; exact Hr].
      * eapply Hcopy; [exact Hc|exact Hr|exact Hk].
  - (* declaration *)
    cbn [transform] in Heq.
    destruct va as [v|]; [|injection Heq as <- <-; apply tidy_nil; reflexivity].
    destruct (Js.seq pr "--tw-sort"); [injection Heq as <- <-; apply tidy_nil; reflexivity|].
    destruct (truthy (ctx !! "theme") && isCustomProperty pr && Js.seq v "initial");
      [injection Heq as <- <-; apply tidy_nil; reflexivity|].
    assert (Hdecl : forall d p w i offs, allNodes solid (Declaration d p w i offs) = true)
      by reflexivity.
    assert (Hquery : forall hq l, goodList solid l ->
               allNodes solid (rule E hq colorMixQuerySelector l) = true).
    { intros hq l Hl. unfold rule, colorMixQuerySelector. cbn [Ascii.eqb Bool.eqb].
      destruct (parseAtRule E _) as [name params].
      eapply solid_container; [reflexivity|reflexivity|exact Hl]. }
    match type of Heq with
    | (if ?b then _ else _) = _ => destruct b
    end.
    + destruct (ValueParser.walk _ _ _ _ _) as [[ast requires]|]; [|discriminate].
      cbn [mbind result_bind] in Heq.
      destruct requires; injection Heq as <- <-;
        (split; [repeat constructor; try apply Hquery; repeat constructor|]);
        destruct (truthy (ctx !! "theme") && isCustomProperty pr
                  && negb (truthy (ctx !! "keyframes"))),
                 (Js.includes "var(" v), (truthy (ctx !! "theme") && isCustomProperty pr),
                 (Js.seq pr "animation"); trivial.
    + injection Heq as <- <-. split; [repeat constructor|].
      destruct (truthy (ctx !! "theme") && isCustomProperty pr
                && negb (truthy (ctx !! "keyframes"))),
               (Js.includes "var(" v), (truthy (ctx !! "theme") && isCustomProperty pr),
               (Js.seq pr "animation"); trivial.
  - (* comment *)
    rewrite TransformEq.transform_comment in Heq. injection Heq as <- <-.
    split; [repeat constructor|trivial].
  - (* context *)
    rewrite TransformEq.transform_context in Heq.
    destruct (truthy (c !! "reference")); [injection Heq as <- <-; apply tidy_nil; reflexivity|].
    eapply transformAll_solid; [exact IH|exact Heq].
  - (* at-root *)
    revert st pushed st' Heq.
    induction IH as [|child rest Hchild _ IHrest]; intros st pushed st' Heq.
    + rewrite TransformEq.transform_atroot_nil in Heq. injection Heq as <- <-.
      apply tidy_nil. reflexivity.
    + rewrite TransformEq.transform_atroot_cons in Heq.
      destruct (fresh st) as [newParent st0] eqn:Hf.
      assert (H0 : atRoots st0 = atRoots st) by (injection Hf as <- <-; reflexivity).
      destruct (transform E polyfills fuel child newParent ctx 0 st0)
        as [[o1 st1]|] eqn:H1; [|discriminate].
      cbn [mbind result_bind] in Heq.
      destruct (Hchild _ _ _ _ _ _ H1) as [Ho1 Hr1]. rewrite H0 in Hr1.
      destruct (IHrest _ _ _ Heq) as [Hp Hr]. split; [exact Hp|].
      intros Hst. apply Hr. cbn. apply Forall_app. split; [apply Hr1, Hst|exact Ho1].
Qed.

Lemma valuedDecls_solid l :
  Forall (fun n => isValuedDecl n = true) l -> goodList solid l.
Proof.
  intros Hl. eapply Forall_impl; [exact Hl|].
  intros n Hn. destruct n as [| |h pr [v|] i o| | |]; try discriminate. reflexivity.
Qed.

Lemma rule_solid h selector node nodes :
  goodList solid (node :: nodes) ->
  allNodes solid (rule E h selector (node :: nodes)) = true.
Proof.
  intros Hn. unfold rule. destruct selector as [|c sel'].
  - eapply solid_container; [reflexivity|reflexivity|exact Hn].
  - destruct (Ascii.eqb c "@").
    + destruct (parseAtRule E _) as [name params].
      eapply solid_container; [reflexivity|reflexivity|exact Hn].
    + eapply solid_container; [reflexivity|reflexivity|exact Hn].
Qed.

Lemma addFallbacks_solid (st : State T) newAst :
  Forall (fun n => isValuedDecl n = true) (propertyFallbacksRoot st) ->
  Forall (fun n => isValuedDecl n = true) (propertyFallbacksUniversal st) ->
  goodList solid newAst -> goodList solid (addFallbacks E polyfills st newAst).
Proof.
  intros Hr Hu Hn. unfold addFallbacks. destruct (enabled _ _); [|exact Hn].
  cbn [fresh fst snd propertyFallbacksRoot propertyFallbacksUniversal
       setNextHandle nextHandle].
  apply valuedDecls_solid in Hr. apply valuedDecls_solid in Hu.
  match goal with
  | |- goodList solid (match ?fb with [] => _ | _ :: _ => _ end) =>
      assert (Hfb : goodList solid fb); [|destruct fb; [exact Hn|]]
  end.
  { apply Forall_app. split.
    - destruct (propertyFallbacksRoot st) eqn:Hroot; [constructor|].
      repeat constructor. apply rule_solid. exact Hr.
    - destruct (propertyFallbacksUniversal st) eqn:Huni; [constructor|].
      repeat constructor. apply rule_solid. exact Hu. }
  apply Forall_app. split.
  - apply CleanupProps.goodList_splice; [|exact Hn]. repeat constructor.
  - repeat constructor. apply rule_solid. repeat constructor.
    eapply solid_container; [reflexivity|reflexivity|exact Hfb].
Qed.
End Solid.

(** Outside themes no style rule is left without children.  [transform]
    drops a style rule whose copy got no child, and on a tree in which
    no context node sets [theme] nothing is removed afterwards, so the
    tree [optimizeAst] returns holds no style rule without children, at
    any depth. *)
Theorem outside_a_theme_no_style_rule_is_empty {T : Type} `{DesignSystem T}
    (E : Externals) fuel ast (theme : T) polyfills out :
  forallb noTheme ast = true ->
  optimizeAst E fuel ast theme polyfills = Ok out ->
  Shape.goodList solid out.
Proof.
  intros Hno Heq. apply AmpFlattening.optimizeAst_optimize in Heq as [st Heq].
  apply CleanupProps.optimize_stages in Heq as (pushed & st1 & used & m & Htr & Hrm & -> & ->).
  assert (Hun : unregistered
                  (setNextHandle (S (S (maxHandle ast))) (initialState ast theme)) st1).
  { eapply transformAll_noTheme; [|exact Hno| |exact Htr].
    - apply Forall_forall. intros node _. apply transform_noTheme.
    - rewrite lookup_empty. reflexivity. }
  destruct Hun as [Hvars Hkf]. cbn in Hvars, Hkf.
  rewrite Hvars in Hrm. cbn [removeUnusedThemeVariables] in Hrm. injection Hrm as <- <-.
  rewrite Hkf. cbn [removeUnusedKeyframes hoisted newAst].
  pose proof (TransformEq.transformAll_fallbacks E polyfills fuel _ _ _ _ _ _ _ Htr) as Hfb.
  destruct Hfb as [Hr Hu]; [split; constructor|].
  destruct (transformAll_solid E polyfills fuel ast
              (proj2 (Forall_forall _ _) (fun node _ => transform_solid E polyfills fuel node))
              _ _ _ _ _ _ Htr) as [Hp Hat].
  apply addFallbacks_solid; [exact Hr|exact Hu|].
  apply Forall_app. split; [exact Hp|]. apply Hat. constructor.
Qed.

Lemma outside_a_theme_no_style_rule_is_empty_witness :
  Shape.goodList solid [Rule ".c" 7 [decl 3 "color" (Some "red")] noRuleOffsets].
Proof.
  apply (@outside_a_theme_no_style_rule_is_empty _ Examples.blankTheme
           Examples.externals 12
           [Rule ".a" 0 [Rule ".b" 1 [] noRuleOffsets] noRuleOffsets;
            Rule ".c" 2 [decl 3 "color" (Some "red")] noRuleOffsets]
           [] 0%Z).
  - reflexivity.
  - vm_compute. reflexivity.
Defined.

(** Below a theme the removal of an unused variable can empty a style
    rule that stays in the tree: an emptied rule is removed only from
    the top level or from an at-rule, not from a style rule. *)
Example theme_cleanup_can_empty_a_style_rule :
  @optimizeAst _ Examples.blankTheme Examples.externals 12
    [Rule ".a" 0
       [Rule ":root" 1
          [Context {["theme" := CBool true]} 2 [decl 3 "--x" (Some "red")] noBodyOffsets]
          noRuleOffsets] noRuleOffsets] [] 0%Z
  = Ok [Rule ".a" 5 [Rule ":root" 6 [] noRuleOffsets] noRuleOffsets].
Proof. vm_compute. reflexivity. Qed.

End ThemeScopeProps.
